(** * Block tooling of the DA admin server: analyzer, content extractor,
      template generator and content-source resolution.

    A shallow embedding of [src/operations/blocks.js] and
    [src/common/block-utils.js].

    JavaScript strings are sequences of UTF-16 code units; they are modelled
    as lists of numbers.  Regular expressions of the source are kept as data
    ([regex]) and run by a small backtracking matcher that follows the
    leftmost, greedy-first discipline of the ECMAScript matcher. *)

From Stdlib Require Import NArith Ascii String.
From stdpp Require Import gmap list.

Set Default Proof Using "Type".
Local Open Scope nat_scope.

(** ** Strings *)

Module JsString.

(** A UTF-16 code unit, and a string. *)
Abbreviation cu := N.
Abbreviation jsstring := (list N).

Definition chr (a : ascii) : cu := N_of_ascii a.

(** A source literal. *)
Definition str (s : string) : jsstring := map chr (list_ascii_of_string s).

Definition dquote : cu := 34%N.

(** A source literal in which every apostrophe stands for a double quote
    (the literals of this development never hold a real apostrophe). *)
Definition strq (s : string) : jsstring :=
  map (fun c => if (c =? 39)%N then dquote else c) (str s).

Definition in_range (lo hi c : cu) : bool := ((lo <=? c) && (c <=? hi))%N.
Arguments in_range (lo hi c)%_N.

(** ECMAScript WhiteSpace and LineTerminator code units: what [\s] matches
    and what [trim] strips. *)
Definition is_space (c : cu) : bool :=
  in_range 9 13 c || (c =? 32)%N || (c =? 160)%N || (c =? 5760)%N
  || in_range 8192 8202 c || (c =? 8232)%N || (c =? 8233)%N
  || (c =? 8239)%N || (c =? 8287)%N || (c =? 12288)%N || (c =? 65279)%N.

(** [\w]: ASCII letters, digits and underscore. *)
Definition is_word (c : cu) : bool :=
  in_range 48 57 c || in_range 65 90 c || (c =? 95)%N || in_range 97 122 c.

(** What [.] matches: everything but the four line terminators. *)
Definition is_dot (c : cu) : bool :=
  negb ((c =? 10)%N || (c =? 13)%N || (c =? 8232)%N || (c =? 8233)%N).

(** [[a-zA-Z0-9_-]] *)
Definition is_class_char (c : cu) : bool := is_word c || (c =? 45)%N.

Definition is_not (d : cu) (c : cu) : bool := negb (c =? d)%N.

Fixpoint eqb (s t : jsstring) : bool :=
  match s, t with
  | [], [] => true
  | c :: s', d :: t' => (c =? d)%N && eqb s' t'
  | _, _ => false
  end.

(** [s.startsWith(p)] *)
Fixpoint startsWith (s p : jsstring) {struct p} : bool :=
  match p, s with
  | [], _ => true
  | d :: p', c :: s' => (c =? d)%N && startsWith s' p'
  | _ :: _, [] => false
  end.

(** [s.endsWith(p)] *)
Definition endsWith (s p : jsstring) : bool :=
  startsWith (rev s) (rev p).

(** [s.includes(p)] *)
Fixpoint includes (s p : jsstring) : bool :=
  startsWith s p ||
  match s with
  | [] => false
  | _ :: s' => includes s' p
  end.

(** [s.substring(i, j)] for [i <= j]. *)
Definition substring (s : jsstring) (i j : nat) : jsstring :=
  take (j - i) (drop i s).

(** [s.slice(i)] for a non-negative [i]. *)
Definition slice (s : jsstring) (i : nat) : jsstring := drop i s.

(** [s.charAt(i)]: a string of length one, or the empty string. *)
Definition charAt (s : jsstring) (i : nat) : jsstring := take 1 (drop i s).

Fixpoint trimStart (s : jsstring) : jsstring :=
  match s with
  | c :: s' => if is_space c then trimStart s' else s
  | [] => []
  end.

Definition trimEnd (s : jsstring) : jsstring := rev (trimStart (rev s)).

(** [s.trim()] *)
Definition trim (s : jsstring) : jsstring := trimEnd (trimStart s).

(** [s.split(/\s+/)]: [acc] is the current token, reversed; [skipping]
    says that the scan is inside a run of white space already closed by a
    token. *)
Fixpoint split_go (acc : jsstring) (skipping : bool) (s : jsstring)
  : list jsstring :=
  match s with
  | [] => [rev acc]
  | c :: s' =>
      if is_space c then
        if skipping then split_go acc true s'
        else rev acc :: split_go [] true s'
      else split_go (c :: acc) false s'
  end.

Definition split_ws (s : jsstring) : list jsstring := split_go [] false s.

(** [parts.join(sep)] *)
Fixpoint join (sep : jsstring) (parts : list jsstring) : jsstring :=
  match parts with
  | [] => []
  | [p] => p
  | p :: rest => p ++ sep ++ join sep rest
  end.

(** A string is falsy exactly when it is empty. *)
Definition truthy (s : jsstring) : bool :=
  match s with [] => false | _ => true end.

End JsString.

Import JsString.

(** ** Regular expressions *)

Module Regex.

(** The fragment of the ECMAScript pattern language that the source uses.
    Quantifiers are applied to character classes only, and a pattern has
    at most one capture group. *)
Inductive regex : Type :=
| Empty
| Char (c : cu)
| Class (p : cu -> bool)
| Seq (r1 r2 : regex)
| Star (p : cu -> bool)
| PlusLazy (p : cu -> bool)
| Opt (r : regex)
| Group (r : regex)
| WordBoundary.

Fixpoint Lit (s : jsstring) : regex :=
  match s with
  | [] => Empty
  | c :: s' => Seq (Char c) (Lit s')
  end.

Definition Plus (p : cu -> bool) : regex := Seq (Class p) (Star p).

Fixpoint Cat (rs : list regex) : regex :=
  match rs with
  | [] => Empty
  | r :: rs' => Seq r (Cat rs')
  end.

(** The matcher state: the input still to be read, its index in the whole
    subject, the code unit just before it, and the span of group 1. *)
Record mstate := MState {
  rest : jsstring;
  pos : nat;
  prev : option cu;
  cap : option (nat * nat)
}.

(** Canonicalization of the [i] flag (without [u]) on the code units a
    pattern of the source can hold: ASCII letters fold to upper case, and
    no code unit above 127 folds onto an ASCII one. *)
Definition canonicalize (c : cu) : cu :=
  if in_range 97 122 c then (c - 32)%N else c.

Definition char_eq (ic : bool) (c d : cu) : bool :=
  if ic then (canonicalize c =? canonicalize d)%N else (c =? d)%N.

Definition word_opt (o : option cu) : bool :=
  match o with Some c => is_word c | None => false end.

(** [p*], greedy: take one more code unit first, give it back when the
    continuation fails. *)
Fixpoint greedy (p : cu -> bool) (k : mstate -> option mstate)
    (s : jsstring) (i : nat) (pv : option cu) (cp : option (nat * nat))
  : option mstate :=
  match s with
  | c :: s' =>
      if p c then
        match greedy p k s' (S i) (Some c) cp with
        | Some st => Some st
        | None => k (MState s i pv cp)
        end
      else k (MState s i pv cp)
  | [] => k (MState s i pv cp)
  end.

(** The tail of [p+?], lazy: try the continuation first, take one more
    code unit when it fails. *)
Fixpoint lazy (p : cu -> bool) (k : mstate -> option mstate)
    (s : jsstring) (i : nat) (pv : option cu) (cp : option (nat * nat))
  : option mstate :=
  match k (MState s i pv cp) with
  | Some st => Some st
  | None =>
      match s with
      | c :: s' => if p c then lazy p k s' (S i) (Some c) cp else None
      | [] => None
      end
  end.

(** One code unit satisfying [p]. *)
Definition one (p : cu -> bool) (k : mstate -> option mstate)
    (st : mstate) : option mstate :=
  match rest st with
  | c :: s' => if p c then k (MState s' (S (pos st)) (Some c) (cap st))
               else None
  | [] => None
  end.

(** The backtracking matcher, in continuation-passing style: [k] is what
    remains of the pattern.  [ic] is the ignore-case flag. *)
Fixpoint run (ic : bool) (r : regex) (k : mstate -> option mstate)
    (st : mstate) : option mstate :=
  match r with
  | Empty => k st
  | Char c => one (char_eq ic c) k st
  | Class p => one p k st
  | Seq r1 r2 => run ic r1 (run ic r2 k) st
  | Star p => greedy p k (rest st) (pos st) (prev st) (cap st)
  | PlusLazy p =>
      one p (fun st' => lazy p k (rest st') (pos st') (prev st') (cap st'))
        st
  | Opt r1 =>
      match run ic r1 k st with
      | Some st' => Some st'
      | None => k st
      end
  | Group r1 =>
      run ic r1
        (fun st' => k (MState (rest st') (pos st') (prev st')
                         (Some (pos st, pos st'))))
        st
  | WordBoundary =>
      if xorb (word_opt (prev st)) (word_opt (head (rest st)))
      then k st else None
  end.

(** A successful match: where it starts, where it ends, and the span of
    group 1. *)
Record rmatch := RMatch {
  index : nat;
  stop : nat;
  group1 : option (nat * nat)
}.

(** The leftmost match in [s], which sits at index [i] of the subject. *)
Fixpoint search (ic : bool) (r : regex) (s : jsstring) (i : nat)
    (pv : option cu) : option rmatch :=
  match run ic r Some (MState s i pv None) with
  | Some st => Some (RMatch i (pos st) (cap st))
  | None =>
      match s with
      | c :: s' => search ic r s' (S i) (Some c)
      | [] => None
      end
  end.

(** [re.exec(subject)] with [re.lastIndex = lastIndex] on a global
    pattern; also [subject.match(re)] of a pattern without the [g] flag,
    with [lastIndex = 0]. *)
Definition exec (ic : bool) (r : regex) (subject : jsstring)
    (lastIndex : nat) : option rmatch :=
  if decide (lastIndex <= length subject) then
    search ic r (drop lastIndex subject) lastIndex
      (last (take lastIndex subject))
  else None.

(** [match[0]] *)
Definition matched (subject : jsstring) (m : rmatch) : jsstring :=
  substring subject (index m) (stop m).

(** [match[1]]; the patterns of the source that read it always set it. *)
Definition captured (subject : jsstring) (m : rmatch) : jsstring :=
  match group1 m with
  | Some (i, j) => substring subject i j
  | None => []
  end.

(** [subject.matchAll(re)]: the successive matches, each search starting
    where the previous match stopped, one further after an empty match. *)
Fixpoint matchAll_from (fuel : nat) (ic : bool) (r : regex)
    (subject : jsstring) (lastIndex : nat) : list rmatch :=
  match fuel with
  | O => []
  | S fuel' =>
      match exec ic r subject lastIndex with
      | None => []
      | Some m =>
          m :: matchAll_from fuel' ic r subject
                 (if decide (stop m = index m) then S (stop m) else stop m)
      end
  end.

Definition matchAll (ic : bool) (r : regex) (subject : jsstring)
  : list rmatch :=
  matchAll_from (S (length subject)) ic r subject 0.

End Regex.

Import Regex.

(** ** Objects used as string-keyed maps *)

Module JsObject.

(** The properties every object literal inherits from [Object.prototype].
    Each of them holds a function, or (for [__proto__]) the prototype
    itself: a truthy value. *)
Definition Object_prototype_keys : list jsstring :=
  [ str "constructor"; str "__defineGetter__"; str "__defineSetter__";
    str "hasOwnProperty"; str "__lookupGetter__"; str "__lookupSetter__";
    str "isPrototypeOf"; str "propertyIsEnumerable"; str "toString";
    str "valueOf"; str "__proto__"; str "toLocaleString" ].

Definition inherited (k : jsstring) : bool :=
  existsb (JsString.eqb k) Object_prototype_keys.

(** What [obj[k]] evaluates to, for an object literal [obj] whose own
    properties are the strings of [own]. *)
Inductive value :=
| VString (s : jsstring)
| VInherited (k : jsstring)
| VUndefined.

Definition get (own : gmap jsstring jsstring) (k : jsstring) : value :=
  match own !! k with
  | Some s => VString s
  | None => if inherited k then VInherited k else VUndefined
  end.

Definition value_truthy (v : value) : bool :=
  match v with
  | VString s => truthy s
  | VInherited _ => true
  | VUndefined => false
  end.

End JsObject.

Import JsObject.

(** ** The block content extractor *)

Definition gt_sign : cu := 62%N.
Definition hyphen : cu := 45%N.
Definition dot_sign : cu := 46%N.

(** The body of group 1 of the opening-tag pattern: any run without [>];
    the text [class=] and a double quote; any run without a double quote; a
    word boundary, the block name, a word boundary; any run without a double
    quote; a double quote; any run without [>].  The block name is spliced
    into the pattern text; the model reads it as a literal, which is what
    the pattern means for a name made of letters, digits, underscores and
    hyphens. *)
Definition attributesRegex (blockName : jsstring) : regex :=
  Cat [ Star (is_not gt_sign);
        Lit (strq "class='");
        Star (is_not dquote);
        WordBoundary;
        Lit blockName;
        WordBoundary;
        Star (is_not dquote);
        Char dquote;
        Star (is_not gt_sign) ].

(** The pattern built by [new RegExp] with the flags [gi]: the text [<div],
    then group 1, then [>]. *)
Definition openTagRegex (blockName : jsstring) : regex :=
  Cat [ Lit (str "<div"); Group (attributesRegex blockName); Char gt_sign ].

(** The pattern of [attributes.match]: the text [class=], a double quote,
    group 1 holding any run without a double quote, a double quote.  No
    flags. *)
Definition classAttrRegex : regex :=
  Cat [ Lit (strq "class='"); Group (Star (is_not dquote)); Char dquote ].

(** The text [<div], any run without [>], then [>]; flag [g]. *)
Definition divOpenRegex : regex :=
  Cat [ Lit (str "<div"); Star (is_not gt_sign); Char gt_sign ].

(** [/<\/div>/g] *)
Definition divCloseRegex : regex := Lit (str "</div>").

(** The class tokens of an opening tag's attribute text. *)
Definition class_tokens (attributes : jsstring) : list jsstring :=
  match exec false classAttrRegex attributes 0 with
  | Some classMatch => split_ws (captured attributes classMatch)
  | None => []
  end.

(** [classes.find(...) || ''], the predicate of [find] being
    [cls !== blockName && !cls.startsWith(blockName + '-')]. *)
Definition variant_of (classes : list jsstring) (blockName : jsstring)
  : jsstring :=
  match List.find
          (fun cls => negb (JsString.eqb cls blockName)
                      && negb (startsWith cls (blockName ++ [hyphen])))
          classes with
  | Some cls => if truthy cls then cls else []
  | None => []
  end.

(** The inner loop of [parseBlockInstances]: [Some content] when the
    assignment to [blockInstances[variant]] is reached, [None] when the loop
    is left without it. *)
Fixpoint scan (fuel : nat) (html : jsstring) (startPos depth pos : nat)
  : option jsstring :=
  match fuel with
  | O => None
  | S fuel' =>
      if (0 <? depth) && (pos <? length html) then
        let nextOpen := exec false divOpenRegex html pos in
        let nextClose := exec false divCloseRegex html pos in
        match nextClose with
        | None => None
        | Some close =>
            match nextOpen with
            | Some open =>
                if index open <? index close then
                  scan fuel' html startPos (S depth) (stop open)
                else if depth - 1 =? 0 then
                  Some (trim (substring html startPos (index close)))
                else scan fuel' html startPos (depth - 1) (stop close)
            | None =>
                if depth - 1 =? 0 then
                  Some (trim (substring html startPos (index close)))
                else scan fuel' html startPos (depth - 1) (stop close)
            end
        end
      else None
  end.

(** Every turn of the inner loop moves [pos] forward, so the length of the
    document bounds the number of turns. *)
Definition scan_content (html : jsstring) (startPos : nat) : option jsstring :=
  scan (S (length html)) html startPos 1 startPos.

(** One turn of the outer loop, for the match [m] of [openTagRegex]. *)
Definition record_instance (html blockName : jsstring) (m : rmatch)
    (blockInstances : gmap jsstring jsstring) : gmap jsstring jsstring :=
  let openTag := matched html m in
  let attributes := captured html m in
  let startPos := index m + length openTag in
  let variant := variant_of (class_tokens attributes) blockName in
  if value_truthy (get blockInstances variant) then blockInstances
  else
    match scan_content html startPos with
    | Some content => <[variant := content]> blockInstances
    | None => blockInstances
    end.

(** The outer loop: [openTagRegex.lastIndex] is the loop's only state besides
    the object under construction. *)
Fixpoint instances_loop (fuel : nat) (html blockName : jsstring)
    (lastIndex : nat) (blockInstances : gmap jsstring jsstring)
  : gmap jsstring jsstring :=
  match fuel with
  | O => blockInstances
  | S fuel' =>
      match exec true (openTagRegex blockName) html lastIndex with
      | None => blockInstances
      | Some m =>
          instances_loop fuel' html blockName (stop m)
            (record_instance html blockName m blockInstances)
      end
  end.

Definition parseBlockInstances (html blockName : jsstring)
  : gmap jsstring jsstring :=
  instances_loop (S (length html)) html blockName 0 ∅.

(** ** Promises

    An [async] function either returns a value or throws; [await] on a
    rejected promise throws in the caller. *)

Module Async.

(** A thrown value: its [message] property, when it has one that is a
    string, and whatever else identifies it. *)
Record js_error := JsError {
  message : option jsstring;
  detail : jsstring
}.

(** [new Error(msg)] *)
Definition new_Error (msg : jsstring) : js_error := JsError (Some msg) [].

Inductive outcome (A : Type) : Type :=
| Returned (a : A)
| Thrown (e : js_error).
Arguments Returned {A} a.
Arguments Thrown {A} e.

Definition bind {A B : Type} (x : outcome A) (f : A -> outcome B)
  : outcome B :=
  match x with
  | Returned a => f a
  | Thrown e => Thrown e
  end.

End Async.

Import Async.

(** [x ← c; k] reads [const x = await c; k]. *)
#[export] Instance outcome_ret : MRet outcome := @Returned.
#[export] Instance outcome_bind : MBind outcome :=
  fun A B f x => Async.bind x f.

(** ** The block analyzer *)

(** A content source, as far as the analyzer reads it: [getFileContent]
    gives the text of a file or [null]. *)
Record source := Source {
  getFileContent : jsstring -> option jsstring
}.

(** A value of [getFileContent] used as a condition. *)
Definition content_truthy (content : option jsstring) : bool :=
  match content with
  | Some text => truthy text
  | None => false
  end.

Record patterns := Patterns {
  p_hasImage : list jsstring;
  p_hasHeading : list jsstring;
  p_hasButton : list jsstring;
  p_hasMultipleItems : list jsstring
}.

Definition STRUCTURE_PATTERNS : patterns := {|
  p_hasImage := [str "image"; str "img"; str "picture"; str "photo"];
  p_hasHeading := [str "title"; str "heading"; str "headline"];
  p_hasButton := [str "button"; str "btn"; str "cta"; str "action"];
  p_hasMultipleItems := [str "item"; str "card"; str "column"]
|}.

Definition buildBlockFilePath (blockName fileName : jsstring) : jsstring :=
  blockName ++ str "/" ++ fileName.

Record features := Features {
  hasImage : bool;
  hasHeading : bool;
  hasButton : bool;
  hasMultipleItems : bool;
  isBEM : bool
}.

(** [classes.some(className => patterns.some(pattern => className.includes(pattern)))] *)
Definition some_includes (pats classes : list jsstring) : bool :=
  existsb (fun className => existsb (fun pattern => includes className pattern) pats)
    classes.

Definition detectStructureFeatures (classes : list jsstring) : features := {|
  hasImage := some_includes (p_hasImage STRUCTURE_PATTERNS) classes;
  hasHeading := some_includes (p_hasHeading STRUCTURE_PATTERNS) classes;
  hasButton := some_includes (p_hasButton STRUCTURE_PATTERNS) classes;
  hasMultipleItems := some_includes (p_hasMultipleItems STRUCTURE_PATTERNS) classes;
  isBEM := existsb (fun c => includes c (str "__") || includes c (str "--")) classes
|}.

(** The text [/**], white space, a line feed, white space, [*], white space,
    group 1 holding a lazy non-empty run of [.], white space, a line feed. *)
Definition jsdocRegex : regex :=
  Cat [ Lit (str "/**"); Star is_space; Char 10%N; Star is_space;
        Char 42%N; Star is_space; Group (PlusLazy is_dot); Star is_space;
        Char 10%N ].

(** [export], white space, [default], white space, optionally [async] and
    white space, [function], white space, group 1 holding a run of word
    characters. *)
Definition exportRegex : regex :=
  Cat [ Lit (str "export"); Plus is_space; Lit (str "default"); Plus is_space;
        Opt (Cat [Lit (str "async"); Plus is_space]);
        Lit (str "function"); Plus is_space; Group (Plus is_word) ].

(** A dot, then group 1 holding a run of letters, digits, underscores and
    hyphens; flag [g]. *)
Definition classRegex : regex :=
  Cat [ Char dot_sign; Group (Plus is_class_char) ].

(** The pattern built by [new RegExp] with the flag [g]: a dot, the block
    name, a dot, group 1 holding a run of word characters.  As in
    [openTagRegex] the block name is read as a literal. *)
Definition variantPattern (blockName : jsstring) : regex :=
  Cat [ Char dot_sign; Lit blockName; Char dot_sign; Group (Plus is_word) ].

(** [set.add(x)] on a [Set] kept in insertion order. *)
Definition set_add (set : list jsstring) (x : jsstring) : list jsstring :=
  if existsb (JsString.eqb x) set then set else set ++ [x].

Record structure := Structure {
  classes : list jsstring;
  flags : features;
  functionName : option jsstring
}.

Record analysis := Analysis {
  a_blockName : jsstring;
  description : option jsstring;
  variants : list jsstring;
  hasJS : bool;
  hasCSS : bool;
  a_structure : structure
}.

Definition no_features : features := Features false false false false false.

(** The class names of a stylesheet, in order of first appearance. *)
Definition css_classes (cssContent : jsstring) : list jsstring :=
  fold_left (fun allClasses m => set_add allClasses (captured cssContent m))
    (matchAll false classRegex cssContent) [].

(** The variant names of a stylesheet, in order of first appearance. *)
Definition css_variants (cssContent blockName : jsstring) : list jsstring :=
  fold_left
    (fun variants m =>
       if negb (JsString.eqb (captured cssContent m) blockName)
       then set_add variants (captured cssContent m) else variants)
    (matchAll false (variantPattern blockName) cssContent) [].

(** Assignments to the fields of [result]. *)
Definition set_hasJS (result : analysis) : analysis :=
  Analysis (a_blockName result) (description result) (variants result)
    true (hasCSS result) (a_structure result).

Definition set_hasCSS (result : analysis) : analysis :=
  Analysis (a_blockName result) (description result) (variants result)
    (hasJS result) true (a_structure result).

Definition set_description (d : jsstring) (result : analysis) : analysis :=
  Analysis (a_blockName result) (Some d) (variants result)
    (hasJS result) (hasCSS result) (a_structure result).

Definition set_variants (vs : list jsstring) (result : analysis) : analysis :=
  Analysis (a_blockName result) (description result) vs
    (hasJS result) (hasCSS result) (a_structure result).

Definition set_structure (st : structure) (result : analysis) : analysis :=
  Analysis (a_blockName result) (description result) (variants result)
    (hasJS result) (hasCSS result) st.

(** What [analyzeBlock] does with a script that is there. *)
Definition analyze_script (jsContent : jsstring) (result : analysis) : analysis :=
  let result := set_hasJS result in
  let result :=
    match exec false jsdocRegex jsContent 0 with
    | Some jsdocMatch => set_description (captured jsContent jsdocMatch) result
    | None => result
    end in
  match exec false exportRegex jsContent 0 with
  | Some exportMatch =>
      set_structure
        (Structure (classes (a_structure result)) (flags (a_structure result))
           (Some (captured jsContent exportMatch)))
        result
  | None => result
  end.

(** What [analyzeBlock] does with a stylesheet that is there.  The last
    step is [Object.assign], which overwrites the five flags. *)
Definition analyze_stylesheet (cssContent blockName : jsstring)
    (result : analysis) : analysis :=
  let result := set_hasCSS result in
  let result :=
    set_structure
      (Structure (css_classes cssContent) (flags (a_structure result))
         (functionName (a_structure result)))
      result in
  let result := set_variants (css_variants cssContent blockName) result in
  set_structure
    (Structure (classes (a_structure result))
       (detectStructureFeatures (classes (a_structure result)))
       (functionName (a_structure result)))
    result.

Definition analyzeBlock (src : source) (blockName : jsstring) : analysis :=
  let result :=
    {| a_blockName := blockName;
       description := None;
       variants := [];
       hasJS := false;
       hasCSS := false;
       a_structure := Structure [] no_features None |} in
  let jsContent :=
    getFileContent src (buildBlockFilePath blockName (blockName ++ str ".js")) in
  let result :=
    match jsContent with
    | Some js => if truthy js then analyze_script js result else result
    | None => result
    end in
  let cssContent :=
    getFileContent src (buildBlockFilePath blockName (blockName ++ str ".css")) in
  match cssContent with
  | Some css =>
      if truthy css then analyze_stylesheet css blockName result else result
  | None => result
  end.

(** The entry of one block in the listing. *)
Record block_entry := BlockEntry {
  name : jsstring;
  e_hasJS : bool;
  e_hasCSS : bool;
  type : jsstring
}.

Definition checkBlockFiles (src : source) (blockName : jsstring) : block_entry :=
  let jsContent :=
    getFileContent src (buildBlockFilePath blockName (blockName ++ str ".js")) in
  let cssContent :=
    getFileContent src (buildBlockFilePath blockName (blockName ++ str ".css")) in
  {| name := blockName;
     e_hasJS := content_truthy jsContent;
     e_hasCSS := content_truthy cssContent;
     type := str "dir" |}.

(** ** The template generator *)

Definition nl : jsstring := [10%N].

(** The lines of a template literal, put back together. *)
Definition lines (ls : list jsstring) : jsstring := join nl ls.

(** [arr.push(x)] *)
Definition push {A : Type} (arr : list A) (x : A) : list A := arr ++ [x].

Section Template.

(** [String.prototype.toUpperCase], applied by the source to a string of
    at most one code unit. *)
Variable toUpperCase : jsstring -> jsstring.

(** The text an engine gives for an inherited member of
    [Object.prototype] inside a template literal. *)
Variable inherited_text : jsstring -> jsstring.

(** [blockName.charAt(0).toUpperCase() + blockName.slice(1)] *)
Definition capitalize (blockName : jsstring) : jsstring :=
  toUpperCase (charAt blockName 0) ++ slice blockName 1.

(** [variants?.length > 0] *)
Definition has_variants (variants : option (list jsstring)) : bool :=
  match variants with
  | Some vs => 0 <? length vs
  | None => false
  end.

(** The flags of [structure] are read as conditions only: an absent flag
    is [undefined], which is falsy, and is modelled as [false]. *)
Definition generateAutoDescription (blockName : jsstring)
    (structure : features) (variants : option (list jsstring)) : jsstring :=
  let parts := [] in
  let parts :=
    if hasMultipleItems structure then push parts (str "Multi-item layout")
    else parts in
  let content := [] in
  let content := if hasImage structure then push content (str "images") else content in
  let content := if hasHeading structure then push content (str "headings") else content in
  let content := if hasButton structure then push content (str "buttons") else content in
  let parts :=
    if 0 <? length content
    then push parts (str "with " ++ join (str ", ") content)
    else parts in
  let parts :=
    if has_variants variants
    then push parts (str "Variants: " ++ join (str ", ") (default [] variants))
    else parts in
  if 0 <? length parts then join (str " ") parts
  else capitalize blockName ++ str " block".

(** [blockContent?.[key]] *)
Definition get_opt (blockContent : option (gmap jsstring jsstring))
    (key : jsstring) : value :=
  match blockContent with
  | Some own => get own key
  | None => VUndefined
  end.

(** [a || b] *)
Definition or_else (a b : value) : value :=
  if value_truthy a then a else b.

(** A value spliced into a template literal; [undefined] never reaches
    it. *)
Definition spliced (v : value) : jsstring :=
  match v with
  | VString s => s
  | VInherited k => inherited_text k
  | VUndefined => str "undefined"
  end.

(** [blockContent?.[variant] || blockContent?.[''] || ''] *)
Definition section_content (blockContent : option (gmap jsstring jsstring))
    (variant : jsstring) : value :=
  or_else (or_else (get_opt blockContent variant) (get_opt blockContent []))
    (VString []).

(** The callback of [variantsToGenerate.map]. *)
Definition block_section (blockName autoDescription : jsstring)
    (blockContent : option (gmap jsstring jsstring)) (variant : jsstring)
  : jsstring :=
  let capitalizedName := capitalize blockName in
  let variantName :=
    if truthy variant then capitalizedName ++ str " (" ++ variant ++ str ")"
    else capitalizedName in
  let classAttr := if truthy variant then str " " ++ variant else [] in
  let content := section_content blockContent variant in
  lines
    [ str "    <div>";
      strq "      <div class='library-metadata'>";
      str "        <div>";
      str "          <div>name</div>";
      str "          <div>" ++ variantName ++ str "</div>";
      str "        </div>";
      str "        <div>";
      str "          <div>description</div>";
      str "          <div>" ++ autoDescription ++ str "</div>";
      str "        </div>";
      str "      </div>";
      strq "      <div class='" ++ blockName ++ classAttr ++ strq "'>";
      spliced content ++ str "      </div>";
      str "    </div>" ].

Definition variantsToGenerate (variants : option (list jsstring))
  : list jsstring :=
  if has_variants variants then default [] variants else [[]].

(** [description || generateAutoDescription(blockName, structure, variants)] *)
Definition autoDescription (blockName : jsstring)
    (description : option jsstring) (variants : option (list jsstring))
    (structure : features) : jsstring :=
  match description with
  | Some d =>
      if truthy d then d
      else generateAutoDescription blockName structure variants
  | None => generateAutoDescription blockName structure variants
  end.

(** The array that [generateBlockTemplate] joins with line feeds. *)
Definition blockSections (blockName : jsstring)
    (description : option jsstring) (variants : option (list jsstring))
    (structure : features)
    (blockContent : option (gmap jsstring jsstring)) : list jsstring :=
  map (block_section blockName
         (autoDescription blockName description variants structure)
         blockContent)
    (variantsToGenerate variants).

Definition generateBlockTemplate (blockName : jsstring)
    (description : option jsstring) (variants : option (list jsstring))
    (structure : features)
    (blockContent : option (gmap jsstring jsstring)) : jsstring :=
  lines
    [ str "<body>";
      str "  <header></header>";
      str "  <main>";
      join nl (blockSections blockName description variants structure
                 blockContent);
      str "  </main>";
      str "  <footer></footer>";
      str "</body>" ].

End Template.

(** [toUpperCase] on ASCII text. *)
Definition ascii_toUpperCase (s : jsstring) : jsstring := map canonicalize s.

(** ** Documents of the admin service *)

Section Documents.

(** The collaborators that live in other modules of the server. *)
Record validation := Validation { valid : bool; error : jsstring }.

Variable validateBlockName : jsstring -> validation.
Variable buildLibraryPath : jsstring -> jsstring -> jsstring -> jsstring.
Variable buildContentUrl : jsstring -> jsstring -> jsstring -> jsstring.
Variable formatURL :
  jsstring -> jsstring -> jsstring -> jsstring -> jsstring -> jsstring.
Variable LIBRARY_TYPES_BLOCKS : jsstring.

(** What a request resolves to: a string, or some other value. *)
Inductive response :=
| RString (text : jsstring)
| ROther.

(** [daAdminRequest(url)]: the request of the admin service, with its
    answer or the error it throws. *)
Variable daAdminRequest : jsstring -> outcome response.

(** [JSON.parse] on a text that starts and ends with a double quote. *)
Variable JSON_parse : jsstring -> outcome response.

Record doc_check := DocCheck {
  exists_ : bool;
  path : jsstring;
  url : jsstring
}.

(** [error.message?.includes('404')] *)
Definition mentions_404 (e : js_error) : bool :=
  match message e with
  | Some msg => includes msg (str "404")
  | None => false
  end.

Definition checkBlockDocExists (org repo blockName baseFolder : jsstring)
  : outcome doc_check :=
  let validation := validateBlockName blockName in
  if negb (valid validation) then Thrown (new_Error (error validation))
  else
    let docPath := buildLibraryPath LIBRARY_TYPES_BLOCKS baseFolder blockName in
    let url := formatURL (str "source") org repo docPath (str "html") in
    match daAdminRequest url with
    | Returned _ =>
        Returned (DocCheck true docPath (buildContentUrl org repo docPath))
    | Thrown error =>
        if mentions_404 error then
          Returned (DocCheck false docPath (buildContentUrl org repo docPath))
        else Thrown error
    end.

Definition fetchSourceDocument (org repo sourcePath : jsstring)
  : outcome response :=
  let url := formatURL (str "source") org repo sourcePath (str "html") in
  result ← daAdminRequest url;
  match result with
  | RString text =>
      if startsWith text [dquote] && endsWith text [dquote]
      then JSON_parse text
      else Returned result
  | ROther => Returned result
  end.

(** The [sourcePaths] argument: absent, one path, or an array of paths. *)
Inductive source_paths :=
| NoPaths
| OnePath (p : jsstring)
| ManyPaths (ps : list jsstring).

Record extraction := Extraction_ {
  content : option (gmap jsstring jsstring);
  sourceUsed : option jsstring
}.

Definition nothing_found : extraction := Extraction_ None None.

(** The body of the [try] block for one candidate: the mapping to return,
    or [None] when the loop goes on to the next candidate.  A response
    that is not a string never reaches the assignment in
    [parseBlockInstances] (it has no [substring] method), so it yields no
    instance. *)
Definition try_candidate (org repo sourcePath blockName : jsstring)
  : option (gmap jsstring jsstring) :=
  match fetchSourceDocument org repo sourcePath with
  | Thrown _ => None
  | Returned ROther => None
  | Returned (RString html) =>
      let content := parseBlockInstances html blockName in
      if 0 <? size content then Some content else None
  end.

Fixpoint extract_loop (org repo : jsstring) (paths : list jsstring)
    (blockName : jsstring) : extraction :=
  match paths with
  | [] => nothing_found
  | sourcePath :: paths' =>
      match try_candidate org repo sourcePath blockName with
      | Some content => Extraction_ (Some content) (Some sourcePath)
      | None => extract_loop org repo paths' blockName
      end
  end.

Definition extractBlockContent (org repo : jsstring)
    (sourcePaths : source_paths) (blockName : jsstring) : extraction :=
  match sourcePaths with
  | NoPaths => nothing_found
  | OnePath p =>
      if truthy p then extract_loop org repo [p] blockName
      else nothing_found
  | ManyPaths ps => extract_loop org repo ps blockName
  end.

(** In the words of the specification: what a candidate page yields.  A
    failed fetch or parse yields nothing, and so does a page without any
    instance of the block. *)
Definition yields (org repo sourcePath blockName : jsstring)
  : option (gmap jsstring jsstring) :=
  match fetchSourceDocument org repo sourcePath with
  | Returned (RString html) =>
      if decide (parseBlockInstances html blockName = ∅) then None
      else Some (parseBlockInstances html blockName)
  | Returned ROther => None
  | Thrown _ => None
  end.

End Documents.

(** ** Content sources *)

Record github_args := GitHubArgs {
  org : jsstring;
  repo : jsstring;
  branch : option jsstring;
  blocksPath : option jsstring
}.

(** The arguments of a block tool that choose the content source. *)
Record source_args := SourceArgs {
  github : option github_args;
  useLocal : option bool;
  localBlocksPath : option jsstring
}.

(** What [detectGitRemote] recovers from the local repository. *)
Record git_metadata := GitMetadata {
  git_org : jsstring;
  git_repo : jsstring;
  remote : jsstring
}.

(** The root of a local source: a path, or the promise that
    [createBlockSource] passes on without awaiting it. *)
Inductive blocks_root :=
| AtPath (p : jsstring)
| AtPromise (pending : option jsstring).

Inductive block_source :=
| LocalSource (root : blocks_root)
| GitHubSource (org repo branch blocksPath : jsstring).

Inductive metadata :=
| MetaGitHub (g : github_args)
| MetaLocal (path : jsstring) (git : option git_metadata).

Record resolved := Resolved {
  r_source : block_source;
  r_metadata : metadata
}.

(** [x || d] on an optional string. *)
Definition or_default (x : option jsstring) (d : jsstring) : jsstring :=
  match x with
  | Some s => if truthy s then s else d
  | None => d
  end.

Definition flag_truthy (b : option bool) : bool := default false b.

Definition NO_SOURCE_SPECIFIED : jsstring :=
  lines [ str "No block source specified. Either:";
          str "1. Provide github: { org, repo } for remote source";
          str "2. Set useLocal: true for local blocks";
          str "3. Run from an EDS project directory (auto-detect)" ].

Section BlockSource.

(** The process and its file system. *)
Variable cwd : jsstring.
Variable resolve : jsstring -> jsstring -> jsstring.
(** [fs.access] and [fs.stat] succeed and the entry is a directory. *)
Variable isDirectory : jsstring -> bool.
(** The result of [detectGitRemote()]. *)
Variable detectGitRemote : option git_metadata.

(** [detectLocalBlocksDir()], awaited. *)
Definition detectLocalBlocksDir : option jsstring :=
  let blocksPath := resolve cwd (str "blocks") in
  if isDirectory blocksPath then Some blocksPath else None.

Definition createLocalSource (blocksPath : blocks_root) : block_source :=
  LocalSource blocksPath.

(** [createGitHubSource(org, repo, branch = 'main', blocksPath = 'blocks')];
    the client it builds is a collaborator. *)
Definition createGitHubSource (org repo : jsstring)
    (branch blocksPath : option jsstring) : block_source :=
  GitHubSource org repo (default (str "main") branch)
    (default (str "blocks") blocksPath).

Definition resolveBlockSource (args : source_args) : outcome resolved :=
  match github args with
  | Some g =>
      Returned
        (Resolved
           (createGitHubSource (org g) (repo g)
              (Some (or_default (branch g) (str "main")))
              (Some (or_default (blocksPath g) (str "blocks"))))
           (MetaGitHub g))
  | None =>
      if flag_truthy (useLocal args) then
        let blocksPath :=
          match localBlocksPath args with
          | Some p => if truthy p then Some p else detectLocalBlocksDir
          | None => detectLocalBlocksDir
          end in
        match blocksPath with
        | Some p =>
            if truthy p then
              Returned (Resolved (createLocalSource (AtPath p))
                          (MetaLocal p detectGitRemote))
            else Thrown (new_Error (str "Local blocks directory not found"))
        | None => Thrown (new_Error (str "Local blocks directory not found"))
        end
      else
        match detectLocalBlocksDir with
        | Some localPath =>
            if truthy localPath then
              Returned (Resolved (createLocalSource (AtPath localPath))
                          (MetaLocal localPath detectGitRemote))
            else Thrown (new_Error NO_SOURCE_SPECIFIED)
        | None => Thrown (new_Error NO_SOURCE_SPECIFIED)
        end
  end.

(** A root used as a condition: a promise is an object, hence truthy. *)
Definition root_truthy (r : blocks_root) : bool :=
  match r with
  | AtPath p => truthy p
  | AtPromise _ => true
  end.

(** [createBlockSource] calls [detectLocalBlocksDir()] without [await]. *)
Definition createBlockSource (config : source_args) : outcome block_source :=
  if flag_truthy (useLocal config)
     || content_truthy (localBlocksPath config) then
    let blocksPath :=
      match localBlocksPath config with
      | Some p => if truthy p then AtPath p else AtPromise detectLocalBlocksDir
      | None => AtPromise detectLocalBlocksDir
      end in
    if negb (root_truthy blocksPath)
    then Thrown (new_Error (str "No local blocks directory found"))
    else Returned (createLocalSource blocksPath)
  else
    match github config with
    | Some g =>
        Returned (createGitHubSource (org g) (repo g) (branch g) (blocksPath g))
    | None =>
        let localPath := AtPromise detectLocalBlocksDir in
        if root_truthy localPath then Returned (createLocalSource localPath)
        else
          Thrown
            (new_Error
               (str "No block source configured. Provide github config or run from an EDS project directory."))
    end.

End BlockSource.

(** ** The remote of the local repository *)

Definition slash : cu := 47%N.

Module Git.

Definition bracket : cu := 91%N.

(** The pattern of [gitConfig.match]: the header of the section of the
    remote named origin, any run without an opening bracket, the text
    [url], white space, an equals sign, white space, and group 1 holding a
    non-empty run of [.]. *)
Definition remoteRegex : regex :=
  Cat [ Lit (strq "[remote 'origin']"); Star (is_not bracket);
        Lit (str "url"); Star is_space; Char 61%N; Star is_space;
        Group (Plus is_dot) ].

(** A colon or a slash. *)
Definition is_separator (c : cu) : bool := (c =? 58)%N || (c =? slash)%N.

Definition no_slash (c : cu) : bool := is_not slash c.

Definition no_slash_dot (c : cu) : bool :=
  negb ((c =? slash)%N || (c =? dot_sign)%N).

(** The pattern of [url.match]: the text [github.com], a colon or a slash,
    group 1 holding a non-empty run without slash, a slash, and group 2
    holding a non-empty run without slash and without dot.  The matcher
    records one group, so the pattern is written twice, once with each of
    its groups marked; both find the same match. *)
Definition githubRegex_org : regex :=
  Cat [ Lit (str "github.com"); Class is_separator; Group (Plus no_slash);
        Char slash; Plus no_slash_dot ].

Definition githubRegex_repo : regex :=
  Cat [ Lit (str "github.com"); Class is_separator; Plus no_slash;
        Char slash; Group (Plus no_slash_dot) ].

(** [s.replace(/\.git$/, '')]: the text without a final [.git]. *)
Definition without_git_suffix (s : jsstring) : jsstring :=
  if endsWith s (str ".git") then take (length s - 4) s else s.

(** [detectGitRemote], on the outcome of reading [.git/config]. *)
Definition detectGitRemote (gitConfig : outcome jsstring)
  : option git_metadata :=
  match gitConfig with
  | Thrown _ => None
  | Returned gitConfig =>
      match exec false remoteRegex gitConfig 0 with
      | Some remoteMatch =>
          let url := trim (captured gitConfig remoteMatch) in
          match exec false githubRegex_org url 0,
                exec false githubRegex_repo url 0 with
          | Some match1, Some match2 =>
              Some {| git_org := captured url match1;
                      git_repo := without_git_suffix (captured url match2);
                      remote := url |}
          | _, _ => None
          end
      | None => None
      end
  end.

End Git.

(** ** The methods of a content source

    The objects that [createLocalSource] and [createGitHubSource] return,
    over the calls they make to the file system and to the GitHub client.
    Every method catches what its body throws. *)

(** An entry of [fs.readdir]. *)
Record dirent := Dirent {
  ent_name : jsstring;
  ent_isDirectory : bool
}.

(** An entry of [listDirectories()]. *)
Record directory := Directory {
  dir_name : jsstring;
  dir_type : jsstring
}.

(** An entry of the answer of [octokit.repos.getContent]. *)
Record gh_file := GhFile {
  gh_type : jsstring;
  gh_name : jsstring
}.

(** [response.data]: an array for a directory, one entry for a file. *)
Inductive gh_data :=
| GhArray (files : list gh_file)
| GhOne (file : gh_file).

(** [try { return await x } catch { return d }] *)
Definition or_caught {A : Type} (x : outcome A) (d : A) : A :=
  match x with
  | Returned a => a
  | Thrown _ => d
  end.

(** [name.endsWith('.js') || name.endsWith('.css')] *)
Definition script_or_stylesheet (name : jsstring) : bool :=
  endsWith name (str ".js") || endsWith name (str ".css").

(** A content source as [listBlocks] and [getBlockFiles] read it. *)
Record listed_source := ListedSource {
  contents : source;
  listDirectories : list directory
}.

Section SourceMethods.

(** [path.join], [fs.readFile(p, 'utf-8')], [fs.readdir] and [fs.access];
    [ghGetFileContent], [ghListDirectories] and [octokit.repos.getContent],
    each with the arguments owner, repository, path and branch. *)
Variable path_join : jsstring -> jsstring -> jsstring.
Variable readFile : jsstring -> outcome jsstring.
Variable readdir : jsstring -> outcome (list dirent).
Variable access : jsstring -> outcome unit.
Variable ghGetFileContent :
  jsstring -> jsstring -> jsstring -> jsstring -> outcome (option jsstring).
Variable ghListDirectories :
  jsstring -> jsstring -> jsstring -> jsstring -> outcome (list directory).
Variable getContent :
  jsstring -> jsstring -> jsstring -> jsstring -> outcome gh_data.

(** [source.getFileContent(path)].  A root that is a promise makes
    [path.join] throw its type error, which the method catches. *)
Definition source_getFileContent (s : block_source) (path : jsstring)
  : option jsstring :=
  match s with
  | LocalSource (AtPath blocksPath) =>
      match readFile (path_join blocksPath path) with
      | Returned text => Some text
      | Thrown _ => None
      end
  | LocalSource (AtPromise _) => None
  | GitHubSource org repo branch blocksPath =>
      or_caught (ghGetFileContent org repo (blocksPath ++ str "/" ++ path) branch)
        None
  end.

(** [source.listDirectories()] *)
Definition source_listDirectories (s : block_source) : list directory :=
  match s with
  | LocalSource (AtPath blocksPath) =>
      match readdir blocksPath with
      | Returned entries =>
          map (fun entry => Directory (ent_name entry) (str "dir"))
            (List.filter ent_isDirectory entries)
      | Thrown _ => []
      end
  | LocalSource (AtPromise _) => []
  | GitHubSource org repo branch blocksPath =>
      or_caught (ghListDirectories org repo blocksPath branch) []
  end.

(** [source.fileExists(path)] *)
Definition source_fileExists (s : block_source) (path : jsstring) : bool :=
  match s with
  | LocalSource (AtPath blocksPath) =>
      match access (path_join blocksPath path) with
      | Returned _ => true
      | Thrown _ => false
      end
  | LocalSource (AtPromise _) => false
  | GitHubSource org repo branch blocksPath =>
      match getContent org repo (blocksPath ++ str "/" ++ path) branch with
      | Returned _ => true
      | Thrown _ => false
      end
  end.

(** [source.listFiles(blockName)]; [fs.readdir] without options gives the
    names of the entries. *)
Definition source_listFiles (s : block_source) (blockName : jsstring)
  : list jsstring :=
  match s with
  | LocalSource (AtPath blocksPath) =>
      match readdir (path_join blocksPath blockName) with
      | Returned entries =>
          List.filter script_or_stylesheet (map ent_name entries)
      | Thrown _ => []
      end
  | LocalSource (AtPromise _) => []
  | GitHubSource org repo branch blocksPath =>
      match getContent org repo (blocksPath ++ str "/" ++ blockName) branch with
      | Returned data =>
          let files :=
            match data with
            | GhArray files => files
            | GhOne file => [file]
            end in
          map gh_name
            (List.filter
               (fun f => JsString.eqb (gh_type f) (str "file")
                         && script_or_stylesheet (gh_name f))
               files)
      | Thrown _ => []
      end
  end.

(** The source object, as the operations on blocks read it. *)
Definition methods (s : block_source) : listed_source :=
  ListedSource (Source (source_getFileContent s)) (source_listDirectories s).

End SourceMethods.

(** ** The files of a block *)

Definition listBlocks (src : listed_source) : list block_entry :=
  let directories := listDirectories src in
  map (fun dir => checkBlockFiles (contents src) (dir_name dir)) directories.

Definition readmeVariants : list jsstring :=
  [str "README.md"; str "readme.md"; str "README.MD"].

(** The loop of [tryGetReadme] over the names still to try. *)
Fixpoint first_readme (src : source) (blockName : jsstring)
    (names : list jsstring) : option jsstring :=
  match names with
  | [] => None
  | readme :: names' =>
      match getFileContent src (buildBlockFilePath blockName readme) with
      | Some content =>
          if truthy content then Some content
          else first_readme src blockName names'
      | None => first_readme src blockName names'
      end
  end.

Definition tryGetReadme (src : source) (blockName : jsstring)
  : option jsstring :=
  first_readme src blockName readmeVariants.

Record block_files := BlockFiles {
  f_blockName : jsstring;
  f_hasJS : bool;
  f_hasCSS : bool;
  f_hasReadme : bool;
  jsContent : option jsstring;
  cssContent : option jsstring;
  readmeContent : option jsstring
}.

Definition getBlockFiles (src : source) (blockName : jsstring) : block_files :=
  let jsContent :=
    getFileContent src (buildBlockFilePath blockName (blockName ++ str ".js")) in
  let cssContent :=
    getFileContent src (buildBlockFilePath blockName (blockName ++ str ".css")) in
  let readmeContent := tryGetReadme src blockName in
  {| f_blockName := blockName;
     f_hasJS := content_truthy jsContent;
     f_hasCSS := content_truthy cssContent;
     f_hasReadme := content_truthy readmeContent;
     jsContent := jsContent;
     cssContent := cssContent;
     readmeContent := readmeContent |}.

(** ** Writing the documentation of a block *)

Record created_doc := CreatedDoc {
  created : bool;
  c_path : jsstring;
  c_url : jsstring;
  c_error : option jsstring
}.

Section Authoring.

Variable validateBlockName : jsstring -> validation.
Variable buildLibraryPath : jsstring -> jsstring -> jsstring -> jsstring.
Variable buildContentUrl : jsstring -> jsstring -> jsstring -> jsstring.
Variable formatURL :
  jsstring -> jsstring -> jsstring -> jsstring -> jsstring -> jsstring.
Variable LIBRARY_TYPES_BLOCKS : jsstring.

(** The documents of the admin service, and [uploadHTML(url, html)], which
    changes them and returns or throws. *)
Variable documents : Type.
Variable uploadHTML :
  jsstring -> jsstring -> documents -> outcome unit * documents.

(** [createBlockDoc]: the outcome, and the documents it leaves. *)
Definition createBlockDoc (org repo blockName htmlContent baseFolder : jsstring)
    (docs : documents) : outcome created_doc * documents :=
  let validation := validateBlockName blockName in
  if negb (valid validation) then (Thrown (new_Error (error validation)), docs)
  else
    let docPath := buildLibraryPath LIBRARY_TYPES_BLOCKS baseFolder blockName in
    let url := formatURL (str "source") org repo docPath (str "html") in
    let '(uploaded, docs) := uploadHTML url htmlContent docs in
    (_ ← uploaded;
     mret {| created := true;
             c_path := docPath;
             c_url := buildContentUrl org repo docPath;
             c_error := None |},
     docs).

End Authoring.

(** ** The tools on blocks *)

Record listing := Listing {
  l_source : metadata;
  totalBlocks : nat;
  blocks : list block_entry
}.

Record template_args := TemplateArgs {
  t_blockName : jsstring;
  t_description : option jsstring;
  t_variants : option (list jsstring);
  t_structure : option features
}.

Record template_result := TemplateResult {
  tr_blockName : jsstring;
  template : jsstring;
  usedStructure : bool
}.

Section Tools.

Variable cwd : jsstring.
Variable resolve : jsstring -> jsstring -> jsstring.
Variable isDirectory : jsstring -> bool.
Variable git_remote : option git_metadata.
Variable path_join : jsstring -> jsstring -> jsstring.
Variable readFile : jsstring -> outcome jsstring.
Variable readdir : jsstring -> outcome (list dirent).
Variable ghGetFileContent :
  jsstring -> jsstring -> jsstring -> jsstring -> outcome (option jsstring).
Variable ghListDirectories :
  jsstring -> jsstring -> jsstring -> jsstring -> outcome (list directory).
Variable toUpperCase : jsstring -> jsstring.
Variable inherited_text : jsstring -> jsstring.

(** What the handlers get from [resolveBlockSource(args)]: the source
    object and the metadata. *)
Definition resolved_source (args : source_args)
  : outcome (listed_source * metadata) :=
  r ← resolveBlockSource cwd resolve isDirectory git_remote args;
  mret (methods path_join readFile readdir ghGetFileContent ghListDirectories
          (r_source r),
        r_metadata r).

(** The handler of [da_blocks_list]. *)
Definition da_blocks_list (args : source_args) : outcome listing :=
  '(source, metadata) ← resolved_source args;
  let blocks := listBlocks source in
  mret {| l_source := metadata;
          totalBlocks := length blocks;
          blocks := blocks |}.

(** The handler of [da_blocks_get_files]: the metadata, and the fields of
    the files spread beside it. *)
Definition da_blocks_get_files (args : source_args) (blockName : jsstring)
  : outcome (metadata * block_files) :=
  '(source, metadata) ← resolved_source args;
  mret (metadata, getBlockFiles (contents source) blockName).

(** The handler of [da_blocks_analyze]. *)
Definition da_blocks_analyze (args : source_args) (blockName : jsstring)
  : outcome (metadata * analysis) :=
  '(source, metadata) ← resolved_source args;
  mret (metadata, analyzeBlock (contents source) blockName).

(** The handler of [da_blocks_generate_template]: it passes four
    arguments, so [blockContent] takes its default, [null]. *)
Definition da_blocks_generate_template (args : template_args)
  : template_result :=
  let template :=
    generateBlockTemplate toUpperCase inherited_text (t_blockName args)
      (t_description args) (t_variants args)
      (default no_features (t_structure args)) None in
  {| tr_blockName := t_blockName args;
     template := template;
     usedStructure := bool_decide (is_Some (t_structure args)) |}.

End Tools.

(** ** Placeholders

    The path of the placeholders sheet, of
    [src/operations/placeholders.js]. *)

Definition getPlaceholdersPath (configPath : jsstring) : jsstring :=
  if negb (truthy configPath) || JsString.eqb configPath [] then
    str "/placeholders"
  else
    let cleanPath :=
      if startsWith configPath [slash] then slice configPath 1
      else configPath in
    str "/" ++ cleanPath ++ str "/placeholders".

(** * Definitions for the properties

    The notions the properties are stated with, worded after the
    specification, and the measures their proofs use. *)

(** [contains s p]: the text [p] occurs in [s]. *)
Definition contains (s p : jsstring) : Prop := ∃ pre post, s = pre ++ p ++ post.

(** Some class name contains one of the patterns. *)
Definition some_contains (classes pats : list jsstring) : Prop :=
  ∃ className pattern,
    className ∈ classes ∧ pattern ∈ pats ∧ contains className pattern.

(** The description in the words of the specification: which of images,
    headings and buttons are present, in that order. *)
Definition present_content (structure : features) : list jsstring :=
  (if hasImage structure then [str "images"] else [])
  ++ (if hasHeading structure then [str "headings"] else [])
  ++ (if hasButton structure then [str "buttons"] else []).

(** The lead, the [with] part and the [Variants:] part, each only when it
    applies. *)
Definition description_parts (structure : features)
    (variants : option (list jsstring)) : list jsstring :=
  (if hasMultipleItems structure then [str "Multi-item layout"] else [])
  ++ match present_content structure with
     | [] => []
     | present => [str "with " ++ join (str ", ") present]
     end
  ++ match variants with
     | Some (v :: vs) => [str "Variants: " ++ join (str ", ") (v :: vs)]
     | _ => []
     end.

Definition described (toUpperCase : jsstring → jsstring) (blockName : jsstring)
    (structure : features) (variants : option (list jsstring)) : jsstring :=
  match description_parts structure variants with
  | [] => toUpperCase (take 1 blockName) ++ drop 1 blockName ++ str " block"
  | parts => join (str " ") parts
  end.

Definition all_features : features := Features true true true true false.

(** The source [src] with the file at [path] taken away. *)
Definition without (src : source) (path : jsstring) : source :=
  Source (λ p, if JsString.eqb p path then None else getFileContent src p).

Definition js_path (blockName : jsstring) : jsstring :=
  buildBlockFilePath blockName (blockName ++ str ".js").
Definition css_path (blockName : jsstring) : jsstring :=
  buildBlockFilePath blockName (blockName ++ str ".css").

(** A class that belongs to the block itself: its name, or its name
    followed by a hyphen and more. *)
Definition block_class (blockName cls : jsstring) : Prop :=
  cls = blockName ∨ ∃ more, cls = blockName ++ [hyphen] ++ more.

(** ** Patterns and their matches *)

(** The code unit before the input, once the text [l] has been read. *)
Definition prev_after (pv : option cu) (l : jsstring) : option cu :=
  match last l with
  | Some c => Some c
  | None => pv
  end.

(** The index of the first [c] in [s]. *)
Fixpoint index_of (c : cu) (s : jsstring) : option nat :=
  match s with
  | [] => None
  | d :: s' => if (d =? c)%N then Some 0 else S <$> index_of c s'
  end.

(** The least number of code units a match of the pattern spans. *)
Fixpoint min_len (r : regex) : nat :=
  match r with
  | Empty | Star _ | Opt _ | WordBoundary => 0
  | Char _ | Class _ | PlusLazy _ => 1
  | Seq r1 r2 => min_len r1 + min_len r2
  | Group r1 => min_len r1
  end.

(** [st'] is [st] after reading [n] code units of the input. *)
Definition reads (n : nat) (st st' : mstate) : Prop :=
  rest st' = drop n (rest st) ∧ pos st' = pos st + n ∧ n ≤ length (rest st).

(** ** What a match is

    The declarative reading of a pattern: [denotes ic r pv w post] says that
    the text [w], found after the code unit [pv] and before the text [post],
    is a match of [r]. *)

Fixpoint denotes (ic : bool) (r : regex) (pv : option cu) (w post : jsstring)
  : Prop :=
  match r with
  | Empty => w = []
  | Char c => ∃ d, w = [d] ∧ char_eq ic c d = true
  | Class p => ∃ d, w = [d] ∧ p d = true
  | Seq r1 r2 =>
      ∃ w1 w2, w = w1 ++ w2
               ∧ denotes ic r1 pv w1 (w2 ++ post)
               ∧ denotes ic r2 (prev_after pv w1) w2 post
  | Star p => Forall (λ c, p c = true) w
  | PlusLazy p => w ≠ [] ∧ Forall (λ c, p c = true) w
  | Opt r1 => w = [] ∨ denotes ic r1 pv w post
  | Group r1 => denotes ic r1 pv w post
  | WordBoundary =>
      w = [] ∧ xorb (word_opt pv) (word_opt (head post)) = true
  end.

(** [st'] is [st] after reading the text [w]. *)
Definition reads_text (w : jsstring) (st st' : mstate) : Prop :=
  rest st = w ++ rest st'
  ∧ pos st' = pos st + length w
  ∧ prev st' = prev_after (prev st) w.

(** Equal up to the case of ASCII letters. *)
Definition same_ci (w l : jsstring) : Prop :=
  map canonicalize w = map canonicalize l.

(** The attribute text of an opening tag of the block: a [class=] and a
    double quote somewhere before the first [>], then, before the next
    double quote, the block name between two word boundaries. *)
Definition names_block (blockName attributes : jsstring) : Prop :=
  ∃ a1 cls v1 name v2 a2,
    attributes = a1 ++ cls ++ v1 ++ name ++ v2 ++ dquote :: a2
    ∧ same_ci cls (strq "class='")
    ∧ same_ci name blockName
    ∧ Forall (λ c, c ≠ gt_sign) a1 ∧ Forall (λ c, c ≠ gt_sign) a2
    ∧ Forall (λ c, c ≠ dquote) v1 ∧ Forall (λ c, c ≠ dquote) v2
    ∧ xorb (word_opt (last (cls ++ v1)))
        (word_opt (head (name ++ v2 ++ [dquote]))) = true
    ∧ xorb (word_opt (last (cls ++ v1 ++ name)))
        (word_opt (head (v2 ++ [dquote]))) = true.

(** ** Balanced tags, in the words of the specification *)

Definition close_tag (s : jsstring) : bool := startsWith s (str "</div>").

(** The length of the opening tag the text starts with: [<div], and all
    that follows up to the first [>]. *)
Definition open_tag (s : jsstring) : option nat :=
  if startsWith s (str "<div")
  then (λ n, 4 + S n) <$> index_of gt_sign (drop 4 s)
  else None.

(** The document from index [i] on is read as a flat stream of opening and
    closing tags; [skip] code units belong to the tag just read.  The depth
    goes up at an opening tag and down at a closing tag; the result is the
    index of the closing tag that takes the depth from one to zero. *)
Fixpoint balanced_close (s : jsstring) (i skip depth : nat) : option nat :=
  match s with
  | [] => None
  | _ :: s' =>
      match skip with
      | S skip' => balanced_close s' (S i) skip' depth
      | O =>
          if close_tag s then
            if depth =? 1 then Some i
            else balanced_close s' (S i) 5 (depth - 1)
          else
            match open_tag s with
            | Some len => balanced_close s' (S i) (len - 1) (S depth)
            | None => balanced_close s' (S i) 0 depth
            end
      end
  end.

(** The next closing tag and the next opening tag, by their indices. *)
Fixpoint next_close (s : jsstring) (i : nat) : option nat :=
  if close_tag s then Some i
  else match s with
       | [] => None
       | _ :: s' => next_close s' (S i)
       end.

Fixpoint next_open (s : jsstring) (i : nat) : option (nat * nat) :=
  match open_tag s with
  | Some len => Some (i, len)
  | None =>
      match s with
      | [] => None
      | _ :: s' => next_open s' (S i)
      end
  end.

(** ** Stylesheets *)

Definition no_dot (s : jsstring) : Prop := Forall (λ c, c ≠ dot_sign) s.

(** The text is [.B], [.B.x] and [.B.y], with [pre], [g1], [g2] and [g3]
    around them. *)
Definition three_selectors (B x y pre g1 g2 g3 : jsstring) : jsstring :=
  pre ++ dot_sign :: B ++ g1
      ++ dot_sign :: B ++ dot_sign :: x ++ g2
      ++ dot_sign :: B ++ dot_sign :: y ++ g3.

(** Text between two selectors: no dot, and no word character right after
    the selector. *)
Definition gap (g : jsstring) : Prop :=
  no_dot g ∧ word_opt (head g) = false.

(** ** White space and mentions *)

Definition spaces (s : jsstring) : Prop := Forall (λ c, is_space c = true) s.

Definition no_space (s : jsstring) : Prop := Forall (λ c, is_space c = false) s.

(** No white space at either end. *)
Definition trimmed (s : jsstring) : Prop :=
  (∀ c, head s = Some c → is_space c = false)
  ∧ (∀ c, last s = Some c → is_space c = false).

(** The text [name] occurs in [s], up to the case of ASCII letters. *)
Definition mentions (s name : jsstring) : Prop :=
  ∃ pre w post, s = pre ++ w ++ post ∧ same_ci w name.

(** ** Patterns with one group *)

(** The pattern has no group of its own. *)
Fixpoint group_free (r : regex) : bool :=
  match r with
  | Group _ => false
  | Seq r1 r2 => group_free r1 && group_free r2
  | Opt r1 => group_free r1
  | _ => true
  end.

(** Every flag that is set in [f] is set in [f']. *)
Definition flags_le (f f' : features) : Prop :=
  (hasImage f = true → hasImage f' = true)
  ∧ (hasHeading f = true → hasHeading f' = true)
  ∧ (hasButton f = true → hasButton f' = true)
  ∧ (hasMultipleItems f = true → hasMultipleItems f' = true)
  ∧ (isBEM f = true → isBEM f' = true).

(** The flags set in [f] or in [f']. *)
Definition flags_or (f f' : features) : features := {|
  hasImage := hasImage f || hasImage f';
  hasHeading := hasHeading f || hasHeading f';
  hasButton := hasButton f || hasButton f';
  hasMultipleItems := hasMultipleItems f || hasMultipleItems f';
  isBEM := isBEM f || isBEM f'
|}.

(** ** Files *)

Definition file_path (blockName fileName : jsstring) : jsstring :=
  blockName ++ str "/" ++ fileName.

(** The file [fileName] of the block is there and is not empty. *)
Definition has_text (src : source) (blockName fileName : jsstring) : Prop :=
  ∃ c text,
    getFileContent src (file_path blockName fileName) = Some (c :: text).

(** ** Folders of placeholders *)

(** The path without one leading slash. *)
Definition without_slash (p : jsstring) : jsstring :=
  match p with
  | c :: p' => if (c =? 47)%N then p' else p
  | [] => []
  end.

(** ** Patterns up to their groups *)

(** The pattern without its groups. *)
Fixpoint erase (r : regex) : regex :=
  match r with
  | Group r1 => erase r1
  | Seq r1 r2 => Seq (erase r1) (erase r2)
  | Opt r1 => Opt (erase r1)
  | _ => r
  end.

(** Two states of the matcher at the same place of the input. *)
Definition same_place (st st' : mstate) : Prop :=
  rest st = rest st' ∧ pos st = pos st' ∧ prev st = prev st'.

Definition same_outcome (o o' : option mstate) : Prop :=
  match o, o' with
  | Some st, Some st' => same_place st st'
  | None, None => True
  | _, _ => False
  end.

(** Two searches that find the same span, or both nothing. *)
Definition same_span (o o' : option rmatch) : Prop :=
  match o, o' with
  | Some m, Some m' => index m = index m' ∧ stop m = stop m'
  | None, None => True
  | _, _ => False
  end.

(** ** Documents around an instance *)

Definition lt_sign : cu := 60%N.
Definition equals_sign : cu := 61%N.

(** A block name as it is written into a class attribute: letters, digits,
    underscores and hyphens, with a word character at both ends. *)
Definition plain_name (blockName : jsstring) : Prop :=
  Forall (λ c, is_class_char c = true) blockName
  ∧ word_opt (head blockName) = true
  ∧ word_opt (last blockName) = true.

(** A variant beside it: none, or a class token of the same characters
    that is not a class of the block and not a name that objects
    inherit. *)
Definition plain_variant (blockName v : jsstring) : Prop :=
  Forall (λ c, is_class_char c = true) v
  ∧ ¬ block_class blockName v
  ∧ inherited v = false.

(** The opening tag of an instance, as the template generator writes it. *)
Definition instance_tag (blockName v : jsstring) : jsstring :=
  strq "<div class='" ++ blockName
    ++ (if truthy v then str " " ++ v else []) ++ strq "'>".

(** The text starts with [<div], in any case. *)
Definition opens_div (t : jsstring) : bool :=
  startsWith (map canonicalize t) (str "<DIV").

(** The attribute text of a div tag that cannot name the block: it holds no
    double quote, or it ends with its only quoted value, which does not
    mention the block. *)
Definition calm (blockName a : jsstring) : Prop :=
  dquote ∉ a
  ∨ ∃ P V, a = P ++ dquote :: V ++ [dquote]
           ∧ (dquote ∉ P) ∧ (dquote ∉ V) ∧ (equals_sign ∉ V)
           ∧ ¬ mentions V blockName.

(** A text made of code units other than [<] and of tags, none of which
    is an opening tag of the block. *)
Inductive foreign (blockName : jsstring) : jsstring → Prop :=
| foreign_nil : foreign blockName []
| foreign_char c s :
    c ≠ lt_sign → foreign blockName s → foreign blockName (c :: s)
| foreign_tag b s :
    gt_sign ∉ b → lt_sign ∉ b → opens_div (lt_sign :: b ++ [gt_sign]) = false →
    foreign blockName s → foreign blockName (lt_sign :: b ++ gt_sign :: s)
| foreign_div d a s :
    same_ci d (str "div") → gt_sign ∉ a → lt_sign ∉ a → calm blockName a →
    foreign blockName s →
    foreign blockName (lt_sign :: d ++ a ++ gt_sign :: s).

(** A text in which every opening div tag has its closing tag. *)
Inductive balanced : jsstring → Prop :=
| balanced_nil : balanced []
| balanced_char c s : c ≠ lt_sign → balanced s → balanced (c :: s)
| balanced_tag b s :
    gt_sign ∉ b → lt_sign ∉ b → startsWith (b ++ [gt_sign]) (str "div") = false →
    b ≠ str "/div" → balanced s → balanced (lt_sign :: b ++ gt_sign :: s)
| balanced_div a inner s :
    gt_sign ∉ a → lt_sign ∉ a → balanced inner → balanced s →
    balanced (str "<div" ++ a ++ gt_sign :: inner ++ str "</div>" ++ s).

(** The value of the class attribute of an instance tag. *)
Definition class_value (blockName v : jsstring) : jsstring :=
  blockName ++ (if truthy v then str " " ++ v else []).

(** ** The text of a template around its instance *)

(** The template up to the opening tag of the block, for a template with
    one section. *)
Definition template_head (name description : jsstring) : jsstring :=
  lines
    [ str "<body>";
      str "  <header></header>";
      str "  <main>";
      str "    <div>";
      strq "      <div class='library-metadata'>";
      str "        <div>";
      str "          <div>name</div>";
      str "          <div>" ++ name ++ str "</div>";
      str "        </div>";
      str "        <div>";
      str "          <div>description</div>";
      str "          <div>" ++ description ++ str "</div>";
      str "        </div>";
      str "      </div>";
      str "      " ].

(** The template from the closing tag of the block on. *)
Definition template_tail : jsstring :=
  lines
    [ str "      </div>";
      str "    </div>";
      str "  </main>";
      str "  <footer></footer>";
      str "</body>" ].

(** The content of the base variant in the mapping handed to the template
    generator; none when there is no mapping or no such entry. *)
Definition base_content (blockContent : option (gmap jsstring jsstring))
  : jsstring :=
  match blockContent with
  | Some own => default [] (own !! [])
  | None => []
  end.

(** ** The text of a section around its instance *)

(** A section up to the opening tag of the block. *)
Definition section_head (name description : jsstring) : jsstring :=
  lines
    [ str "    <div>";
      strq "      <div class='library-metadata'>";
      str "        <div>";
      str "          <div>name</div>";
      str "          <div>" ++ name ++ str "</div>";
      str "        </div>";
      str "        <div>";
      str "          <div>description</div>";
      str "          <div>" ++ description ++ str "</div>";
      str "        </div>";
      str "      </div>";
      str "      " ].

(** A section from the closing tag of the block on. *)
Definition section_tail : jsstring :=
  lines [ str "      </div>"; str "    </div>" ].

(** The name in the metadata table of the section of a variant. *)
Definition section_name (capitalizedName v : jsstring) : jsstring :=
  if truthy v then capitalizedName ++ str " (" ++ v ++ str ")"
  else capitalizedName.

(** The content of a variant in the mapping handed to the template
    generator: its own entry, when it has one that is not empty, and the
    content of the base variant otherwise. *)
Definition variant_content (blockContent : option (gmap jsstring jsstring))
    (v : jsstring) : jsstring :=
  match blockContent with
  | Some own =>
      match own !! v with
      | Some (c :: s) => c :: s
      | _ => default [] (own !! [])
      end
  | None => []
  end.

(** One more instance, of content [content v] under the variant [v], for
    the mapping under construction: a variant that is there with content
    keeps it. *)
Definition recorded (content : jsstring → jsstring)
    (blockInstances : gmap jsstring jsstring) (v : jsstring)
  : gmap jsstring jsstring :=
  if truthy (default [] (blockInstances !! v)) then blockInstances
  else <[ v := trim (content v) ]> blockInstances.

(** The name of a script or a stylesheet. *)
Definition script_or_stylesheet_name (name : jsstring) : Prop :=
  (∃ stem, name = stem ++ str ".js") ∨ (∃ stem, name = stem ++ str ".css").

(** * Properties *)

(** ** Strings *)

Lemma eqb_spec (s t : jsstring) : JsString.eqb s t = true ↔ s = t.
Proof.
  revert t. induction s as [|c s IH]; intros [|d t]; simpl; try easy.
  rewrite andb_true_iff, N.eqb_eq, IH. split.
  - intros [-> ->]. reflexivity.
  - intros [= -> ->]. easy.
Qed.

Lemma eqb_refl (s : jsstring) : JsString.eqb s s = true.
Proof. by apply eqb_spec. Qed.

Lemma eqb_neq (s t : jsstring) : JsString.eqb s t = false ↔ s ≠ t.
Proof.
  rewrite <- eqb_spec. destruct (JsString.eqb s t); split; congruence.
Qed.

Lemma startsWith_spec (s p : jsstring) :
  startsWith s p = true ↔ ∃ post, s = p ++ post.
Proof.
  revert s. induction p as [|d p IH]; intros s; simpl.
  - split; [intros _; by exists s | reflexivity].
  - destruct s as [|c s].
    + split; [done | intros [post [=]]].
    + rewrite andb_true_iff, N.eqb_eq, IH. split.
      * intros [-> [post ->]]. by exists post.
      * intros [post [= -> ->]]. split; [done | by exists post].
Qed.

Lemma startsWith_app (p post : jsstring) : startsWith (p ++ post) p = true.
Proof. apply startsWith_spec. by exists post. Qed.

Lemma includes_spec (s p : jsstring) : includes s p = true ↔ contains s p.
Proof.
  unfold contains. induction s as [|c s IH]; simpl.
  - rewrite orb_false_r, startsWith_spec. split.
    + intros [post ->]. by exists [], post.
    + intros [pre [post E]]. destruct pre; [by exists post | done].
  - rewrite orb_true_iff, startsWith_spec, IH. split.
    + intros [[post ->] | [pre [post ->]]].
      * by exists [], post.
      * by exists (c :: pre), post.
    + intros [[|c' pre] [post E]].
      * left. by exists post.
      * right. injection E as -> ->. by exists pre, post.
Qed.

Lemma substring_app (before x after : jsstring) :
  substring (before ++ x ++ after) (length before) (length before + length x)
  = x.
Proof.
  unfold substring. rewrite drop_app_length.
  replace (length before + length x - length before) with (length x) by lia.
  by rewrite take_app_length.
Qed.

Lemma existsb_elem_of {A : Type} (f : A → bool) (l : list A) :
  existsb f l = true ↔ ∃ x, x ∈ l ∧ f x = true.
Proof.
  rewrite existsb_exists. split; intros [x [H1 H2]]; exists x;
    (split; [by apply list_elem_of_In | done]).
Qed.

(** A test by [some] only sees which elements the array has. *)
Lemma existsb_same_elements {A : Type} (f : A → bool) (l l' : list A) :
  (∀ x, x ∈ l ↔ x ∈ l') → existsb f l = existsb f l'.
Proof.
  intros H. apply eq_true_iff_eq. rewrite !existsb_elem_of.
  split; intros [x [Hx Hf]]; exists x; (split; [by apply H | done]).
Qed.

(** Right-nest a concatenation. *)
Ltac right_nest :=
  repeat (progress (rewrite <- ?app_assoc, <- ?app_comm_cons)).

Ltac lengths :=
  repeat (progress (rewrite ?length_app; cbn [length])); lia.

Ltac members :=
  intros ?; rewrite ?elem_of_cons, ?elem_of_nil; intuition congruence.

(** ** The matcher *)

Lemma reads_refl (st : mstate) : reads 0 st st.
Proof. unfold reads. rewrite drop_0. split; [done | lia]. Qed.

Lemma reads_trans (n m : nat) (st1 st2 st3 : mstate) :
  reads n st1 st2 → reads m st2 st3 → reads (n + m) st1 st3.
Proof.
  unfold reads. intros (E1 & P1 & L1) (E2 & P2 & L2).
  rewrite E2, E1, drop_drop. rewrite E1, length_drop in L2.
  split; [done | lia].
Qed.

Lemma one_reads (p : cu → bool) (k : mstate → option mstate) (st out : mstate) :
  one p k st = Some out →
  ∃ st', reads 1 st st' ∧ k st' = Some out.
Proof.
  unfold one. destruct st as [[|c s] i pv cp]; simpl; [done|].
  destruct (p c); [|done]. intros H. eexists. split; [|exact H].
  unfold reads. simpl. rewrite drop_0. split; [done | lia].
Qed.

Lemma greedy_reads (p : cu → bool) (k : mstate → option mstate)
    (s : jsstring) (i : nat) (pv : option cu) (cp : option (nat * nat))
    (out : mstate) :
  greedy p k s i pv cp = Some out →
  ∃ n st', reads n (MState s i pv cp) st' ∧ k st' = Some out.
Proof.
  revert i pv. induction s as [|c s IH]; intros i pv; simpl.
  - intros H. exists 0. eexists. split; [apply reads_refl | exact H].
  - destruct (p c).
    + destruct (greedy p k s (S i) (Some c) cp) eqn:E.
      * intros [= ->]. destruct (IH _ _ E) as (n & st' & (E1 & P1 & L1) & Hk).
        exists (S n), st'. split; [|done]. unfold reads in *. simpl in *.
        split; [done | lia].
      * intros H. exists 0. eexists. split; [apply reads_refl | exact H].
    + intros H. exists 0. eexists. split; [apply reads_refl | exact H].
Qed.

Lemma lazy_reads (p : cu → bool) (k : mstate → option mstate)
    (s : jsstring) (i : nat) (pv : option cu) (cp : option (nat * nat))
    (out : mstate) :
  lazy p k s i pv cp = Some out →
  ∃ n st', reads n (MState s i pv cp) st' ∧ k st' = Some out.
Proof.
  revert i pv. induction s as [|c s IH]; intros i pv; simpl.
  - destruct (k (MState [] i pv cp)) eqn:E; [|done].
    intros [= ->]. exists 0. eexists. split; [apply reads_refl | exact E].
  - destruct (k (MState (c :: s) i pv cp)) eqn:E.
    + intros [= ->]. exists 0. eexists. split; [apply reads_refl | exact E].
    + destruct (p c); [|done]. intros H.
      destruct (IH _ _ H) as (n & st' & (E1 & P1 & L1) & Hk).
      exists (S n), st'. split; [|done]. unfold reads in *. simpl in *.
      split; [done | lia].
Qed.

(** A successful run hands to its continuation a state further in the
    input, by at least the least length of the pattern. *)
Lemma run_reads (ic : bool) (r : regex) (k : mstate → option mstate)
    (st out : mstate) :
  run ic r k st = Some out →
  ∃ n st', reads n st st' ∧ min_len r ≤ n ∧ k st' = Some out.
Proof.
  revert k st. induction r as [|c|p|r1 IH1 r2 IH2|p|p|r IH|r IH|];
    intros k st; simpl.
  - intros H. exists 0, st. split; [apply reads_refl | done].
  - intros H. apply one_reads in H as (st' & Hr & Hk). by exists 1, st'.
  - intros H. apply one_reads in H as (st' & Hr & Hk). by exists 1, st'.
  - intros H. apply IH1 in H as (n1 & st1 & Hr1 & Hn1 & H).
    apply IH2 in H as (n2 & st2 & Hr2 & Hn2 & H).
    exists (n1 + n2), st2. split; [by eapply reads_trans|]. split; [lia | done].
  - intros H. apply greedy_reads in H as (n & st' & Hr & Hk).
    exists n, st'. destruct st. split; [done|]. split; [lia | done].
  - intros H. apply one_reads in H as (st1 & Hr1 & H).
    apply lazy_reads in H as (n & st' & Hr & Hk).
    exists (1 + n), st'. split; [|split; [lia | done]].
    eapply reads_trans; [exact Hr1|]. by destruct st1.
  - destruct (run ic r k st) eqn:E.
    + intros [= ->]. apply IH in E as (n & st' & Hr & _ & Hk).
      exists n, st'. split; [done|]. split; [lia | done].
    + intros H. exists 0, st. split; [apply reads_refl | done].
  - intros H. apply IH in H as (n & st' & Hr & Hn & Hk).
    eexists n, _. split; [|split; [exact Hn | exact Hk]].
    unfold reads in *. simpl. done.
  - destruct (xorb _ _); [|done]. intros H.
    exists 0, st. split; [apply reads_refl | done].
Qed.

(** Where the leftmost match lies. *)
Lemma search_bounds (ic : bool) (r : regex) (s : jsstring) (i : nat)
    (pv : option cu) (m : rmatch) :
  search ic r s i pv = Some m →
  i ≤ index m ∧ index m + min_len r ≤ stop m ∧ stop m ≤ i + length s.
Proof.
  revert i pv. induction s as [|c s IH]; intros i pv; simpl.
  - destruct (run ic r Some (MState [] i pv None)) eqn:E; [|done].
    intros [= <-]. simpl.
    apply run_reads in E as (n & st' & (_ & P & L) & Hn & [= ->]).
    simpl in *. lia.
  - destruct (run ic r Some (MState (c :: s) i pv None)) eqn:E.
    + intros [= <-]. simpl.
      apply run_reads in E as (n & st' & (_ & P & L) & Hn & [= ->]).
      simpl in *. lia.
    + intros H. apply IH in H. lia.
Qed.

Lemma exec_search (ic : bool) (r : regex) (html : jsstring) (pos : nat) :
  pos ≤ length html →
  exec ic r html pos
  = search ic r (drop pos html) pos (last (take pos html)).
Proof. intros H. unfold exec. by destruct (decide _). Qed.

Lemma exec_bounds (ic : bool) (r : regex) (subject : jsstring)
    (lastIndex : nat) (m : rmatch) :
  exec ic r subject lastIndex = Some m →
  lastIndex ≤ index m ∧ index m + min_len r ≤ stop m
  ∧ stop m ≤ length subject.
Proof.
  unfold exec. destruct (decide _) as [Hle|]; [|done].
  intros H. apply search_bounds in H. rewrite length_drop in H. lia.
Qed.

Lemma matched_length (ic : bool) (r : regex) (subject : jsstring)
    (lastIndex : nat) (m : rmatch) :
  exec ic r subject lastIndex = Some m →
  index m + length (matched subject m) = stop m.
Proof.
  intros H. apply exec_bounds in H. unfold matched, substring.
  rewrite length_take, length_drop. lia.
Qed.

Lemma matchAll_from_out (fuel : nat) (ic : bool) (r : regex)
    (subject : jsstring) (lastIndex : nat) :
  length subject < lastIndex →
  matchAll_from fuel ic r subject lastIndex = [].
Proof.
  intros Hlt. destruct fuel as [|fuel]; [done|]. simpl. unfold exec.
  destruct (decide _); [lia | done].
Qed.

(** Every step of [matchAll] moves [lastIndex] forward, so the list of
    matches is complete: more fuel gives the same list. *)
Lemma matchAll_from_fuel (fuel fuel' : nat) (ic : bool) (r : regex)
    (subject : jsstring) (lastIndex : nat) :
  S (length subject) - lastIndex ≤ fuel →
  S (length subject) - lastIndex ≤ fuel' →
  matchAll_from fuel ic r subject lastIndex
  = matchAll_from fuel' ic r subject lastIndex.
Proof.
  revert fuel' lastIndex.
  induction fuel as [|fuel IH]; intros fuel' lastIndex H H'.
  - by rewrite !matchAll_from_out by lia.
  - destruct fuel' as [|fuel']; [by rewrite !matchAll_from_out by lia|].
    simpl. destruct (exec ic r subject lastIndex) as [m|] eqn:E; [|done].
    apply exec_bounds in E as (H1 & H2 & H3). f_equal.
    set (next := if decide (stop m = index m) then S (stop m) else stop m).
    assert (lastIndex < next)
      by (unfold next; destruct (decide (stop m = index m)); lia).
    apply IH; lia.
Qed.

Lemma matchAll_complete (fuel : nat) (ic : bool) (r : regex)
    (subject : jsstring) :
  length subject < fuel →
  matchAll_from fuel ic r subject 0 = matchAll ic r subject.
Proof. intros H. apply matchAll_from_fuel; lia. Qed.

Lemma run_Seq (ic : bool) (r1 r2 : regex) (k : mstate → option mstate)
    (st : mstate) :
  run ic (Seq r1 r2) k st = run ic r1 (run ic r2 k) st.
Proof. reflexivity. Qed.

(** A literal, case-sensitively: the input starts with it. *)
Lemma run_Lit (l : jsstring) (k : mstate → option mstate) (st : mstate) :
  run false (Lit l) k st =
  if startsWith (rest st) l
  then k (MState (drop (length l) (rest st)) (pos st + length l)
            (prev_after (prev st) l) (cap st))
  else None.
Proof.
  revert st. induction l as [|c l IH]; intros [s i pv cp]; simpl.
  - by rewrite Nat.add_0_r.
  - unfold one. simpl. destruct s as [|d s]; [done|].
    unfold char_eq. rewrite (N.eqb_sym c d). destruct (d =? c)%N eqn:E; [|done].
    rewrite IH. simpl. destruct (startsWith s l); [|done].
    f_equal. f_equal; [lia|]. unfold prev_after. rewrite last_cons.
    apply N.eqb_eq in E as ->. by destruct (last l).
Qed.

(** A greedy run of code units other than [c], followed by [c]: the run
    stops at the first [c]. *)
Lemma greedy_until (c : cu) (k kc : mstate → option mstate) (s : jsstring)
    (i : nat) (pv : option cu) (cp : option (nat * nat)) :
  (∀ st, kc st = one (char_eq false c) k st) →
  greedy (is_not c) kc s i pv cp =
  match index_of c s with
  | Some n => k (MState (drop (S n) s) (i + S n) (Some c) cp)
  | None => None
  end.
Proof.
  intros Hkc. revert i pv.
  induction s as [|d s IH]; intros i pv; simpl; rewrite ?Hkc; [done|].
  unfold is_not, one, char_eq. simpl. rewrite (N.eqb_sym c d).
  destruct (d =? c)%N eqn:E; simpl.
  - apply N.eqb_eq in E as ->. rewrite drop_0. do 2 f_equal. lia.
  - rewrite IH. destruct (index_of c s) as [n|]; simpl; [|done].
    replace (i + S (S n)) with (S (i + S n)) by lia.
    by destruct (k _).
Qed.

(** A greedy run takes all of [w] when the match can be completed after
    it. *)
Lemma greedy_app (p : cu → bool) (k : mstate → option mstate)
    (w post : jsstring) (i : nat) (pv : option cu) (cp : option (nat * nat))
    (out : mstate) :
  Forall (λ c, p c = true) w →
  greedy p k post (i + length w) (prev_after pv w) cp = Some out →
  greedy p k (w ++ post) i pv cp = Some out.
Proof.
  intros Hw. revert i pv. induction Hw as [|c w Hc Hw IH]; intros i pv H.
  - simpl in *. by rewrite Nat.add_0_r in H.
  - simpl. rewrite Hc. rewrite (IH (S i) (Some c)); [done|].
    rewrite <- H. f_equal; [simpl; lia|].
    unfold prev_after. rewrite last_cons. by destruct (last w).
Qed.

Lemma greedy_stop (p : cu → bool) (k : mstate → option mstate)
    (post : jsstring) (i : nat) (pv : option cu) (cp : option (nat * nat)) :
  match head post with Some c => p c | None => false end = false →
  greedy p k post i pv cp = k (MState post i pv cp).
Proof. destruct post as [|c post]; simpl; [done|]. by intros ->. Qed.

Lemma rmatch_eq (a b c d a' b' c' d' : nat) :
  a = a' → b = b' → c = c' → d = d' →
  Some (RMatch a b (Some (c, d))) = Some (RMatch a' b' (Some (c', d'))).
Proof. by intros -> -> -> ->. Qed.

Lemma prev_after_nil (pv : option cu) : prev_after pv [] = pv.
Proof. reflexivity. Qed.

Lemma prev_after_cons (pv : option cu) (c : cu) (w : jsstring) :
  prev_after pv (c :: w) = prev_after (Some c) w.
Proof. unfold prev_after. rewrite last_cons. by destruct (last w). Qed.

Lemma prev_after_app (pv : option cu) (w1 w2 : jsstring) :
  prev_after pv (w1 ++ w2) = prev_after (prev_after pv w1) w2.
Proof.
  revert pv. induction w1 as [|c w1 IH]; intros pv; [done|].
  cbn [app]. by rewrite !prev_after_cons, IH.
Qed.

Lemma prev_after_last (pv : option cu) (w : jsstring) :
  w ≠ [] → prev_after pv w = last w.
Proof.
  intros H. unfold prev_after. destruct (last w) eqn:E; [done|].
  apply last_None in E. done.
Qed.

Lemma reads_text_refl (st : mstate) : reads_text [] st st.
Proof. unfold reads_text. simpl. split; [done|]. split; [lia | done]. Qed.

Lemma reads_text_trans (w1 w2 : jsstring) (st1 st2 st3 : mstate) :
  reads_text w1 st1 st2 → reads_text w2 st2 st3 →
  reads_text (w1 ++ w2) st1 st3.
Proof.
  unfold reads_text. intros (E1 & P1 & V1) (E2 & P2 & V2).
  rewrite E1, E2, length_app, prev_after_app, <- V1, app_assoc.
  split; [done|]. split; [lia | done].
Qed.

Lemma one_sound (p : cu → bool) (k : mstate → option mstate) (st out : mstate) :
  one p k st = Some out →
  ∃ d st', reads_text [d] st st' ∧ p d = true ∧ cap st' = cap st
           ∧ k st' = Some out.
Proof.
  unfold one. destruct st as [[|d s] i pv cp]; simpl; [done|].
  destruct (p d) eqn:E; [|done]. intros H.
  exists d. eexists. split; [|split; [exact E | split; [|exact H]]].
  - unfold reads_text. simpl. split; [done|]. split; [lia | done].
  - reflexivity.
Qed.

Lemma greedy_sound (p : cu → bool) (k : mstate → option mstate)
    (s : jsstring) (i : nat) (pv : option cu) (cp : option (nat * nat))
    (out : mstate) :
  greedy p k s i pv cp = Some out →
  ∃ w st', reads_text w (MState s i pv cp) st'
           ∧ Forall (λ c, p c = true) w ∧ cap st' = cp ∧ k st' = Some out.
Proof.
  revert i pv. induction s as [|c s IH]; intros i pv; simpl.
  - intros H. exists []. eexists.
    split; [apply reads_text_refl | split; [constructor | split; [|exact H]]].
    reflexivity.
  - assert (Hstop : k (MState (c :: s) i pv cp) = Some out →
              ∃ w st', reads_text w (MState (c :: s) i pv cp) st'
                       ∧ Forall (λ c, p c = true) w ∧ cap st' = cp
                       ∧ k st' = Some out).
    { intros H. exists []. eexists.
      split; [apply reads_text_refl | split; [constructor | split; [|exact H]]].
      reflexivity. }
    destruct (p c) eqn:Ec; [|exact Hstop].
    destruct (greedy p k s (S i) (Some c) cp) eqn:E; [|exact Hstop].
    intros [= ->]. destruct (IH _ _ E) as (w & st' & (E1 & P1 & V1) & Hw & Hc & Hk).
    exists (c :: w), st'. split; [|split; [by constructor | done]].
    unfold reads_text in *. simpl in *. rewrite prev_after_cons.
    split; [by rewrite E1|]. split; [lia | done].
Qed.

Lemma lazy_sound (p : cu → bool) (k : mstate → option mstate)
    (s : jsstring) (i : nat) (pv : option cu) (cp : option (nat * nat))
    (out : mstate) :
  lazy p k s i pv cp = Some out →
  ∃ w st', reads_text w (MState s i pv cp) st'
           ∧ Forall (λ c, p c = true) w ∧ cap st' = cp ∧ k st' = Some out.
Proof.
  revert i pv. induction s as [|c s IH]; intros i pv; simpl.
  - destruct (k (MState [] i pv cp)) eqn:E; [|done].
    intros [= ->]. exists []. eexists.
    split; [apply reads_text_refl | split; [constructor | split; [|exact E]]].
    reflexivity.
  - destruct (k (MState (c :: s) i pv cp)) eqn:E.
    + intros [= ->]. exists []. eexists.
      split; [apply reads_text_refl | split; [constructor | split; [|exact E]]].
      reflexivity.
    + destruct (p c) eqn:Ec; [|done]. intros H.
      destruct (IH _ _ H) as (w & st' & (E1 & P1 & V1) & Hw & Hc & Hk).
      exists (c :: w), st'. split; [|split; [by constructor | done]].
      unfold reads_text in *. simpl in *. rewrite prev_after_cons.
      split; [by rewrite E1|]. split; [lia | done].
Qed.

(** Soundness of the matcher: what it hands to its continuation is the state
    after a text that the pattern denotes. *)
Lemma run_sound (ic : bool) (r : regex) (k : mstate → option mstate)
    (st out : mstate) :
  run ic r k st = Some out →
  ∃ w st', reads_text w st st'
           ∧ denotes ic r (prev st) w (rest st')
           ∧ k st' = Some out.
Proof.
  revert k st. induction r as [|c|p|r1 IH1 r2 IH2|p|p|r IH|r IH|];
    intros k st; simpl.
  - intros H. exists [], st. split; [apply reads_text_refl | done].
  - intros H. apply one_sound in H as (d & st' & Hr & Hd & _ & Hk).
    exists [d], st'. split; [done|]. split; [by exists d | done].
  - intros H. apply one_sound in H as (d & st' & Hr & Hd & _ & Hk).
    exists [d], st'. split; [done|]. split; [by exists d | done].
  - intros H. apply IH1 in H as (w1 & st1 & Hr1 & Hd1 & H).
    apply IH2 in H as (w2 & st2 & Hr2 & Hd2 & H).
    exists (w1 ++ w2), st2. split; [by eapply reads_text_trans|].
    split; [|done]. exists w1, w2. split; [done|].
    destruct Hr1 as (E1 & P1 & V1), Hr2 as (E2 & P2 & V2).
    rewrite <- E2. split; [done|]. by rewrite <- V1.
  - intros H. apply greedy_sound in H as (w & st' & Hr & Hw & _ & Hk).
    exists w, st'. by destruct st.
  - intros H. apply one_sound in H as (d & st1 & Hr1 & Hd & _ & H).
    apply lazy_sound in H as (w & st' & Hr & Hw & _ & Hk).
    exists ([d] ++ w), st'. split; [|split; [|done]].
    + eapply reads_text_trans; [exact Hr1|]. by destruct st1.
    + split; [done | by constructor].
  - destruct (run ic r k st) eqn:E.
    + intros [= ->]. apply IH in E as (w & st' & Hr & Hd & Hk).
      exists w, st'. split; [done|]. split; [by right | done].
    + intros H. exists [], st. split; [apply reads_text_refl|].
      split; [by left | done].
  - intros H. apply IH in H as (w & st' & Hr & Hd & Hk).
    eexists w, _. split; [|split; [|exact Hk]]; [|exact Hd].
    exact Hr.
  - destruct (xorb _ _) eqn:E; [|done]. intros H.
    exists [], st. split; [apply reads_text_refl | done].
Qed.

(** The search, seen from the match it returns: the pattern matched at the
    index of the match. *)
Lemma search_run (ic : bool) (r : regex) (s : jsstring) (i : nat)
    (pv : option cu) (m : rmatch) :
  search ic r s i pv = Some m →
  ∃ n pv' out,
    index m = i + n ∧ n ≤ length s
    ∧ run ic r Some (MState (drop n s) (i + n) pv' None) = Some out
    ∧ stop m = pos out ∧ group1 m = cap out.
Proof.
  revert i pv. induction s as [|c s IH]; intros i pv; cbn [search].
  - destruct (run ic r Some (MState [] i pv None)) as [out|] eqn:E; [|done].
    intros [= <-]. exists 0, pv, out. rewrite Nat.add_0_r. simpl.
    repeat split; try done. 
  - destruct (run ic r Some (MState (c :: s) i pv None)) as [out|] eqn:E.
    + intros [= <-]. exists 0, pv, out. rewrite Nat.add_0_r, drop_0. simpl.
      repeat split; try done. lia.
    + intros H. apply IH in H as (n & pv' & out & Hi & Hn & Hr & Hs & Hg).
      exists (S n), pv', out. simpl.
      replace (i + S n) with (S i + n) by lia.
      repeat split; try done. lia.
Qed.

(** ** The opening tag *)

Lemma denotes_Lit (l : jsstring) (pv : option cu) (w post : jsstring) :
  denotes true (Lit l) pv w post → same_ci w l.
Proof.
  revert pv w. induction l as [|c l IH]; intros pv w; simpl.
  - by intros ->.
  - intros (w1 & w2 & -> & (d & -> & Hd) & H2). apply IH in H2.
    unfold same_ci in *. simpl. rewrite H2. f_equal.
    unfold char_eq in Hd. apply N.eqb_eq in Hd. done.
Qed.

Lemma same_ci_length (w l : jsstring) : same_ci w l → length w = length l.
Proof.
  unfold same_ci. intros H.
  by rewrite <- (length_map canonicalize w), H, length_map.
Qed.

Lemma canonicalize_plain (c d : cu) :
  in_range 65 90 c = false → in_range 97 122 c = false →
  char_eq true c d = true → d = c.
Proof.
  unfold char_eq, canonicalize, in_range. intros H1 H2 H.
  rewrite H2 in H. apply N.eqb_eq in H.
  rewrite andb_false_iff, !N.leb_gt in H1, H2.
  destruct ((97 <=? d)%N && (d <=? 122)%N) eqn:E.
  - apply andb_true_iff in E as [E1 E2]. apply N.leb_le in E1, E2. lia.
  - done.
Qed.

Lemma is_not_Forall (d : cu) (w : jsstring) :
  Forall (λ c, is_not d c = true) w → Forall (λ c, c ≠ d) w.
Proof.
  intros H. eapply Forall_impl; [exact H|]. intros c Hc ->.
  unfold is_not in Hc. by rewrite N.eqb_refl in Hc.
Qed.

Lemma openTagRegex_parts (blockName : jsstring) :
  openTagRegex blockName
  = Seq (Lit (str "<div"))
      (Seq (Group (attributesRegex blockName)) (Seq (Char gt_sign) Empty)).
Proof. reflexivity. Qed.

Lemma attributes_names_block (blockName : jsstring) (pv : option cu)
    (w post : jsstring) :
  denotes true (attributesRegex blockName) pv w post → names_block blockName w.
Proof.
  unfold attributesRegex. cbn [Cat denotes].
  intros (a1 & r1 & -> & Ha1 & H).
  destruct H as (cls & r2 & -> & Hcls & H).
  destruct H as (v1 & r3 & -> & Hv1 & H).
  destruct H as (e1 & r4 & -> & [-> Hb1] & H).
  destruct H as (name & r5 & -> & Hname & H).
  destruct H as (e2 & r6 & -> & [-> Hb2] & H).
  destruct H as (v2 & r7 & -> & Hv2 & H).
  destruct H as (q & r8 & -> & (d & -> & Hd) & H).
  destruct H as (a2 & e3 & -> & Ha2 & ->).
  apply canonicalize_plain in Hd as ->; [|done..].
  apply denotes_Lit in Hcls, Hname.
  assert (Hc0 : cls ≠ []).
  { apply same_ci_length in Hcls. by destruct cls. }
  exists a1, cls, v1, name, v2, a2.
  rewrite !prev_after_nil in *. cbn [app] in *. rewrite app_nil_r in *.
  split; [done|]. split; [done|]. split; [done|].
  split; [by apply is_not_Forall|]. split; [by apply is_not_Forall|].
  split; [by apply is_not_Forall|]. split; [by apply is_not_Forall|].
  assert (Hhead : ∀ (l t p : jsstring) c,
            head ((l ++ c :: t) ++ p) = head (l ++ [c]))
    by (by intros [|? ?] ? ? ?).
  split.
  - rewrite <- Hb1. f_equal; f_equal.
    + rewrite <- (prev_after_last (prev_after pv a1)) by (by destruct cls).
      by rewrite !prev_after_app.
    + by rewrite !(app_assoc name v2), Hhead.
  - rewrite <- Hb2. f_equal; f_equal.
    + rewrite <- (prev_after_last (prev_after pv a1)) by (by destruct cls).
      by rewrite !prev_after_app.
    + by rewrite Hhead.
Qed.

(** A match of the opening-tag pattern is the text [<div], in any case,
    followed by attributes that name the block and by [>]; group 1 holds the
    attributes. *)
Lemma openTagRegex_sound (html blockName : jsstring) (lastIndex : nat)
    (m : rmatch) :
  exec true (openTagRegex blockName) html lastIndex = Some m →
  ∃ div attributes,
    drop (index m) html = div ++ attributes ++ gt_sign :: drop (stop m) html
    ∧ matched html m = div ++ attributes ++ [gt_sign]
    ∧ captured html m = attributes
    ∧ same_ci div (str "<div")
    ∧ names_block blockName attributes.
Proof.
  intros Hm. pose proof (exec_bounds _ _ _ _ _ Hm) as (Hlo & _ & Hhi).
  unfold exec in Hm. destruct (decide _) as [Hle|]; [|done].
  apply search_run in Hm as (n & pv & out & Hi & Hn & Hr & Hs & Hg).
  rewrite drop_drop, <- Hi in Hr.
  rewrite openTagRegex_parts, run_Seq in Hr.
  apply run_sound in Hr as (div & st1 & (E1 & P1 & _) & Hdiv & Hr).
  rewrite run_Seq in Hr. cbn [run] in Hr.
  apply run_sound in Hr as (attributes & st2 & (E2 & P2 & _) & Hatt & Hr).
  cbn [rest pos prev] in Hr.
  apply one_sound in Hr as (d & st3 & (E3 & P3 & _) & Hd & Hc & [= <-]).
  apply canonicalize_plain in Hd as ->; [|done..].
  cbn [rest pos prev cap] in *.
  apply denotes_Lit in Hdiv. apply attributes_names_block in Hatt.
  assert (Hrest : drop (stop m) html = rest st3).
  { rewrite Hs, P3, P2, P1.
    replace (index m + length div + length attributes + length [gt_sign])
      with (index m + (length div + (length attributes + 1)))
      by (simpl; lia).
    rewrite <- drop_drop, E1.
    rewrite <- drop_drop, drop_app_length, E2.
    rewrite <- drop_drop, drop_app_length, E3. reflexivity. }
  assert (Hdrop : drop (index m) html
                  = div ++ attributes ++ gt_sign :: drop (stop m) html).
  { by rewrite E1, E2, E3, Hrest. }
  exists div, attributes. split; [exact Hdrop|]. split; [|split; [|done]].
  - unfold matched, substring. rewrite Hdrop.
    replace (stop m - index m) with (length (div ++ attributes ++ [gt_sign])).
    + change (gt_sign :: drop (stop m) html)
        with ([gt_sign] ++ drop (stop m) html).
      rewrite !app_assoc. apply take_app_length.
    + rewrite Hs, P3, P2, P1, !length_app. simpl. lia.
  - unfold captured, substring. rewrite Hg, Hc.
    replace (pos st2 - pos st1) with (length attributes) by lia.
    rewrite P1, <- drop_drop, Hdrop, drop_app_length.
    by rewrite take_app_length.
Qed.

(** ** Balanced tags *)

Lemma search_close (s : jsstring) (i : nat) (pv : option cu) :
  search false divCloseRegex s i pv
  = (λ j, RMatch j (j + 6) None) <$> next_close s i.
Proof.
  revert i pv. induction s as [|c s IH]; intros i pv.
  - reflexivity.
  - cbn [search next_close]. unfold divCloseRegex. rewrite run_Lit.
    cbn [rest pos cap]. fold (close_tag (c :: s)).
    destruct (close_tag (c :: s)); [reflexivity | apply IH].
Qed.

Lemma run_open (s : jsstring) (i : nat) (pv : option cu) :
  run false divOpenRegex Some (MState s i pv None)
  = (λ len, MState (drop len s) (i + len) (Some gt_sign) None) <$> open_tag s.
Proof.
  unfold divOpenRegex. cbn [Cat]. cbn [run]. rewrite run_Lit.
  cbn [rest pos cap prev]. unfold open_tag.
  destruct (startsWith s (str "<div")); [|reflexivity].
  rewrite (greedy_until gt_sign Some) by reflexivity.
  change (length (str "<div")) with 4.
  destruct (index_of gt_sign (drop 4 s)) as [n|]; [|reflexivity].
  cbn. rewrite drop_drop. do 2 f_equal. lia.
Qed.

Lemma search_open (s : jsstring) (i : nat) (pv : option cu) :
  search false divOpenRegex s i pv
  = (λ '(j, len), RMatch j (j + len) None) <$> next_open s i.
Proof.
  revert i pv. induction s as [|c s IH]; intros i pv.
  - reflexivity.
  - cbn [search next_open]. rewrite run_open.
    destruct (open_tag (c :: s)) as [len|]; [reflexivity | apply IH].
Qed.

Lemma close_not_open (s : jsstring) : close_tag s = true → open_tag s = None.
Proof.
  unfold close_tag, open_tag. intros H.
  apply startsWith_spec in H as [post ->]. reflexivity.
Qed.

Lemma index_of_lt (c : cu) (s : jsstring) (n : nat) :
  index_of c s = Some n → n < length s.
Proof.
  revert n. induction s as [|d s IH]; intros n; simpl; [done|].
  destruct (d =? c)%N.
  - intros [= <-]. lia.
  - destruct (index_of c s) as [m|]; [|done]. intros [= <-].
    specialize (IH m eq_refl). lia.
Qed.

Lemma open_tag_len (s : jsstring) (len : nat) :
  open_tag s = Some len → 5 ≤ len ∧ len ≤ length s.
Proof.
  unfold open_tag. destruct (startsWith s (str "<div")) eqn:E; [|done].
  destruct (index_of gt_sign (drop 4 s)) as [n|] eqn:En; [|done].
  intros [= <-]. apply index_of_lt in En. rewrite length_drop in En. lia.
Qed.

Lemma next_close_ge (s : jsstring) (i j : nat) :
  next_close s i = Some j → i ≤ j ∧ j + 6 ≤ i + length s.
Proof.
  revert i. induction s as [|c s IH]; intros i; cbn [next_close].
  - done.
  - destruct (close_tag (c :: s)) eqn:E.
    + intros [= <-]. apply startsWith_spec in E as [post E].
      rewrite E. rewrite length_app. simpl. lia.
    + intros H. apply IH in H. simpl. lia.
Qed.

Lemma next_open_ge (s : jsstring) (i j len : nat) :
  next_open s i = Some (j, len) → i ≤ j ∧ 5 ≤ len ∧ j + len ≤ i + length s.
Proof.
  revert i. induction s as [|c s IH]; intros i; cbn [next_open].
  - done.
  - destruct (open_tag (c :: s)) as [l|] eqn:E.
    + intros [= <- <-]. apply open_tag_len in E. lia.
    + intros H. apply IH in H. simpl. lia.
Qed.

Lemma balanced_close_skip (s : jsstring) (i skip depth : nat) :
  balanced_close s i skip depth
  = balanced_close (drop skip s) (i + skip) 0 depth.
Proof.
  revert i skip. induction s as [|c s IH]; intros i skip.
  - by rewrite drop_nil.
  - destruct skip as [|skip].
    + by rewrite drop_0, Nat.add_0_r.
    + cbn [balanced_close]. rewrite IH. simpl. f_equal. lia.
Qed.

(** Without a closing tag ahead, the depth never comes back to zero. *)
Lemma balanced_close_none (s : jsstring) (i skip depth : nat) :
  next_close s i = None → balanced_close s i skip depth = None.
Proof.
  revert i skip depth. induction s as [|c s IH]; intros i skip depth; [done|].
  cbn [next_close balanced_close].
  destruct (close_tag (c :: s)); [done|]. intros H.
  destruct skip; [|by apply IH].
  destruct (open_tag (c :: s)); by apply IH.
Qed.

(** One turn of the loop, on the stream: the next tag is the earlier of the
    next opening tag and the next closing tag. *)
Lemma balanced_close_step (s : jsstring) (i depth : nat) :
  1 ≤ depth →
  balanced_close s i 0 depth =
  match next_close s i with
  | None => None
  | Some jc =>
      let descend :=
        if depth - 1 =? 0 then Some jc
        else balanced_close (drop (jc + 6 - i) s) (jc + 6) 0 (depth - 1) in
      match next_open s i with
      | Some (jo, len) =>
          if jo <? jc
          then balanced_close (drop (jo + len - i) s) (jo + len) 0 (S depth)
          else descend
      | None => descend
      end
  end.
Proof.
  intros Hd. revert i. induction s as [|c s IH]; intros i; [done|].
  cbn [balanced_close next_close next_open].
  destruct (close_tag (c :: s)) eqn:Ec.
  - rewrite (close_not_open _ Ec). cbn zeta.
    assert (Hdesc : (if depth =? 1 then Some i
                     else balanced_close s (S i) 5 (depth - 1))
                    = (if depth - 1 =? 0 then Some i
                       else balanced_close (drop (i + 6 - i) (c :: s)) (i + 6)
                              0 (depth - 1))).
    { destruct (depth =? 1) eqn:E1.
      - apply Nat.eqb_eq in E1 as ->. reflexivity.
      - apply Nat.eqb_neq in E1.
        assert ((depth - 1 =? 0) = false) as -> by (apply Nat.eqb_neq; lia).
        rewrite balanced_close_skip. replace (i + 6 - i) with 6 by lia.
        simpl. f_equal. lia. }
    destruct (next_open s (S i)) as [[jo len]|] eqn:Eo; [|exact Hdesc].
    apply next_open_ge in Eo.
    assert ((jo <? i) = false) as -> by (apply Nat.ltb_ge; lia).
    exact Hdesc.
  - destruct (open_tag (c :: s)) as [len|] eqn:Eo.
    + destruct (next_close s (S i)) as [jc|] eqn:En.
      * apply next_close_ge in En. apply open_tag_len in Eo. cbn zeta.
        assert ((i <? jc) = true) as -> by (apply Nat.ltb_lt; lia).
        rewrite balanced_close_skip.
        replace (i + len - i) with (S (len - 1)) by lia.
        simpl. f_equal. lia.
      * by apply balanced_close_none.
    + rewrite IH.
      destruct (next_close s (S i)) as [jc|] eqn:En; [|done].
      apply next_close_ge in En. cbn zeta.
      replace (jc + 6 - i) with (S (jc + 6 - S i)) by lia. simpl.
      destruct (next_open s (S i)) as [[jo len]|] eqn:Eo'; [|done].
      apply next_open_ge in Eo'.
      replace (jo + len - i) with (S (jo + len - S i)) by lia. done.
Qed.

(** The inner loop of [parseBlockInstances] computes the balanced closing
    tag of the specification, whenever its fuel exceeds what is left of the
    document. *)
Lemma scan_balanced (fuel : nat) (html : jsstring) (startPos depth pos : nat) :
  1 ≤ depth → pos ≤ length html → length html - pos < fuel →
  scan fuel html startPos depth pos
  = (λ k, trim (substring html startPos k))
      <$> balanced_close (drop pos html) pos 0 depth.
Proof.
  revert depth pos. induction fuel as [|fuel IH]; intros depth pos Hd Hp Hf;
    [lia|].
  cbn [scan].
  assert ((0 <? depth) = true) as -> by (apply Nat.ltb_lt; lia).
  destruct (pos <? length html) eqn:El; cbn [andb].
  2:{ apply Nat.ltb_ge in El. by rewrite drop_ge. }
  apply Nat.ltb_lt in El.
  rewrite !exec_search, search_close, search_open by lia.
  rewrite balanced_close_step by done.
  destruct (next_close (drop pos html) pos) as [jc|] eqn:Ec; [|done].
  apply next_close_ge in Ec. rewrite length_drop in Ec.
  cbn [fmap option_fmap option_map index stop]. cbn zeta.
  assert (Hdesc :
    (if depth - 1 =? 0 then Some (trim (substring html startPos jc))
     else scan fuel html startPos (depth - 1) (jc + 6))
    = (λ k, trim (substring html startPos k)) <$>
      (if depth - 1 =? 0 then Some jc
       else balanced_close (drop (jc + 6 - pos) (drop pos html)) (jc + 6) 0
              (depth - 1))).
  { destruct (depth - 1 =? 0) eqn:E1; [done|]. apply Nat.eqb_neq in E1.
    rewrite drop_drop. replace (pos + (jc + 6 - pos)) with (jc + 6) by lia.
    apply IH; lia. }
  destruct (next_open (drop pos html) pos) as [[jo len]|] eqn:Eo;
    [|exact Hdesc].
  apply next_open_ge in Eo. rewrite length_drop in Eo.
  cbn [fmap option_fmap option_map index stop].
  destruct (jo <? jc) eqn:Elt; [|exact Hdesc].
  rewrite drop_drop. replace (pos + (jo + len - pos)) with (jo + len) by lia.
  apply IH; lia.
Qed.

(** The closing tag found lies at or after the start, and is a closing
    tag. *)
Lemma balanced_close_at (s : jsstring) (i skip depth k : nat) :
  balanced_close s i skip depth = Some k →
  i + skip ≤ k ∧ close_tag (drop (k - i) s) = true.
Proof.
  revert i skip depth. induction s as [|c s IH]; intros i skip depth; [done|].
  cbn [balanced_close]. destruct skip as [|skip].
  - destruct (close_tag (c :: s)) eqn:Ec.
    + destruct (depth =? 1).
      * intros [= <-]. rewrite Nat.sub_diag, drop_0. split; [lia | done].
      * intros H. apply IH in H as [H1 H2].
        replace (k - i) with (S (k - S i)) by lia. split; [lia | done].
    + destruct (open_tag (c :: s)); intros H; apply IH in H as [H1 H2];
        (replace (k - i) with (S (k - S i)) by lia); (split; [lia | done]).
  - intros H. apply IH in H as [H1 H2].
    replace (k - i) with (S (k - S i)) by lia. split; [lia | done].
Qed.

(** ** The extractor *)

(** The outer loop visits the matches of the opening-tag pattern in order:
    a match is never empty, so [lastIndex] is where the previous match
    stopped. *)
Lemma instances_loop_matchAll (fuel : nat) (html blockName : jsstring)
    (lastIndex : nat) (blockInstances : gmap jsstring jsstring) :
  instances_loop fuel html blockName lastIndex blockInstances
  = fold_left (λ acc m, record_instance html blockName m acc)
      (matchAll_from fuel true (openTagRegex blockName) html lastIndex)
      blockInstances.
Proof.
  revert lastIndex blockInstances.
  induction fuel as [|fuel IH]; intros lastIndex blockInstances; [done|].
  simpl.
  destruct (exec true (openTagRegex blockName) html lastIndex) as [m|] eqn:E;
    [|done].
  apply exec_bounds in E as (H1 & H2 & H3).
  assert (5 ≤ min_len (openTagRegex blockName)).
  { unfold openTagRegex. simpl. lia. }
  destruct (decide (stop m = index m)); [lia|]. simpl. apply IH.
Qed.

Lemma parseBlockInstances_matchAll (html blockName : jsstring) :
  parseBlockInstances html blockName
  = fold_left (λ acc m, record_instance html blockName m acc)
      (matchAll true (openTagRegex blockName) html) ∅.
Proof. apply instances_loop_matchAll. Qed.

(** C1.  A match of the opening-tag pattern is a [div] tag whose attribute
    text holds [class=], a double quote and, before the next double quote,
    the block name between word boundaries.  For such a match that is not
    skipped, the scan starts right after the opening tag, with depth one,
    and reads the rest of the document as a stream of opening and closing
    div tags.  When the depth comes back to zero at a closing tag, the text
    between the end of the opening tag and that closing tag, trimmed, is
    recorded under the variant of the match; when the document ends before
    that, nothing is recorded for the match.  The loop never stops for lack
    of fuel, and the extractor does this for every match of the pattern, in
    order.  On the nested example the result maps [dark] to the whole inner
    markup. *)
Theorem parseBlockInstances_balanced_content (html blockName : jsstring)
    (lastIndex : nat) (m : rmatch) (blockInstances : gmap jsstring jsstring) :
  exec true (openTagRegex blockName) html lastIndex = Some m →
  let startPos := index m + length (matched html m) in
  let variant := variant_of (class_tokens (captured html m)) blockName in
  let close := balanced_close (drop startPos html) startPos 0 1 in
  value_truthy (get blockInstances variant) = false →
  (∃ div attributes,
      matched html m = div ++ attributes ++ [gt_sign]
      ∧ same_ci div (str "<div")
      ∧ captured html m = attributes
      ∧ names_block blockName attributes)
  ∧ startPos = stop m
  ∧ record_instance html blockName m blockInstances
    = match close with
      | Some k => <[variant := trim (substring html startPos k)]> blockInstances
      | None => blockInstances
      end
  ∧ (∀ k, close = Some k → startPos ≤ k ∧ close_tag (drop k html) = true)
  ∧ (∀ fuel, length html < fuel →
       scan fuel html startPos 1 startPos = scan_content html startPos)
  ∧ parseBlockInstances html blockName
    = fold_left (λ acc m, record_instance html blockName m acc)
        (matchAll true (openTagRegex blockName) html) ∅
  ∧ parseBlockInstances
      (strq "<div class='hero dark'><div><span>X</span></div></div>")
      (str "hero")
    = {[ str "dark" := str "<div><span>X</span></div>" ]}.
Proof.
  intros Hm startPos variant close Hfalsy.
  pose proof (exec_bounds _ _ _ _ _ Hm) as (Hlo & _ & Hhi).
  pose proof (matched_length _ _ _ _ _ Hm) as Hlen. fold startPos in Hlen.
  assert (Hscan : ∀ fuel, length html < fuel →
            scan fuel html startPos 1 startPos
            = (λ k, trim (substring html startPos k)) <$> close).
  { intros fuel Hfuel. apply scan_balanced; lia. }
  split.
  { destruct (openTagRegex_sound _ _ _ _ Hm)
      as (div & attributes & _ & H1 & H2 & H3 & H4).
    by exists div, attributes. }
  split; [exact Hlen|]. split; [|split; [|split; [|split]]].
  - unfold record_instance. fold startPos. fold variant. rewrite Hfalsy.
    unfold scan_content. rewrite Hscan by lia. by destruct close.
  - intros k Hk. unfold close in Hk. apply balanced_close_at in Hk as [H1 H2].
    rewrite drop_drop in H2. split; [lia|].
    by replace (startPos + (k - startPos)) with k in H2 by lia.
  - intros fuel Hfuel. unfold scan_content. rewrite !Hscan by lia. done.
  - apply parseBlockInstances_matchAll.
  - vm_compute. reflexivity.
Qed.

Lemma parseBlockInstances_balanced_content_witness :
  let html := strq "<div class='hero dark'><div><span>X</span></div></div>" in
  let m := RMatch 0 23 (Some (4, 22)) in
  exec true (openTagRegex (str "hero")) html 0 = Some m
  ∧ record_instance html (str "hero") m ∅
    = {[ str "dark" := str "<div><span>X</span></div>" ]}.
Proof.
  intros html m.
  assert (Hm : exec true (openTagRegex (str "hero")) html 0 = Some m)
    by (vm_compute; reflexivity).
  split; [exact Hm|].
  assert (Hfalsy : value_truthy
                     (get ∅ (variant_of (class_tokens (captured html m))
                               (str "hero"))) = false)
    by (vm_compute; reflexivity).
  destruct (parseBlockInstances_balanced_content html (str "hero") 0 m ∅ Hm
              Hfalsy) as (_ & _ & H & _).
  rewrite H. vm_compute. reflexivity.
Defined.

(** ** Variants *)

Lemma block_class_spec (blockName cls : jsstring) :
  negb (JsString.eqb cls blockName)
  && negb (startsWith cls (blockName ++ [hyphen])) = false
  ↔ block_class blockName cls.
Proof.
  unfold block_class. rewrite andb_false_iff, !negb_false_iff.
  rewrite eqb_spec, startsWith_spec.
  split; (intros [H|[more H]]; [by left | right; exists more]).
  - by rewrite <- app_assoc in H.
  - by rewrite <- app_assoc.
Qed.

(** The variant is the first class token that is not a class of the block,
    and the empty string when there is none. *)
Lemma variant_of_first (blockName : jsstring) (classes : list jsstring) :
  (∃ before v after,
      classes = before ++ v :: after
      ∧ Forall (block_class blockName) before
      ∧ ¬ block_class blockName v
      ∧ variant_of classes blockName = v)
  ∨ (Forall (block_class blockName) classes
     ∧ variant_of classes blockName = []).
Proof.
  unfold variant_of. induction classes as [|cls classes IH]; simpl.
  - right. by split.
  - destruct (negb (JsString.eqb cls blockName)
              && negb (startsWith cls (blockName ++ [hyphen]))) eqn:E.
    + left. exists [], cls, classes. repeat split; try done.
      * intros H. apply block_class_spec in H. congruence.
      * by destruct cls.
    + apply block_class_spec in E.
      destruct IH as [(before & v & after & -> & Hb & Hv & Hr)|[Hall Hr]].
      * left. exists (cls :: before), v, after. repeat split; try done.
        by constructor.
      * right. split; [by constructor | done].
Qed.

(** A variant that holds a non-empty content keeps it through one turn of
    the outer loop, whatever the match of that turn. *)
Lemma record_instance_keeps (html blockName : jsstring) (m : rmatch)
    (blockInstances : gmap jsstring jsstring) (v content : jsstring) :
  blockInstances !! v = Some content → content ≠ [] →
  record_instance html blockName m blockInstances !! v = Some content.
Proof.
  intros Hv Hne. unfold record_instance.
  set (variant := variant_of _ _).
  destruct (value_truthy (get blockInstances variant)) eqn:E; [done|].
  destruct (scan_content _ _) as [c|]; [|done].
  destruct (decide (variant = v)) as [->|Hneq].
  - unfold get in E. rewrite Hv in E. by destruct content.
  - by rewrite lookup_insert_ne.
Qed.

Lemma instances_loop_keeps (fuel : nat) (html blockName : jsstring)
    (lastIndex : nat) (blockInstances : gmap jsstring jsstring)
    (v content : jsstring) :
  blockInstances !! v = Some content → content ≠ [] →
  instances_loop fuel html blockName lastIndex blockInstances !! v
  = Some content.
Proof.
  revert lastIndex blockInstances.
  induction fuel as [|fuel IH]; intros lastIndex blockInstances Hv Hne;
    simpl; [done|].
  destruct (exec true (openTagRegex blockName) html lastIndex) as [m|];
    [|done].
  apply IH; [|done]. by apply record_instance_keeps.
Qed.

(** Every match of the opening-tag pattern moves [lastIndex] forward, so the
    outer loop ends because no match is left, not because the fuel is. *)
Lemma instances_loop_fuel (fuel fuel' : nat) (html blockName : jsstring)
    (lastIndex : nat) (blockInstances : gmap jsstring jsstring) :
  length html - lastIndex < fuel → length html - lastIndex < fuel' →
  instances_loop fuel html blockName lastIndex blockInstances
  = instances_loop fuel' html blockName lastIndex blockInstances.
Proof.
  revert fuel' lastIndex blockInstances.
  induction fuel as [|fuel IH]; intros fuel' lastIndex blockInstances H H';
    [lia|].
  destruct fuel' as [|fuel']; [lia|]. simpl.
  destruct (exec true (openTagRegex blockName) html lastIndex) as [m|] eqn:E;
    [|done].
  apply exec_bounds in E as (H1 & H2 & H3).
  assert (5 ≤ min_len (openTagRegex blockName)).
  { unfold openTagRegex. simpl. lia. }
  apply IH; lia.
Qed.




(** The opening-tag pattern ignores case, the pattern that reads the class
    text does not: a tag written in upper case is an instance, and its
    variant is the base variant whatever its classes. *)
Example upper_case_tag_has_base_variant :
  parseBlockInstances (strq "<DIV CLASS='hero dark'><p>A</p></div>") (str "hero")
  = {[ [] := str "<p>A</p>" ]}.
Proof. vm_compute. reflexivity. Qed.

(** A class that starts with the block name and a hyphen makes the tag an
    instance of the block, since the hyphen is a word boundary; it is no
    variant. *)
Example hyphenated_class_is_an_instance :
  parseBlockInstances
    (strq "<div id='top' class='hero-banner wide'> <p>A</p> </div>") (str "hero")
  = {[ str "wide" := str "<p>A</p>" ]}.
Proof. vm_compute. reflexivity. Qed.

(** A variant named like a member of [Object.prototype] is never recorded:
    the guard reads the inherited member and skips the match. *)
Example inherited_name_is_skipped :
  parseBlockInstances (strq "<div class='hero constructor'><p>A</p></div>")
    (str "hero")
  = ∅.
Proof. vm_compute. reflexivity. Qed.

(** An instance without a balanced closing tag is dropped. *)
Example unbalanced_instance_is_dropped :
  parseBlockInstances (strq "<div class='hero'><div><p>A</p></div>") (str "hero")
  = ∅.
Proof. vm_compute. reflexivity. Qed.

(** ** Does the documentation exist? *)

Section DocumentProperties.

Variable validateBlockName : jsstring → validation.
Variable buildLibraryPath : jsstring → jsstring → jsstring → jsstring.
Variable buildContentUrl : jsstring → jsstring → jsstring → jsstring.
Variable formatURL :
  jsstring → jsstring → jsstring → jsstring → jsstring → jsstring.
Variable LIBRARY_TYPES_BLOCKS : jsstring.
Variable daAdminRequest : jsstring → outcome response.
Variable JSON_parse : jsstring → outcome response.

Local Abbreviation check :=
  (checkBlockDocExists validateBlockName buildLibraryPath buildContentUrl
     formatURL LIBRARY_TYPES_BLOCKS daAdminRequest).

Lemma mentions_404_spec (e : js_error) :
  mentions_404 e = true ↔ ∃ msg, message e = Some msg ∧ contains msg (str "404").
Proof.
  unfold mentions_404. destruct (message e) as [msg|].
  - rewrite includes_spec. split; [by exists msg | by intros [? [[= <-] ?]]].
  - split; [done | by intros [? [? ?]]].
Qed.

(** C7.  For a block name that passes validation, the check reads the
    document at the library path of the block.  It returns [exists: true]
    when the read succeeds; it returns [exists: false] exactly when the
    read throws an error whose message contains [404]; and it throws the
    very error of the read in every other case. *)
Theorem checkBlockDocExists_404_is_absence
    (org repo blockName baseFolder : jsstring) :
  valid (validateBlockName blockName) = true →
  let docPath := buildLibraryPath LIBRARY_TYPES_BLOCKS baseFolder blockName in
  let url := formatURL (str "source") org repo docPath (str "html") in
  let found b := DocCheck b docPath (buildContentUrl org repo docPath) in
  (∀ body, daAdminRequest url = Returned body →
     check org repo blockName baseFolder = Returned (found true))
  ∧ (∀ e msg, daAdminRequest url = Thrown e →
       message e = Some msg → contains msg (str "404") →
       check org repo blockName baseFolder = Returned (found false))
  ∧ (∀ e, daAdminRequest url = Thrown e →
       (∀ msg, message e = Some msg → ¬ contains msg (str "404")) →
       check org repo blockName baseFolder = Thrown e)
  ∧ (∀ d, check org repo blockName baseFolder = Returned d →
       (exists_ d = false ↔
        ∃ e msg, daAdminRequest url = Thrown e ∧ message e = Some msg
                 ∧ contains msg (str "404"))).
Proof.
  intros Hvalid docPath url found. unfold checkBlockDocExists.
  rewrite Hvalid. simpl. fold docPath. fold url.
  split; [|split; [|split]].
  - intros body ->. reflexivity.
  - intros e msg -> Hm Hc.
    assert (mentions_404 e = true) as -> by (apply mentions_404_spec; eauto).
    reflexivity.
  - intros e -> Hno.
    destruct (mentions_404 e) eqn:E; [|reflexivity].
    apply mentions_404_spec in E as [msg [Hm Hc]]. by destruct (Hno msg).
  - intros d. destruct (daAdminRequest url) as [body|e] eqn:E.
    + intros [= <-]. split; [discriminate|].
      intros [e [msg [? _]]]. discriminate.
    + destruct (mentions_404 e) eqn:E4; [|discriminate].
      intros [= <-]. split; [|reflexivity].
      intros _. apply mentions_404_spec in E4 as [msg [Hm Hc]]. eauto.
Qed.

(** ** Candidate pages *)

Local Abbreviation fetch :=
  (fetchSourceDocument formatURL daAdminRequest JSON_parse).
Local Abbreviation candidate :=
  (try_candidate formatURL daAdminRequest JSON_parse).
Local Abbreviation extract :=
  (extractBlockContent formatURL daAdminRequest JSON_parse).
Local Abbreviation yield :=
  (yields formatURL daAdminRequest JSON_parse).

Lemma try_candidate_yields (org repo sourcePath blockName : jsstring) :
  candidate org repo sourcePath blockName = yield org repo sourcePath blockName.
Proof.
  unfold try_candidate, yields.
  destruct (fetch org repo sourcePath) as [[html|]|e]; try reflexivity.
  destruct (decide (parseBlockInstances html blockName = ∅)) as [E|E].
  - by rewrite E.
  - apply map_size_non_empty_iff in E.
    assert ((0 <? size (parseBlockInstances html blockName)) = true) as ->
      by (apply Nat.ltb_lt; lia).
    reflexivity.
Qed.

(** C8.  The candidates are tried in order.  A candidate whose fetch or
    parse throws, or whose page holds no instance, is passed over.  The
    result is the mapping of the first candidate that yields one, with the
    path of that candidate; when no candidate yields any, the result is
    the pair of two nulls, and in no case an error. *)
Theorem extractBlockContent_first_candidate
    (org repo blockName : jsstring) (paths : list jsstring) :
  ((∃ before sourcePath after found,
      paths = before ++ sourcePath :: after
      ∧ Forall (λ p, yield org repo p blockName = None) before
      ∧ yield org repo sourcePath blockName = Some found
      ∧ found ≠ ∅
      ∧ extract org repo (ManyPaths paths) blockName
        = Extraction_ (Some found) (Some sourcePath))
   ∨ (Forall (λ p, yield org repo p blockName = None) paths
      ∧ extract org repo (ManyPaths paths) blockName = Extraction_ None None))
  ∧ (∀ p e, fetch org repo p = Thrown e → yield org repo p blockName = None)
  ∧ (∀ p found, yield org repo p blockName = Some found →
       ∃ html, fetch org repo p = Returned (RString html)
               ∧ found = parseBlockInstances html blockName)
  ∧ (∀ p, p ≠ [] →
       extract org repo (OnePath p) blockName
       = extract org repo (ManyPaths [p]) blockName)
  ∧ extract org repo NoPaths blockName = Extraction_ None None
  ∧ extract org repo (OnePath []) blockName = Extraction_ None None.
Proof.
  repeat split.
  - simpl. induction paths as [|p ps IH]; simpl.
    + right. split; [constructor | reflexivity].
    + rewrite try_candidate_yields.
      destruct (yield org repo p blockName) as [found|] eqn:E.
      * left. exists [], p, ps, found. repeat split; try done.
        unfold yields in E.
        destruct (fetch org repo p) as [[html|]|e]; try discriminate.
        destruct (decide _) as [|Hne]; [discriminate|].
        by injection E as <-.
      * destruct IH as [(before & q & after & found & -> & Hb & Hq & Hne & Hr)|[Hall Hr]].
        -- left. exists (p :: before), q, after, found.
           repeat split; try done. by constructor.
        -- right. split; [by constructor | done].
  - intros p e E. unfold yields. by rewrite E.
  - intros p found. unfold yields.
    destruct (fetch org repo p) as [[html|]|e]; try discriminate.
    destruct (decide _); [discriminate|]. intros [= <-]. by exists html.
  - intros [|c p] Hp; [done | reflexivity].
Qed.

End DocumentProperties.

Lemma checkBlockDocExists_404_is_absence_witness :
  let validate := λ _ : jsstring, Validation true [] in
  let libraryPath := λ type baseFolder blockName : jsstring,
    str "/" ++ baseFolder ++ str "/" ++ type ++ str "/" ++ blockName in
  let contentUrl := λ org repo path : jsstring, org ++ str "/" ++ repo ++ path in
  let formatURL := λ kind org repo path ext : jsstring,
    kind ++ str "/" ++ org ++ str "/" ++ repo ++ path ++ str "." ++ ext in
  let request := λ _ : jsstring,
    Thrown (A := response) (JsError (Some (str "Request failed: 404 Not Found")) []) in
  checkBlockDocExists validate libraryPath contentUrl formatURL (str "blocks")
    request (str "acme") (str "site") (str "hero") (str "library")
  = Returned (DocCheck false (str "/library/blocks/hero")
                (str "acme/site/library/blocks/hero")).
Proof.
  intros validate libraryPath contentUrl formatURL request.
  destruct (checkBlockDocExists_404_is_absence validate libraryPath contentUrl
              formatURL (str "blocks") request (str "acme") (str "site")
              (str "hero") (str "library") eq_refl) as (_ & H & _).
  rewrite (H (JsError (Some (str "Request failed: 404 Not Found")) [])
             (str "Request failed: 404 Not Found") eq_refl eq_refl).
  - reflexivity.
  - exists (str "Request failed: "), (str " Not Found"). reflexivity.
Defined.

(** ** The structure flags *)

Lemma some_includes_spec (pats classes : list jsstring) :
  some_includes pats classes = true ↔ some_contains classes pats.
Proof.
  unfold some_includes, some_contains. rewrite existsb_elem_of. split.
  - intros [c [Hc H]]. apply existsb_elem_of in H as [p [Hp H]].
    exists c, p. by rewrite <- includes_spec.
  - intros [c [p [Hc [Hp H]]]]. exists c. split; [done|].
    apply existsb_elem_of. exists p. by rewrite includes_spec.
Qed.

Lemma detectStructureFeatures_same_elements (classes classes' : list jsstring) :
  (∀ c, c ∈ classes ↔ c ∈ classes') →
  detectStructureFeatures classes = detectStructureFeatures classes'.
Proof.
  intros H. unfold detectStructureFeatures, some_includes.
  by rewrite !(existsb_same_elements _ classes classes' H).
Qed.

(** C5.  [detectStructureFeatures] gives the same flags for every
    permutation of its input, and for every list with the same class names
    (repeated or not); evaluating it twice on one input gives identical
    flags.  Each of the image, heading, button and multi-item flags is true
    exactly when some class name contains one of the patterns fixed for that
    flag, and the BEM flag exactly when some class name contains two
    underscores or two hyphens in a row. *)
Theorem detectStructureFeatures_order_independent (classes classes' : list jsstring) :
  classes ≡ₚ classes' →
  detectStructureFeatures classes' = detectStructureFeatures classes
  ∧ detectStructureFeatures (classes ++ classes') = detectStructureFeatures classes
  ∧ (let once := detectStructureFeatures classes in
     let twice := detectStructureFeatures classes in
     once = twice)
  ∧ (hasImage (detectStructureFeatures classes) = true ↔
     some_contains classes [str "image"; str "img"; str "picture"; str "photo"])
  ∧ (hasHeading (detectStructureFeatures classes) = true ↔
     some_contains classes [str "title"; str "heading"; str "headline"])
  ∧ (hasButton (detectStructureFeatures classes) = true ↔
     some_contains classes [str "button"; str "btn"; str "cta"; str "action"])
  ∧ (hasMultipleItems (detectStructureFeatures classes) = true ↔
     some_contains classes [str "item"; str "card"; str "column"])
  ∧ (isBEM (detectStructureFeatures classes) = true ↔
     ∃ c, c ∈ classes ∧ (contains c (str "__") ∨ contains c (str "--"))).
Proof.
  intros Hperm. repeat split; try apply some_includes_spec;
    try (intros H; by apply some_includes_spec).
  - apply detectStructureFeatures_same_elements. intros c.
    by rewrite Hperm.
  - apply detectStructureFeatures_same_elements. intros c.
    rewrite elem_of_app, <- Hperm. tauto.
  - simpl. rewrite existsb_elem_of. intros [c [Hc H]]. exists c.
    by rewrite orb_true_iff, !includes_spec in H.
  - simpl. rewrite existsb_elem_of. intros [c [Hc H]]. exists c.
    by rewrite orb_true_iff, !includes_spec.
Qed.

Lemma detectStructureFeatures_order_independent_witness :
  detectStructureFeatures [str "card-image"; str "hero__title"]
  = detectStructureFeatures [str "hero__title"; str "card-image"]
  ∧ hasImage (detectStructureFeatures [str "hero__title"; str "card-image"]) = true.
Proof.
  pose proof (detectStructureFeatures_order_independent
                [str "hero__title"; str "card-image"]
                [str "card-image"; str "hero__title"]
                (Permutation_swap _ _ [])) as [H _].
  split; [exact H | reflexivity].
Defined.

(** ** Variants of a stylesheet *)

(** C4, where the code departs from it.  The stylesheet holds exactly the
    selectors [.cards], [.cards.two-col] and [.cards.wide].  The class names
    collected from it include [two-col], but the variant pattern stops at
    the hyphen: the variants reported are [two] and [wide], and [two] is no
    class of the stylesheet. *)
Theorem css_variants_stop_at_hyphen :
  let css := str ".cards { } .cards.two-col { } .cards.wide { }" in
  css_variants css (str "cards") = [str "two"; str "wide"]
  ∧ css_classes css = [str "cards"; str "two-col"; str "wide"]
  ∧ variants (analyzeBlock (Source (λ _, Some css)) (str "cards"))
    = [str "two"; str "wide"]
  ∧ str "two" ∉ css_classes css.
Proof.
  intros css. repeat split; try (vm_compute; reflexivity).
  assert (E : css_classes css = [str "cards"; str "two-col"; str "wide"])
    by (vm_compute; reflexivity).
  rewrite E. rewrite !elem_of_cons, elem_of_nil.
  intros [H|[H|[H|[]]]]; vm_compute in H; discriminate.
Qed.

(** *** Word-character variants

    What the variant pattern does find: on a stylesheet made of the
    selectors [.B], [.B.x] and [.B.y], with [x] and [y] made of word
    characters, the variants are [x] and [y], without [B] and without
    repetition. *)

Section VariantPattern.

Variable B : jsstring.

Local Abbreviation R := (variantPattern B).

Lemma run_variant_other (k : mstate → option mstate) (s : jsstring) (i : nat)
    (pv : option cu) (cp : option (nat * nat)) :
  head s ≠ Some dot_sign → run false R k (MState s i pv cp) = None.
Proof.
  intros H. unfold variantPattern. cbn [Cat run]. unfold one. cbn [rest].
  destruct s as [|c s]; [done|]. unfold char_eq.
  destruct (dot_sign =? c)%N eqn:E; [|done].
  apply N.eqb_eq in E as <-. by destruct H.
Qed.

(** A selector [.B] that is not followed by a dot is no match. *)
Lemma run_variant_bare (k : mstate → option mstate) (c : cu) (g : jsstring)
    (i : nat) (pv : option cu) (cp : option (nat * nat)) :
  c ≠ dot_sign →
  run false R k (MState (dot_sign :: B ++ c :: g) i pv cp) = None.
Proof.
  intros H. unfold variantPattern. cbn [Cat run]. unfold one at 1.
  cbn [rest pos prev cap]. unfold char_eq at 1. rewrite N.eqb_refl.
  rewrite run_Lit. cbn [rest pos prev cap]. rewrite startsWith_app.
  rewrite drop_app_length. unfold one. cbn [rest]. unfold char_eq.
  destruct (dot_sign =? c)%N eqn:E; [|done].
  apply N.eqb_eq in E. congruence.
Qed.

(** A selector [.B.x] is a match, and its group is [x]. *)
Lemma run_variant_found (x post : jsstring) (i : nat) (pv : option cu) :
  x ≠ [] → Forall (λ c, is_word c = true) x →
  word_opt (head post) = false →
  ∃ st, run false R Some (MState (dot_sign :: B ++ dot_sign :: x ++ post) i pv None)
        = Some st
        ∧ pos st = i + 2 + length B + length x
        ∧ cap st = Some (i + 2 + length B, i + 2 + length B + length x).
Proof.
  intros Hne Hx Hpost. destruct x as [|c x]; [done|].
  apply Forall_cons in Hx as [Hc Hx].
  unfold variantPattern, Plus. cbn [Cat run]. unfold one at 1.
  cbn [rest pos prev cap]. unfold char_eq at 1. rewrite N.eqb_refl.
  rewrite run_Lit. cbn [rest pos prev cap]. rewrite startsWith_app.
  rewrite drop_app_length. unfold one. cbn [rest pos prev cap].
  unfold char_eq. rewrite N.eqb_refl. cbn [app]. rewrite Hc.
  eexists. split.
  - apply greedy_app; [exact Hx|]. rewrite greedy_stop; [reflexivity|].
    unfold word_opt in Hpost. by destruct (head post).
  - cbn [pos cap length]. split; [lia | f_equal; f_equal; lia].
Qed.

(** The search passes over text without a dot. *)
Lemma search_no_dot (p post : jsstring) (i : nat) (pv : option cu)
    (res : option rmatch) :
  no_dot p →
  head post = Some dot_sign →
  (∀ pv', search false R post (i + length p) pv' = res) →
  search false R (p ++ post) i pv = res.
Proof.
  intros Hp Hpost. revert i pv. induction Hp as [|c p Hc Hp IH]; intros i pv H.
  - simpl. rewrite <- (H pv). by rewrite Nat.add_0_r.
  - cbn [app search]. rewrite run_variant_other.
    + apply IH. intros pv'. rewrite <- (H pv'). f_equal. simpl. lia.
    + simpl. congruence.
Qed.

Lemma search_no_dot_end (p : jsstring) (i : nat) (pv : option cu) :
  no_dot p → search false R p i pv = None.
Proof.
  intros Hp. revert i pv. induction Hp as [|c p Hc Hp IH]; intros i pv.
  - cbn [search]. by rewrite run_variant_other.
  - cbn [search]. rewrite run_variant_other; [apply IH|]. simpl. congruence.
Qed.

End VariantPattern.

Lemma search_variant_found (B x post : jsstring) (i : nat) (pv : option cu) :
  x ≠ [] → Forall (λ c, is_word c = true) x →
  word_opt (head post) = false →
  search false (variantPattern B) (dot_sign :: B ++ dot_sign :: x ++ post) i pv
  = Some (RMatch i (i + 2 + length B + length x)
            (Some (i + 2 + length B, i + 2 + length B + length x))).
Proof.
  intros Hne Hx Hpost.
  destruct (run_variant_found B x post i pv Hne Hx Hpost) as (st & E & P & C).
  cbn [search]. rewrite E. by rewrite P, C.
Qed.

Lemma gap_then_dot (g post : jsstring) :
  gap g → word_opt (head (g ++ dot_sign :: post)) = false.
Proof. intros [_ H]. by destruct g. Qed.

Lemma plain_no_dot (B : jsstring) :
  Forall (λ c, is_class_char c = true) B → no_dot B.
Proof.
  intros HB. eapply Forall_impl; [exact HB|].
  intros c H ->. vm_compute in H. discriminate.
Qed.

Lemma matchAll_three_selectors (B x y pre g1 g2 g3 : jsstring) :
  Forall (λ c, is_class_char c = true) B →
  x ≠ [] → Forall (λ c, is_word c = true) x →
  y ≠ [] → Forall (λ c, is_word c = true) y →
  no_dot pre → g1 ≠ [] → no_dot g1 → gap g2 → gap g3 →
  map (captured (three_selectors B x y pre g1 g2 g3))
    (matchAll false (variantPattern B) (three_selectors B x y pre g1 g2 g3))
  = [x; y].
Proof.
  intros HB Hx0 Hx Hy0 Hy Hpre Hg0 Hg1 Hg2 Hg3.
  apply plain_no_dot in HB.
  set (css := three_selectors B x y pre g1 g2 g3).
  set (sel3 := dot_sign :: B ++ dot_sign :: y ++ g3).
  set (sel2 := dot_sign :: B ++ dot_sign :: x ++ g2 ++ sel3).
  set (Q1 := pre ++ dot_sign :: B ++ g1 ++ dot_sign :: B ++ [dot_sign]).
  set (Q2 := Q1 ++ x ++ g2 ++ dot_sign :: B ++ [dot_sign]).
  set (a1 := length pre + 1 + length B + length g1).
  set (m1 := RMatch a1 (a1 + 2 + length B + length x)
               (Some (a1 + 2 + length B, a1 + 2 + length B + length x))).
  set (a2 := a1 + 2 + length B + length x + length g2).
  set (m2 := RMatch a2 (a2 + 2 + length B + length y)
               (Some (a2 + 2 + length B, a2 + 2 + length B + length y))).
  assert (E1 : css = Q1 ++ x ++ g2 ++ sel3).
  { unfold css, three_selectors, Q1, sel3. right_nest. reflexivity. }
  assert (E2 : css = Q2 ++ y ++ g3).
  { unfold css, three_selectors, Q2, Q1. right_nest. reflexivity. }
  assert (L1 : length Q1 = a1 + 2 + length B).
  { unfold Q1, a1. lengths. }
  assert (L2 : length Q2 = a2 + 2 + length B).
  { unfold Q2, a2. rewrite !length_app, L1. lengths. }
  assert (Lc : length css = a2 + 2 + length B + length y + length g3).
  { rewrite E2, !length_app, L2. lia. }
  (* the first search *)
  assert (S1 : exec false (variantPattern B) css 0 = Some m1).
  { rewrite exec_search by lia. rewrite drop_0.
    assert (E0 : css = pre ++ dot_sign :: B ++ g1 ++ sel2) by reflexivity.
    rewrite E0. apply search_no_dot; [done | done |].
    intros pv. destruct g1 as [|c g1']; [done|].
    apply Forall_cons in Hg1 as Hc. destruct Hc as [Hc Hg1'].
    cbn [search]. cbn [app]. rewrite run_variant_bare by done.
    change (B ++ c :: g1' ++ sel2) with (B ++ (c :: g1') ++ sel2).
    rewrite (app_assoc B (c :: g1') sel2). apply search_no_dot.
    - apply Forall_app. split; [exact HB | by constructor].
    - done.
    - intros pv'. unfold sel2. rewrite search_variant_found.
      + unfold m1, a1. apply rmatch_eq; lengths.
      + done.
      + done.
      + by apply gap_then_dot. }
  (* the second search *)
  assert (S2 : exec false (variantPattern B) css (stop m1) = Some m2).
  { cbn [stop m1]. rewrite exec_search by lia.
    replace (a1 + 2 + length B + length x) with (length (Q1 ++ x))
      by (rewrite length_app; lia).
    rewrite E1 at 1. rewrite (app_assoc Q1 x), drop_app_length.
    apply search_no_dot; [apply Hg2 | done |].
    intros pv'. unfold sel3. rewrite search_variant_found.
    - unfold m2, a2. apply rmatch_eq; lengths.
    - done.
    - done.
    - apply Hg3. }
  (* the third search *)
  assert (S3 : exec false (variantPattern B) css (stop m2) = None).
  { cbn [stop m2]. rewrite exec_search by lia.
    replace (a2 + 2 + length B + length y) with (length (Q2 ++ y))
      by (rewrite length_app; lia).
    rewrite E2 at 1. rewrite (app_assoc Q2 y), drop_app_length.
    apply search_no_dot_end, Hg3. }
  unfold matchAll. fold css.
  destruct (length css) as [|[|n]] eqn:El; [lia | lia |].
  cbn [matchAll_from]. rewrite S1.
  destruct (decide (stop m1 = index m1)) as [E|_]; [cbn in E; lia|].
  rewrite S2.
  destruct (decide (stop m2 = index m2)) as [E|_]; [cbn in E; lia|].
  rewrite S3. cbn [map]. unfold captured. cbn [group1 m1 m2].
  f_equal; [|f_equal].
  - rewrite E1, <- L1. apply substring_app.
  - rewrite E2, <- L2. apply substring_app.
Qed.

Lemma css_variants_fold (cssContent blockName : jsstring) :
  css_variants cssContent blockName
  = fold_left
      (λ variants v,
         if negb (JsString.eqb v blockName) then set_add variants v
         else variants)
      (map (captured cssContent)
         (matchAll false (variantPattern blockName) cssContent)) [].
Proof.
  unfold css_variants. generalize (@nil jsstring).
  induction (matchAll false (variantPattern blockName) cssContent)
    as [|m ms IH]; intros acc; [done|]. simpl. apply IH.
Qed.

(** On word-character variants the claim of C4 holds: the variants of a
    stylesheet with the selectors [.B], [.B.x] and [.B.y] are [x] and [y],
    without [B] and without repetition. *)
Lemma css_variants_word_variants (B x y pre g1 g2 g3 : jsstring) :
  Forall (λ c, is_class_char c = true) B →
  x ≠ [] → Forall (λ c, is_word c = true) x →
  y ≠ [] → Forall (λ c, is_word c = true) y →
  no_dot pre → g1 ≠ [] → no_dot g1 → gap g2 → gap g3 →
  (∀ v, v ∈ css_variants (three_selectors B x y pre g1 g2 g3) B
        ↔ (v = x ∨ v = y) ∧ v ≠ B)
  ∧ NoDup (css_variants (three_selectors B x y pre g1 g2 g3) B).
Proof.
  intros HB Hx0 Hx Hy0 Hy Hpre Hg0 Hg1 Hg2 Hg3.
  rewrite css_variants_fold, matchAll_three_selectors by done.
  cbn [fold_left]. unfold set_add. cbn [existsb app].
  assert (Heqb : ∀ s t, JsString.eqb s t = bool_decide (s = t)).
  { intros s t. apply eq_true_iff_eq. by rewrite eqb_spec, bool_decide_eq_true. }
  rewrite !Heqb.
  assert (Hyes : ∀ s : jsstring, bool_decide (s = s) = true)
    by (intros s; by apply bool_decide_eq_true_2).
  assert (Hno : ∀ s t : jsstring, s ≠ t → bool_decide (s = t) = false)
    by (intros s t; apply bool_decide_eq_false_2).
  destruct (decide (x = B)) as [->|HxB], (decide (y = B)) as [->|HyB];
    rewrite ?Hyes, ?(Hno x B), ?(Hno y B) by done;
    cbn [negb existsb app orb].
  - split; [members | constructor].
  - split; [members | apply NoDup_singleton].
  - split; [members | apply NoDup_singleton].
  - rewrite Heqb. destruct (decide (y = x)) as [->|Hyx].
    + rewrite Hyes. cbn [orb].
      split; [members | apply NoDup_singleton].
    + rewrite (Hno y x) by done. cbn [orb app].
      split; [members|].
      apply NoDup_cons. split; [|apply NoDup_singleton].
      rewrite elem_of_cons, elem_of_nil. intuition congruence.
Qed.

Example css_variants_word_variants_cards :
  css_variants (str ".cards { } .cards.compact { } .cards.wide { }") (str "cards")
  = [str "compact"; str "wide"].
Proof. vm_compute. reflexivity. Qed.

(** ** Empty files *)

Lemma js_path_css_path (blockName : jsstring) :
  js_path blockName ≠ css_path blockName.
Proof.
  unfold js_path, css_path, buildBlockFilePath. intros E.
  repeat apply app_inv_head in E. discriminate.
Qed.

Lemma without_other (src : source) (path p : jsstring) :
  p ≠ path → getFileContent (without src path) p = getFileContent src p.
Proof. intros H. simpl. apply eqb_neq in H. by rewrite H. Qed.

Lemma without_same (src : source) (path : jsstring) :
  getFileContent (without src path) path = None.
Proof. simpl. by rewrite eqb_refl. Qed.

Lemma analyze_script_hasCSS (jsContent : jsstring) (result : analysis) :
  hasCSS (analyze_script jsContent result) = hasCSS result.
Proof.
  unfold analyze_script.
  by destruct (exec false jsdocRegex jsContent 0),
       (exec false exportRegex jsContent 0).
Qed.

Lemma analyze_stylesheet_hasJS (cssContent blockName : jsstring)
    (result : analysis) :
  hasJS (analyze_stylesheet cssContent blockName result) = hasJS result.
Proof. reflexivity. Qed.

(** C9.  When the source gives the empty string for the script of a block,
    the analysis and the listing entry report no script, and both are what
    they are for the source without that file; likewise for the
    stylesheet. *)
Theorem empty_file_reads_as_absent (src : source) (blockName : jsstring) :
  (getFileContent src (js_path blockName) = Some [] →
     hasJS (analyzeBlock src blockName) = false
     ∧ e_hasJS (checkBlockFiles src blockName) = false
     ∧ analyzeBlock src blockName
       = analyzeBlock (without src (js_path blockName)) blockName
     ∧ checkBlockFiles src blockName
       = checkBlockFiles (without src (js_path blockName)) blockName)
  ∧ (getFileContent src (css_path blockName) = Some [] →
     hasCSS (analyzeBlock src blockName) = false
     ∧ e_hasCSS (checkBlockFiles src blockName) = false
     ∧ analyzeBlock src blockName
       = analyzeBlock (without src (css_path blockName)) blockName
     ∧ checkBlockFiles src blockName
       = checkBlockFiles (without src (css_path blockName)) blockName).
Proof.
  pose proof (js_path_css_path blockName) as Hne.
  split; intros H; unfold analyzeBlock, checkBlockFiles;
    fold (js_path blockName); fold (css_path blockName).
  - rewrite without_same, without_other by done. rewrite H.
    cbn [truthy content_truthy].
    repeat split;
      destruct (getFileContent src (css_path blockName)) as [[|c css]|];
      cbn [truthy]; rewrite ?analyze_stylesheet_hasJS; reflexivity.
  - rewrite without_same, without_other by done. rewrite H.
    cbn [truthy content_truthy].
    repeat split;
      destruct (getFileContent src (js_path blockName)) as [[|c js]|];
      cbn [truthy]; rewrite ?analyze_script_hasCSS; reflexivity.
Qed.

Lemma empty_file_reads_as_absent_witness :
  let src := Source (λ p, if JsString.eqb p (str "hero/hero.js") then Some []
                          else Some (str ".hero { } .hero.dark { }")) in
  hasJS (analyzeBlock src (str "hero")) = false
  ∧ e_hasJS (checkBlockFiles src (str "hero")) = false.
Proof.
  intros src.
  destruct (empty_file_reads_as_absent src (str "hero")) as [H _].
  destruct (H eq_refl) as (H1 & H2 & _). split; [exact H1 | exact H2].
Defined.

(** ** The generated description *)

Lemma generateAutoDescription_described (toUpperCase : jsstring → jsstring)
    (blockName : jsstring) (structure : features)
    (variants : option (list jsstring)) :
  generateAutoDescription toUpperCase blockName structure variants
  = described toUpperCase blockName structure variants.
Proof.
  unfold generateAutoDescription, described, description_parts,
    present_content, capitalize, charAt, slice, has_variants, push.
  destruct structure as [i h b m e]. simpl.
  destruct variants as [[|v vs]|]; destruct m, i, h, b; simpl;
    rewrite <- ?app_assoc; reflexivity.
Qed.


(** ** The body of a section *)

Lemma inherited_empty : inherited [] = false.
Proof. reflexivity. Qed.



(** ** Resolution of the content source *)

Section ResolutionProperties.

Variable cwd : jsstring.
Variable resolve : jsstring → jsstring → jsstring.
Variable isDirectory : jsstring → bool.
Variable detectGitRemote : option git_metadata.

Local Abbreviation resolveSource :=
  (resolveBlockSource cwd resolve isDirectory detectGitRemote).

(** The parts of the resolution order that the code follows. *)
Lemma resolveBlockSource_github_first (g : github_args)
    (useLocal : option bool) (localBlocksPath : option jsstring) :
  resolveSource (SourceArgs (Some g) useLocal localBlocksPath)
  = Returned
      (Resolved
         (GitHubSource (org g) (repo g) (or_default (branch g) (str "main"))
            (or_default (blocksPath g) (str "blocks")))
         (MetaGitHub g)).
Proof. reflexivity. Qed.

Lemma resolveBlockSource_useLocal_path (c : cu) (p : jsstring) :
  resolveSource (SourceArgs None (Some true) (Some (c :: p)))
  = Returned (Resolved (LocalSource (AtPath (c :: p)))
                (MetaLocal (c :: p) detectGitRemote)).
Proof. reflexivity. Qed.

Lemma resolveBlockSource_nothing :
  isDirectory (resolve cwd (str "blocks")) = false →
  resolveSource (SourceArgs None None None)
  = Thrown (new_Error NO_SOURCE_SPECIFIED).
Proof.
  intros H. unfold resolveBlockSource, detectLocalBlocksDir. simpl.
  by rewrite H.
Qed.

(** C3, where the code departs from it.  An explicit local path that comes
    without the use-local flag is not looked at: the resolution is the
    one of a request without any path, so it ends in the configuration
    error when the working directory has no [blocks] directory.
    [createBlockSource] does take the path on the same request. *)
Theorem resolveBlockSource_ignores_lone_local_path (c : cu) (p : jsstring) :
  resolveSource (SourceArgs None None (Some (c :: p)))
  = resolveSource (SourceArgs None None None)
  ∧ resolveSource (SourceArgs None (Some false) (Some (c :: p)))
    = resolveSource (SourceArgs None None None)
  ∧ (if isDirectory (resolve cwd (str "blocks")) then True
     else resolveSource (SourceArgs None None (Some (c :: p)))
          = Thrown (new_Error NO_SOURCE_SPECIFIED))
  ∧ createBlockSource cwd resolve isDirectory
      (SourceArgs None None (Some (c :: p)))
    = Returned (LocalSource (AtPath (c :: p))).
Proof.
  repeat split.
  unfold resolveBlockSource, detectLocalBlocksDir. simpl.
  by destruct (isDirectory (resolve cwd (str "blocks"))).
Qed.

End ResolutionProperties.

(** The request [{ localBlocksPath: '/srv/site/blocks' }] in a working
    directory without a [blocks] directory. *)
Example resolveBlockSource_lone_local_path_fails :
  resolveBlockSource (str "/home/user") (λ a b, a ++ str "/" ++ b)
    (λ _, false) None (SourceArgs None None (Some (str "/srv/site/blocks")))
  = Thrown (new_Error NO_SOURCE_SPECIFIED).
Proof. reflexivity. Qed.

(** * Further properties *)

(** ** White space *)

Lemma head_of_rev (l : jsstring) : head (rev l) = last l.
Proof.
  induction l as [|a l IH]; [done|]. simpl.
  destruct l as [|b l]; [done|].
  change (last (a :: b :: l)) with (last (b :: l)). rewrite <- IH.
  simpl. by destruct (rev l).
Qed.

Lemma last_of_rev (l : jsstring) : last (rev l) = head l.
Proof. rewrite <- (rev_involutive l) at 2. by rewrite head_of_rev. Qed.

Lemma trimStart_spaces (s : jsstring) :
  ∃ ws, s = ws ++ trimStart s ∧ spaces ws.
Proof.
  induction s as [|c s (ws & E & H)]; simpl.
  - exists []. split; [done | constructor].
  - destruct (is_space c) eqn:Ec.
    + exists (c :: ws). split; [by rewrite E at 1 | by constructor].
    + exists []. split; [done | constructor].
Qed.

Lemma trimStart_head (s : jsstring) (c : cu) :
  head (trimStart s) = Some c → is_space c = false.
Proof.
  induction s as [|d s IH]; simpl; [done|].
  destruct (is_space d) eqn:Ed; [done|]. by intros [= <-].
Qed.

Lemma trimEnd_spaces (s : jsstring) :
  ∃ ws, s = trimEnd s ++ ws ∧ spaces ws.
Proof.
  unfold trimEnd. destruct (trimStart_spaces (rev s)) as (ws & E & H).
  exists (rev ws). split.
  - rewrite <- rev_app_distr, <- E. by rewrite rev_involutive.
  - by apply Forall_rev.
Qed.

Lemma trimEnd_last (s : jsstring) (c : cu) :
  last (trimEnd s) = Some c → is_space c = false.
Proof. unfold trimEnd. rewrite last_of_rev. apply trimStart_head. Qed.

(** What [trim] does: it takes white space off both ends and leaves none
    there. *)
Lemma trim_spec (s : jsstring) :
  ∃ l r, s = l ++ trim s ++ r ∧ spaces l ∧ spaces r ∧ trimmed (trim s).
Proof.
  unfold trim. destruct (trimStart_spaces s) as (l & El & Hl).
  destruct (trimEnd_spaces (trimStart s)) as (r & Er & Hr).
  exists l, r. split; [by rewrite <- Er|]. split; [done|]. split; [done|].
  split; [|apply trimEnd_last].
  intros c Hc. apply (trimStart_head s). rewrite Er.
  by destruct (trimEnd (trimStart s)).
Qed.

Lemma trimStart_fixed (s : jsstring) :
  (∀ c, head s = Some c → is_space c = false) → trimStart s = s.
Proof.
  destruct s as [|c s]; [done|]. intros H. simpl. by rewrite (H c).
Qed.

Lemma trim_fixed (s : jsstring) : trimmed s → trim s = s.
Proof.
  intros [Hh Hl]. unfold trim, trimEnd. rewrite (trimStart_fixed s) by done.
  rewrite trimStart_fixed; [apply rev_involutive|].
  intros c. rewrite head_of_rev. apply Hl.
Qed.

Lemma split_go_no_space (acc : jsstring) (skipping : bool) (s : jsstring) :
  no_space acc → Forall no_space (split_go acc skipping s).
Proof.
  revert acc skipping. induction s as [|c s IH]; intros acc skipping Hacc;
    simpl.
  - constructor; [by apply Forall_rev | constructor].
  - destruct (is_space c) eqn:Ec.
    + destruct skipping; [by apply IH|].
      constructor; [by apply Forall_rev | apply IH; constructor].
    + apply IH. by constructor.
Qed.

Lemma class_tokens_no_space (attributes : jsstring) :
  Forall no_space (class_tokens attributes).
Proof.
  unfold class_tokens. destruct (exec _ _ _ _); [|constructor].
  apply split_go_no_space. constructor.
Qed.

(** ** What the extractor records *)

Lemma matchAll_from_exec (fuel : nat) (ic : bool) (r : regex)
    (subject : jsstring) (lastIndex : nat) (m : rmatch) :
  m ∈ matchAll_from fuel ic r subject lastIndex →
  ∃ lastIndex', exec ic r subject lastIndex' = Some m.
Proof.
  revert lastIndex. induction fuel as [|fuel IH]; intros lastIndex; simpl.
  - by intros ?%elem_of_nil.
  - destruct (exec ic r subject lastIndex) as [m'|] eqn:E;
      [|by intros ?%elem_of_nil].
    intros [->|H]%elem_of_cons; [by exists lastIndex | by eapply IH].
Qed.

Lemma scan_content_balanced (html : jsstring) (startPos : nat) (c : jsstring) :
  startPos ≤ length html →
  scan_content html startPos = Some c →
  ∃ k, balanced_close (drop startPos html) startPos 0 1 = Some k
       ∧ c = trim (substring html startPos k).
Proof.
  intros Hle. unfold scan_content. rewrite scan_balanced by lia.
  destruct (balanced_close _ _ _ _) as [k|]; simpl; [|done].
  intros [= <-]. by exists k.
Qed.

(** An invariant of the outer loop: a property of the entries that every
    recording establishes holds of every entry in the end. *)
Lemma fold_record_entries (P : jsstring → jsstring → Prop)
    (html blockName : jsstring) (ms : list rmatch)
    (blockInstances : gmap jsstring jsstring) :
  (∀ m (bi : gmap jsstring jsstring) c,
      m ∈ ms →
      (∀ v c', bi !! v = Some c' → P v c') →
      value_truthy
        (get bi (variant_of (class_tokens (captured html m)) blockName))
      = false →
      scan_content html (index m + length (matched html m)) = Some c →
      P (variant_of (class_tokens (captured html m)) blockName) c) →
  (∀ v c, blockInstances !! v = Some c → P v c) →
  ∀ v c,
    fold_left (λ acc m, record_instance html blockName m acc) ms
      blockInstances !! v = Some c →
    P v c.
Proof.
  revert blockInstances.
  induction ms as [|m ms IH]; intros blockInstances Hstep Hinit; [done|].
  simpl. apply IH.
  - intros m' bi c Hm'. apply Hstep. by right.
  - intros v c. unfold record_instance.
    set (variant := variant_of _ _).
    destruct (value_truthy (get blockInstances variant)) eqn:E;
      [apply Hinit|].
    destruct (scan_content _ _) as [content|] eqn:Es; [|apply Hinit].
    destruct (decide (variant = v)) as [<-|Hne].
    + rewrite lookup_insert_eq. intros [= <-].
      apply (Hstep m blockInstances); [by left | done..].
    + rewrite lookup_insert_ne by done. apply Hinit.
Qed.

(** Whatever the document, every entry of the mapping comes from an
    opening tag of the block in it: the key is the variant of that tag, and
    the content is the text between the tag and the closing tag that
    balances it, with the white space at both ends taken off. *)
Theorem parseBlockInstances_provenance (html blockName v c : jsstring) :
  parseBlockInstances html blockName !! v = Some c →
  ∃ lastIndex m k,
    exec true (openTagRegex blockName) html lastIndex = Some m
    ∧ variant_of (class_tokens (captured html m)) blockName = v
    ∧ balanced_close (drop (stop m) html) (stop m) 0 1 = Some k
    ∧ stop m ≤ k
    ∧ close_tag (drop k html) = true
    ∧ c = trim (substring html (stop m) k)
    ∧ trimmed c.
Proof.
  rewrite parseBlockInstances_matchAll. revert v c.
  apply fold_record_entries; [|by intros v c ?%lookup_empty_Some].
  intros m bi c Hm _ _ Hscan.
  apply matchAll_from_exec in Hm as (lastIndex & Hm).
  rewrite (matched_length _ _ _ _ _ Hm) in Hscan.
  pose proof (exec_bounds _ _ _ _ _ Hm) as (_ & _ & Hhi).
  apply scan_content_balanced in Hscan as (k & Hk & ->); [|done].
  exists lastIndex, m, k. split; [done|]. split; [done|]. split; [done|].
  pose proof (balanced_close_at _ _ _ _ _ Hk) as [H1 H2].
  rewrite drop_drop in H2.
  replace (stop m + (k - stop m)) with k in H2 by lia.
  split; [lia|]. split; [done|]. split; [done|].
  by destruct (trim_spec (substring html (stop m) k)) as (_ & _ & _ & _ & _ & H).
Qed.

(** The keys of the mapping: never the name of a member that every object
    inherits, and either the empty string, for the base variant, or a class
    token without white space that is not a class of the block itself. *)
Theorem parseBlockInstances_keys (html blockName v : jsstring) :
  is_Some (parseBlockInstances html blockName !! v) →
  inherited v = false
  ∧ (v = [] ∨ (v ≠ [] ∧ no_space v ∧ ¬ block_class blockName v)).
Proof.
  intros [c Hc]. revert v c Hc. rewrite parseBlockInstances_matchAll.
  apply (fold_record_entries (λ v _,
           inherited v = false
           ∧ (v = [] ∨ (v ≠ [] ∧ no_space v ∧ ¬ block_class blockName v))));
    [|by intros v c ?%lookup_empty_Some].
  intros m bi c _ Hbi Hfalsy _.
  set (variant := variant_of _ _) in *.
  split.
  - unfold get in Hfalsy. destruct (bi !! variant) as [s|] eqn:E.
    + by destruct (Hbi _ _ E).
    + by destruct (inherited variant).
  - destruct (variant_of_first blockName (class_tokens (captured html m)))
      as [(before & t & after & Hcl & _ & Ht & Hv)|[_ Hv]]; [|by left].
    fold variant in Hv. rewrite Hv.
    destruct t as [|d t]; [by left|]. right. split; [done|]. split; [|done].
    pose proof (class_tokens_no_space (captured html m)) as Hall.
    rewrite Hcl in Hall. apply Forall_app in Hall as [_ Hall].
    by apply Forall_cons in Hall as [Hall _].
Qed.

Lemma mentions_spec (s name : jsstring) :
  mentions s name
  ↔ includes (map canonicalize s) (map canonicalize name) = true.
Proof.
  rewrite includes_spec. unfold mentions, contains, same_ci. split.
  - intros (pre & w & post & -> & Hw).
    exists (map canonicalize pre), (map canonicalize post).
    by rewrite !map_app, Hw.
  - intros (pre & post & E).
    apply map_eq_app in E as (pre' & rest' & -> & <- & E).
    apply map_eq_app in E as (w & post' & -> & Hw & <-).
    by exists pre', w, post'.
Qed.


Lemma parseBlockInstances_provenance_witness :
  let html := strq "<div class='hero dark'> <p>A</p> </div>" in
  parseBlockInstances html (str "hero") !! str "dark" = Some (str "<p>A</p>")
  ∧ ∃ lastIndex m k,
      exec true (openTagRegex (str "hero")) html lastIndex = Some m
      ∧ variant_of (class_tokens (captured html m)) (str "hero") = str "dark"
      ∧ balanced_close (drop (stop m) html) (stop m) 0 1 = Some k
      ∧ stop m ≤ k
      ∧ close_tag (drop k html) = true
      ∧ str "<p>A</p>" = trim (substring html (stop m) k)
      ∧ trimmed (str "<p>A</p>").
Proof.
  intros html.
  assert (H : parseBlockInstances html (str "hero") !! str "dark"
              = Some (str "<p>A</p>")) by (vm_compute; reflexivity).
  split; [exact H|].
  exact (parseBlockInstances_provenance html (str "hero") (str "dark")
           (str "<p>A</p>") H).
Defined.

Lemma parseBlockInstances_keys_witness :
  let html := strq "<div class='hero hero-wide dark'><p>A</p></div>" in
  is_Some (parseBlockInstances html (str "hero") !! str "dark")
  ∧ inherited (str "dark") = false
  ∧ (str "dark" = []
     ∨ (str "dark" ≠ [] ∧ no_space (str "dark")
        ∧ ¬ block_class (str "hero") (str "dark"))).
Proof.
  intros html.
  assert (H : is_Some (parseBlockInstances html (str "hero") !! str "dark"))
    by (exists (str "<p>A</p>"); vm_compute; reflexivity).
  split; [exact H|].
  exact (parseBlockInstances_keys html (str "hero") (str "dark") H).
Defined.


(** ** The text a group captures *)

Lemma run_sound_free (ic : bool) (r : regex) (k : mstate → option mstate)
    (st out : mstate) :
  group_free r = true →
  run ic r k st = Some out →
  ∃ w st', reads_text w st st'
           ∧ denotes ic r (prev st) w (rest st')
           ∧ cap st' = cap st
           ∧ k st' = Some out.
Proof.
  revert k st. induction r as [|c|p|r1 IH1 r2 IH2|p|p|r IH|r IH|];
    intros k st Hfree; simpl in *.
  - intros H. exists [], st. split; [apply reads_text_refl | done].
  - intros H. apply one_sound in H as (d & st' & Hr & Hd & Hc & Hk).
    exists [d], st'. split; [done|]. split; [by exists d | done].
  - intros H. apply one_sound in H as (d & st' & Hr & Hd & Hc & Hk).
    exists [d], st'. split; [done|]. split; [by exists d | done].
  - apply andb_true_iff in Hfree as [F1 F2].
    intros H. apply IH1 in H as (w1 & st1 & Hr1 & Hd1 & Hc1 & H); [|done].
    apply IH2 in H as (w2 & st2 & Hr2 & Hd2 & Hc2 & H); [|done].
    exists (w1 ++ w2), st2. split; [by eapply reads_text_trans|].
    split; [|split; [congruence | done]]. exists w1, w2. split; [done|].
    destruct Hr1 as (E1 & P1 & V1), Hr2 as (E2 & P2 & V2).
    rewrite <- E2. split; [done|]. by rewrite <- V1.
  - intros H. apply greedy_sound in H as (w & st' & Hr & Hw & Hc & Hk).
    exists w, st'. by destruct st.
  - intros H. apply one_sound in H as (d & st1 & Hr1 & Hd & Hc1 & H).
    apply lazy_sound in H as (w & st' & Hr & Hw & Hc & Hk).
    exists ([d] ++ w), st'. split; [|split; [|split; [congruence | done]]].
    + eapply reads_text_trans; [exact Hr1|]. by destruct st1.
    + split; [done | by constructor].
  - destruct (run ic r k st) eqn:E.
    + intros [= ->]. apply IH in E as (w & st' & Hr & Hd & Hc & Hk); [|done].
      exists w, st'. split; [done|]. split; [by right | done].
    + intros H. exists [], st. split; [apply reads_text_refl|].
      split; [by left | done].
  - done.
  - destruct (xorb _ _) eqn:E; [|done]. intros H.
    exists [], st. split; [apply reads_text_refl | done].
Qed.

Lemma group_free_Cat (rs : list regex) :
  forallb group_free rs = true → group_free (Cat rs) = true.
Proof.
  induction rs as [|r rs IH]; simpl; [done|].
  intros [H1 H2]%andb_true_iff. by rewrite H1, IH.
Qed.

Lemma group_free_Lit (l : jsstring) : group_free (Lit l) = true.
Proof. by induction l. Qed.

(** A pattern that is a sequence with one group in it: the text before the
    group, the text of the group and the text after it, and the span the
    group records. *)
Lemma run_Cat_group (ic : bool) (pre : list regex) (g : regex)
    (post : list regex) (k : mstate → option mstate) (st out : mstate) :
  forallb group_free pre = true → group_free g = true →
  forallb group_free post = true →
  run ic (Cat (pre ++ Group g :: post)) k st = Some out →
  ∃ w1 w2 w3 st',
    rest st = w1 ++ w2 ++ w3 ++ rest st'
    ∧ pos st' = pos st + length w1 + length w2 + length w3
    ∧ cap st' = Some (pos st + length w1, pos st + length w1 + length w2)
    ∧ denotes ic (Cat pre) (prev st) w1 (w2 ++ w3 ++ rest st')
    ∧ denotes ic g (prev_after (prev st) w1) w2 (w3 ++ rest st')
    ∧ denotes ic (Cat post) (prev_after (prev_after (prev st) w1) w2) w3
        (rest st')
    ∧ k st' = Some out.
Proof.
  intros Hpre Hg Hpost. revert st.
  induction pre as [|a pre IH]; intros st; cbn [app Cat run].
  - intros H. apply run_sound_free in H
      as (w2 & st2 & (E2 & P2 & V2) & Hd2 & _ & H); [|done].
    apply run_sound_free in H
      as (w3 & st3 & (E3 & P3 & V3) & Hd3 & Hc3 & H);
      [|by apply group_free_Cat].
    cbn [rest pos prev cap] in *.
    exists [], w2, w3, st3. rewrite prev_after_nil. cbn [app length].
    rewrite Nat.add_0_r, <- V2, <- E3, <- P2.
    repeat (split; [first [done | lia]|]). done.
  - cbn [forallb] in Hpre. apply andb_true_iff in Hpre as [Ha Hpre].
    intros H. apply run_sound_free in H
      as (w & st1 & (E1 & P1 & V1) & Hd1 & _ & H); [|done].
    apply IH in H
      as (w1 & w2 & w3 & st' & E & P & C & D1 & D2 & D3 & H); [|done].
    exists (w ++ w1), w2, w3, st'.
    rewrite E1, E, P, C, P1, length_app, prev_after_app, <- V1.
    rewrite <- !app_assoc, !Nat.add_assoc.
    split; [done|]. split; [lia|]. split; [done|]. split; [|done].
    exists w, w1. split; [done|]. rewrite <- E, <- V1. by split.
Qed.

(** The same, for a match that [exec] returns. *)
Lemma exec_group (ic : bool) (pre : list regex) (g : regex)
    (post : list regex) (subject : jsstring) (lastIndex : nat) (m : rmatch) :
  forallb group_free pre = true → group_free g = true →
  forallb group_free post = true →
  exec ic (Cat (pre ++ Group g :: post)) subject lastIndex = Some m →
  ∃ pv w1 w2 w3,
    drop (index m) subject = w1 ++ w2 ++ w3 ++ drop (stop m) subject
    ∧ captured subject m = w2
    ∧ denotes ic (Cat pre) pv w1 (w2 ++ w3 ++ drop (stop m) subject)
    ∧ denotes ic g (prev_after pv w1) w2 (w3 ++ drop (stop m) subject)
    ∧ denotes ic (Cat post) (prev_after (prev_after pv w1) w2) w3
        (drop (stop m) subject).
Proof.
  intros Hpre Hg Hpost Hm.
  pose proof (exec_bounds _ _ _ _ _ Hm) as (Hlo & _ & Hhi).
  unfold exec in Hm. destruct (decide _) as [Hle|]; [|done].
  apply search_run in Hm as (n & pv & out & Hi & Hn & Hr & Hs & Hgr).
  rewrite drop_drop, <- Hi in Hr.
  apply run_Cat_group in Hr
    as (w1 & w2 & w3 & st' & E & P & C & D1 & D2 & D3 & [= <-]); [|done..].
  cbn [rest pos prev] in *.
  assert (Hrest : drop (stop m) subject = rest st').
  { rewrite Hs, P.
    replace (index m + length w1 + length w2 + length w3)
      with (index m + (length w1 + (length w2 + length w3))) by lia.
    rewrite <- drop_drop, E.
    rewrite <- drop_drop, drop_app_length.
    rewrite <- drop_drop, drop_app_length.
    by rewrite drop_app_length. }
  rewrite <- Hrest in *.
  exists pv, w1, w2, w3. split; [done|]. split; [|done].
  unfold captured, substring. rewrite Hgr, C.
  replace (index m + length w1 + length w2 - (index m + length w1))
    with (length w2) by lia.
  rewrite <- drop_drop, E, drop_app_length. by rewrite take_app_length.
Qed.

Lemma denotes_Lit_exact (l : jsstring) (pv : option cu) (w post : jsstring) :
  denotes false (Lit l) pv w post → w = l.
Proof.
  revert pv w post. induction l as [|c l IH]; intros pv w post; simpl.
  - done.
  - intros (w1 & w2 & -> & (d & -> & Hd) & H). apply IH in H as ->.
    unfold char_eq in Hd. apply N.eqb_eq in Hd as ->. done.
Qed.

Lemma denotes_Plus (ic : bool) (p : cu → bool) (pv : option cu)
    (w post : jsstring) :
  denotes ic (Plus p) pv w post → w ≠ [] ∧ Forall (λ c, p c = true) w.
Proof.
  simpl. intros (w1 & w2 & -> & (d & -> & Hd) & H).
  split; [done | by constructor].
Qed.

(** ** What the analyzer reports *)

Lemma set_add_elem (set : list jsstring) (x y : jsstring) :
  y ∈ set_add set x ↔ y ∈ set ∨ y = x.
Proof.
  unfold set_add. destruct (existsb (JsString.eqb x) set) eqn:E.
  - apply existsb_elem_of in E as (z & Hz & ->%eqb_spec).
    split; [by left | by intros [?| ->]].
  - rewrite elem_of_app, list_elem_of_singleton. done.
Qed.

Lemma set_add_NoDup (set : list jsstring) (x : jsstring) :
  NoDup set → NoDup (set_add set x).
Proof.
  intros Hset. unfold set_add.
  destruct (existsb (JsString.eqb x) set) eqn:E; [done|].
  apply NoDup_app. split; [done|]. split; [|apply NoDup_singleton].
  intros y Hy ->%list_elem_of_singleton.
  assert (existsb (JsString.eqb x) set = true); [|congruence].
  apply existsb_elem_of. exists x. by rewrite eqb_refl.
Qed.

(** A [Set] filled in a loop: it has no repetition, and it holds what the
    loop added. *)
Lemma fold_set_add (keep : jsstring → bool) (xs acc : list jsstring) :
  let result :=
    fold_left (λ set v, if keep v then set_add set v else set) xs acc in
  (NoDup acc → NoDup result)
  ∧ ∀ y, y ∈ result ↔ y ∈ acc ∨ (y ∈ xs ∧ keep y = true).
Proof.
  revert acc. induction xs as [|x xs IH]; intros acc; simpl.
  - split; [done|]. intros y. rewrite elem_of_nil. tauto.
  - destruct (IH (if keep x then set_add acc x else acc)) as [Hnd Hin].
    split.
    + intros H. apply Hnd. destruct (keep x); [by apply set_add_NoDup | done].
    + intros y. rewrite Hin, elem_of_cons. destruct (keep x) eqn:Ex.
      * rewrite set_add_elem. split; [|tauto].
        intros [[?| ->]|?]; tauto.
      * split; [tauto|]. intros [?|[[->|?] ?]]; [tauto | congruence | tauto].
Qed.

Lemma css_classes_fold (cssContent : jsstring) :
  css_classes cssContent
  = fold_left (λ set v, if true then set_add set v else set)
      (map (captured cssContent) (matchAll false classRegex cssContent)) [].
Proof.
  unfold css_classes. generalize (@nil jsstring).
  induction (matchAll false classRegex cssContent) as [|m ms IH];
    intros acc; [done|]. simpl. apply IH.
Qed.

Lemma captured_of_matchAll (ic : bool) (r : regex) (subject v : jsstring) :
  v ∈ map (captured subject) (matchAll ic r subject) →
  ∃ lastIndex m, exec ic r subject lastIndex = Some m ∧ captured subject m = v.
Proof.
  intros H. apply list_elem_of_In, in_map_iff in H as (m & <- & Hm).
  apply list_elem_of_In, matchAll_from_exec in Hm as (lastIndex & Hm).
  by exists lastIndex, m.
Qed.

Lemma contains_drop (s p post : jsstring) (i : nat) :
  drop i s = p ++ post → contains s p.
Proof.
  intros H. exists (take i s), post.
  rewrite <- H. by rewrite take_drop.
Qed.

(** The class names read off a stylesheet, whatever it holds: no name is
    listed twice, and each is a non-empty run of letters, digits,
    underscores and hyphens that the stylesheet holds right after a dot. *)
Theorem css_classes_are_dotted_names (cssContent : jsstring) :
  NoDup (css_classes cssContent)
  ∧ ∀ c, c ∈ css_classes cssContent →
         c ≠ []
         ∧ Forall (λ d, is_class_char d = true) c
         ∧ contains cssContent (dot_sign :: c).
Proof.
  rewrite css_classes_fold.
  destruct (fold_set_add (λ _, true)
              (map (captured cssContent)
                 (matchAll false classRegex cssContent)) [])
    as [Hnd Hin].
  split; [apply Hnd; constructor|].
  intros c Hc. apply Hin in Hc as [Hc|[Hc _]]; [by apply elem_of_nil in Hc|].
  apply captured_of_matchAll in Hc as (lastIndex & m & Hm & <-).
  apply (exec_group false [Char dot_sign] (Plus is_class_char) []) in Hm
    as (pv & w1 & w2 & w3 & Hdrop & -> & D1 & D2 & D3); [|done..].
  apply denotes_Plus in D2 as [Hne Hall].
  split; [done|]. split; [done|].
  destruct D1 as (d & e & -> & (d' & -> & Hd) & ->).
  unfold char_eq in Hd. apply N.eqb_eq in Hd as <-.
  eapply contains_drop. rewrite Hdrop. cbn [app].
  change (dot_sign :: w2 ++ w3 ++ drop (stop m) cssContent)
    with ((dot_sign :: w2) ++ w3 ++ drop (stop m) cssContent).
  reflexivity.
Qed.


Lemma analyze_script_stylesheet_part (jsContent : jsstring) (result : analysis) :
  variants (analyze_script jsContent result) = variants result
  ∧ classes (a_structure (analyze_script jsContent result))
    = classes (a_structure result)
  ∧ flags (a_structure (analyze_script jsContent result))
    = flags (a_structure result)
  ∧ a_blockName (analyze_script jsContent result) = a_blockName result.
Proof.
  unfold analyze_script.
  by destruct (exec false jsdocRegex jsContent 0),
       (exec false exportRegex jsContent 0).
Qed.

Lemma analyze_stylesheet_script_part (cssContent blockName : jsstring)
    (result : analysis) :
  description (analyze_stylesheet cssContent blockName result)
  = description result
  ∧ functionName (a_structure (analyze_stylesheet cssContent blockName result))
    = functionName (a_structure result)
  ∧ a_blockName (analyze_stylesheet cssContent blockName result)
    = a_blockName result.
Proof. done. Qed.

(** What the fields of an analysis have to do with each other, whatever the
    source holds.  The structure flags are those of the listed classes; the
    description and the function name come from the script alone, and the
    variants, the classes and the flags from the stylesheet alone; a block
    without a script has neither description nor function name, and a block
    without a stylesheet has no variant, no class and no flag set. *)
Theorem analyzeBlock_fields (src : source) (blockName : jsstring) :
  let result := analyzeBlock src blockName in
  a_blockName result = blockName
  ∧ hasJS result = content_truthy (getFileContent src (js_path blockName))
  ∧ hasCSS result = content_truthy (getFileContent src (css_path blockName))
  ∧ flags (a_structure result)
    = detectStructureFeatures (classes (a_structure result))
  ∧ (hasJS result = false →
     description result = None ∧ functionName (a_structure result) = None)
  ∧ (hasCSS result = false →
     variants result = [] ∧ classes (a_structure result) = []
     ∧ flags (a_structure result) = no_features)
  ∧ (∀ css, getFileContent src (css_path blockName) = Some css → css ≠ [] →
     variants result = css_variants css blockName
     ∧ classes (a_structure result) = css_classes css)
  ∧ (∀ js, getFileContent src (js_path blockName) = Some js → js ≠ [] →
     description result
     = captured js <$> exec false jsdocRegex js 0
     ∧ functionName (a_structure result)
       = captured js <$> exec false exportRegex js 0).
Proof.
  unfold analyzeBlock. fold (js_path blockName). fold (css_path blockName).
  destruct (getFileContent src (js_path blockName)) as [[|c js]|];
    destruct (getFileContent src (css_path blockName)) as [[|d css]|];
    cbn [truthy content_truthy]; repeat apply conj; intros;
    repeat match goal with
      | H : Some _ = Some _ |- _ => injection H as <-
      | H : Some _ = None |- _ => discriminate H
      | H : None = Some _ |- _ => discriminate H
      | H : [] ≠ [] |- _ => by destruct H
      | H : _ = false |- _ => revert H
      end;
    unfold analyze_script;
    repeat match goal with
      | |- context [exec false ?r ?s 0] => destruct (exec false r s 0)
      end;
    done.
Qed.

(** The script fields of an analysis, read off the script. *)
Lemma analyzeBlock_script_part (src : source) (blockName : jsstring) :
  let found (r : regex) :=
    match getFileContent src (js_path blockName) with
    | Some js =>
        if truthy js then captured js <$> exec false r js 0 else None
    | None => None
    end in
  description (analyzeBlock src blockName) = found jsdocRegex
  ∧ functionName (a_structure (analyzeBlock src blockName))
    = found exportRegex.
Proof.
  unfold analyzeBlock. fold (js_path blockName). fold (css_path blockName).
  destruct (getFileContent src (js_path blockName)) as [[|c js]|];
    destruct (getFileContent src (css_path blockName)) as [[|d css]|];
    cbn [truthy]; unfold analyze_script;
    repeat match goal with
      | |- context [exec false ?r ?s 0] => destruct (exec false r s 0)
      end;
    done.
Qed.

Lemma char_eq_exact (c d : cu) : char_eq false c d = true → d = c.
Proof. unfold char_eq. by intros <-%N.eqb_eq. Qed.

(** Where the description and the function name of an analysis come from.
    The description is a non-empty piece of one line of the script: the
    script holds the opening of a JSDoc comment, white space with a line
    feed in it, an asterisk, white space, the description, white space and
    a line feed.  The function name is a non-empty run of word characters
    that the script holds after the word [function] and white space. *)
Theorem analyzeBlock_script_fields (src : source) (blockName : jsstring) :
  let result := analyzeBlock src blockName in
  (∀ d, description result = Some d →
     d ≠ [] ∧ Forall (λ c, is_dot c = true) d
     ∧ ∃ js s1 s2 s3 s4,
         getFileContent src (js_path blockName) = Some js
         ∧ spaces s1 ∧ spaces s2 ∧ spaces s3 ∧ spaces s4
         ∧ contains js
             (str "/**" ++ s1 ++ [10%N] ++ s2 ++ str "*" ++ s3 ++ d ++ s4
                ++ [10%N]))
  ∧ (∀ f, functionName (a_structure result) = Some f →
     f ≠ [] ∧ Forall (λ c, is_word c = true) f
     ∧ ∃ js s,
         getFileContent src (js_path blockName) = Some js
         ∧ s ≠ [] ∧ spaces s
         ∧ contains js (str "function" ++ s ++ f)).
Proof.
  intros result. subst result.
  destruct (analyzeBlock_script_part src blockName) as [-> ->].
  destruct (getFileContent src (js_path blockName)) as [js|] eqn:Ejs;
    [|by split].
  destruct (truthy js); [|by split].
  split.
  - intros d Hd.
    destruct (exec false jsdocRegex js 0) as [m|] eqn:Hm; [|done].
    injection Hd as <-.
    apply (exec_group false
             [Lit (str "/**"); Star is_space; Char 10%N; Star is_space;
              Char 42%N; Star is_space]
             (PlusLazy is_dot) [Star is_space; Char 10%N]) in Hm
      as (pv & w1 & w2 & w3 & Hdrop & -> & D1 & [Hne Hall] & D3); [|done..].
    split; [done|]. split; [done|].
    cbn [Cat denotes] in D1, D3.
    destruct D1 as (open & r1 & -> & Hopen & D1).
    destruct D1 as (s1 & r2 & -> & Hs1 & D1).
    destruct D1 as (n1 & r3 & -> & Hn1 & D1).
    destruct D1 as (s2 & r4 & -> & Hs2 & D1).
    destruct D1 as (a & r5 & -> & Ha & D1).
    destruct D1 as (s3 & e & -> & Hs3 & ->).
    destruct D3 as (s4 & r6 & -> & Hs4 & D3).
    destruct D3 as (n2 & e & -> & Hn2 & ->).
    apply denotes_Lit_exact in Hopen as ->.
    destruct Hn1 as (? & -> & ->%char_eq_exact).
    destruct Hn2 as (? & -> & ->%char_eq_exact).
    destruct Ha as (? & -> & ->%char_eq_exact).
    exists js, s1, s2, s3, s4. split; [done|]. do 4 (split; [done|]).
    apply (contains_drop _ _ (drop (stop m) js) (index m)).
    rewrite Hdrop. rewrite !app_nil_r. by rewrite <- !app_assoc.
  - intros f Hf.
    destruct (exec false exportRegex js 0) as [m|] eqn:Hm; [|done].
    injection Hf as <-.
    apply (exec_group false
             [Lit (str "export"); Plus is_space; Lit (str "default");
              Plus is_space; Opt (Cat [Lit (str "async"); Plus is_space]);
              Lit (str "function"); Plus is_space]
             (Plus is_word) []) in Hm
      as (pv & w1 & w2 & w3 & Hdrop & -> & D1 & D2 & D3); [|done..].
    apply denotes_Plus in D2 as [Hne Hall].
    split; [done|]. split; [done|].
    cbn [Cat denotes] in D1, D3. subst w3.
    destruct D1 as (e1 & r1 & -> & _ & D1).
    destruct D1 as (e2 & r2 & -> & _ & D1).
    destruct D1 as (e3 & r3 & -> & _ & D1).
    destruct D1 as (e4 & r4 & -> & _ & D1).
    destruct D1 as (e5 & r5 & -> & _ & D1).
    destruct D1 as (fn & r6 & -> & Hfn & D1).
    destruct D1 as (s & e & -> & Hs & ->).
    apply denotes_Lit_exact in Hfn as ->.
    apply denotes_Plus in Hs as [Hs0 Hs].
    exists js, s. split; [done|]. split; [done|]. split; [done|].
    exists (take (index m) js ++ e1 ++ e2 ++ e3 ++ e4 ++ e5),
      (drop (stop m) js).
    rewrite <- (take_drop (index m) js) at 1. rewrite Hdrop.
    rewrite !app_nil_r. by rewrite <- !app_assoc.
Qed.

(** ** The structure flags of more classes *)

Lemma existsb_subset {A : Type} (f : A → bool) (l l' : list A) :
  (∀ x, x ∈ l → x ∈ l') → existsb f l = true → existsb f l' = true.
Proof.
  intros H. rewrite !existsb_elem_of. intros (x & Hx & Hf).
  exists x. split; [by apply H | done].
Qed.

(** The flags of two lists of classes put together are the flags of the one
    or of the other, and no class sets any flag when it comes alone in an
    empty list; so a longer list never clears a flag. *)
Theorem detectStructureFeatures_union (classes classes' : list jsstring) :
  detectStructureFeatures (classes ++ classes')
  = flags_or (detectStructureFeatures classes)
      (detectStructureFeatures classes')
  ∧ detectStructureFeatures [] = no_features
  ∧ ((∀ c, c ∈ classes → c ∈ classes') →
     flags_le (detectStructureFeatures classes)
       (detectStructureFeatures classes')).
Proof.
  split; [|split; [done|]].
  - unfold detectStructureFeatures, flags_or, some_includes. cbn.
    by rewrite !existsb_app.
  - intros H. unfold flags_le, detectStructureFeatures, some_includes. cbn.
    repeat split; by apply existsb_subset.
Qed.

(** ** The files of a block *)

Lemma endsWith_spec (s p : jsstring) :
  endsWith s p = true ↔ ∃ stem, s = stem ++ p.
Proof.
  unfold endsWith. rewrite startsWith_spec. split.
  - intros [post H]. exists (rev post).
    apply (f_equal (@rev cu)) in H.
    by rewrite rev_involutive, rev_app_distr, rev_involutive in H.
  - intros [stem ->]. exists (rev stem). by rewrite rev_app_distr.
Qed.

Lemma script_or_stylesheet_spec (name : jsstring) :
  script_or_stylesheet name = true ↔ script_or_stylesheet_name name.
Proof.
  unfold script_or_stylesheet, script_or_stylesheet_name.
  by rewrite orb_true_iff, !endsWith_spec.
Qed.

Lemma content_truthy_spec (content : option jsstring) :
  content_truthy content = true ↔ ∃ c text, content = Some (c :: text).
Proof.
  destruct content as [[|c text]|]; simpl.
  - split; [done | by intros (? & ? & ?)].
  - split; [by exists c, text | done].
  - split; [done | by intros (? & ? & ?)].
Qed.

Lemma analyzeBlock_has_files (src : source) (blockName : jsstring) :
  hasJS (analyzeBlock src blockName)
  = content_truthy (getFileContent src (js_path blockName))
  ∧ hasCSS (analyzeBlock src blockName)
    = content_truthy (getFileContent src (css_path blockName)).
Proof.
  unfold analyzeBlock. fold (js_path blockName). fold (css_path blockName).
  destruct (getFileContent src (js_path blockName)) as [[|c js]|];
    destruct (getFileContent src (css_path blockName)) as [[|d css]|];
    cbn [truthy content_truthy];
    rewrite ?analyze_stylesheet_hasJS; unfold analyze_script;
    repeat match goal with
      | |- context [exec false ?r ?s 0] => destruct (exec false r s 0)
      end;
    done.
Qed.

(** The loop over the read-me names: the content of the first name whose
    file has text, and nothing when no name has such a file. *)
Lemma first_readme_spec (src : source) (blockName : jsstring)
    (names : list jsstring) :
  match first_readme src blockName names with
  | Some content =>
      content ≠ []
      ∧ ∃ before readme after,
          names = before ++ readme :: after
          ∧ getFileContent src (file_path blockName readme) = Some content
          ∧ Forall (λ n, ¬ has_text src blockName n) before
  | None => Forall (λ n, ¬ has_text src blockName n) names
  end.
Proof.
  induction names as [|readme names IH]; simpl; [constructor|].
  change (buildBlockFilePath blockName readme)
    with (file_path blockName readme).
  assert (Hskip :
    ¬ has_text src blockName readme →
    match first_readme src blockName names with
    | Some content =>
        content ≠ []
        ∧ ∃ before readme' after,
            readme :: names = before ++ readme' :: after
            ∧ getFileContent src (file_path blockName readme') = Some content
            ∧ Forall (λ n, ¬ has_text src blockName n) before
    | None => Forall (λ n, ¬ has_text src blockName n) (readme :: names)
    end).
  { intros Hno. destruct (first_readme src blockName names) as [content|].
    - destruct IH as (Hne & before & r & after & -> & Hr & Hb).
      split; [done|]. exists (readme :: before), r, after.
      split; [done|]. split; [done | by constructor].
    - by constructor. }
  destruct (getFileContent src (file_path blockName readme))
    as [[|c text]|] eqn:E; cbn [truthy].
  - apply Hskip. intros (? & ? & ?). congruence.
  - split; [done|]. exists [], readme, names. split; [done|].
    split; [done | constructor].
  - apply Hskip. intros (? & ? & ?). congruence.
Qed.

(** The files of a block, as [getBlockFiles] gives them.  Its two flags for
    the script and the stylesheet are those of the listing and of the
    analysis, and each is set exactly when the file has text; the contents
    are handed over as the source gives them, an empty file included.  The
    read-me is the first of [README.md], [readme.md] and [README.MD] that
    has text; it is never the empty string, so its flag says exactly
    whether there is one. *)
Theorem getBlockFiles_flags_and_readme (src : source) (blockName : jsstring) :
  let files := getBlockFiles src blockName in
  f_hasJS files = e_hasJS (checkBlockFiles src blockName)
  ∧ f_hasJS files = hasJS (analyzeBlock src blockName)
  ∧ f_hasCSS files = e_hasCSS (checkBlockFiles src blockName)
  ∧ f_hasCSS files = hasCSS (analyzeBlock src blockName)
  ∧ (f_hasJS files = true ↔ has_text src blockName (blockName ++ str ".js"))
  ∧ (f_hasCSS files = true ↔ has_text src blockName (blockName ++ str ".css"))
  ∧ jsContent files = getFileContent src (js_path blockName)
  ∧ cssContent files = getFileContent src (css_path blockName)
  ∧ (f_hasReadme files = true ↔ is_Some (readmeContent files))
  ∧ match readmeContent files with
    | Some content =>
        content ≠ []
        ∧ ∃ before readme after,
            [str "README.md"; str "readme.md"; str "README.MD"]
            = before ++ readme :: after
            ∧ getFileContent src (file_path blockName readme) = Some content
            ∧ Forall (λ n, ¬ has_text src blockName n) before
    | None =>
        ¬ has_text src blockName (str "README.md")
        ∧ ¬ has_text src blockName (str "readme.md")
        ∧ ¬ has_text src blockName (str "README.MD")
    end.
Proof.
  intros files. subst files.
  destruct (analyzeBlock_has_files src blockName) as [-> ->].
  unfold getBlockFiles, checkBlockFiles, tryGetReadme.
  cbn [f_hasJS f_hasCSS f_hasReadme e_hasJS e_hasCSS jsContent cssContent
       readmeContent].
  do 4 (split; [done|]).
  split; [apply content_truthy_spec|]. split; [apply content_truthy_spec|].
  split; [done|]. split; [done|].
  pose proof (first_readme_spec src blockName readmeVariants) as H.
  destruct (first_readme src blockName readmeVariants) as [content|].
  - destruct H as [Hne H]. split; [|by split].
    destruct content; [done|]. by split.
  - split; [split; [done | by intros [? ?]]|].
    unfold readmeVariants in H.
    apply Forall_cons in H as [H1 H]. apply Forall_cons in H as [H2 H].
    by apply Forall_cons in H as [H3 _].
Qed.

(** ** Listing the blocks of a source *)

Section ToolProperties.

Variable cwd : jsstring.
Variable resolve : jsstring → jsstring → jsstring.
Variable isDirectory : jsstring → bool.
Variable git_remote : option git_metadata.
Variable path_join : jsstring → jsstring → jsstring.
Variable readFile : jsstring → outcome jsstring.
Variable readdir : jsstring → outcome (list dirent).
Variable access : jsstring → outcome unit.
Variable ghGetFileContent :
  jsstring → jsstring → jsstring → jsstring → outcome (option jsstring).
Variable ghListDirectories :
  jsstring → jsstring → jsstring → jsstring → outcome (list directory).
Variable getContent :
  jsstring → jsstring → jsstring → jsstring → outcome gh_data.

Local Abbreviation resolveSource :=
  (resolveBlockSource cwd resolve isDirectory git_remote).
Local Abbreviation directories_of :=
  (source_listDirectories readdir ghListDirectories).
Local Abbreviation content_of :=
  (source_getFileContent path_join readFile ghGetFileContent).
Local Abbreviation exists_in := (source_fileExists path_join access getContent).
Local Abbreviation files_of := (source_listFiles path_join readdir getContent).
Local Abbreviation list_tool :=
  (da_blocks_list cwd resolve isDirectory git_remote path_join readFile
     readdir ghGetFileContent ghListDirectories).

(** The listing tool fails only when the source cannot be resolved; reading
    the source never makes it fail.  It lists one entry per directory of
    the source, in the order of the directories and under their names, and
    counts them.  With a GitHub source it always answers, and a failing
    request for the directories gives the empty listing; a local directory
    that cannot be read gives the empty listing too. *)
Theorem da_blocks_list_outcome (args : source_args) :
  match resolveSource args with
  | Thrown e => list_tool args = Thrown e
  | Returned r =>
      ∃ l, list_tool args = Returned l
           ∧ l_source l = r_metadata r
           ∧ totalBlocks l = length (directories_of (r_source r))
           ∧ map name (blocks l) = map dir_name (directories_of (r_source r))
           ∧ Forall (λ e, type e = str "dir") (blocks l)
  end
  ∧ (∀ g, github args = Some g →
       ∃ l, list_tool args = Returned l
            ∧ l_source l = MetaGitHub g
            ∧ (∀ e, ghListDirectories (org g) (repo g)
                      (or_default (blocksPath g) (str "blocks"))
                      (or_default (branch g) (str "main")) = Thrown e →
                    totalBlocks l = 0 ∧ blocks l = []))
  ∧ (∀ r p e, resolveSource args = Returned r →
       r_source r = LocalSource (AtPath p) → readdir p = Thrown e →
       ∃ l, list_tool args = Returned l ∧ totalBlocks l = 0 ∧ blocks l = [])
  ∧ (∀ r p entries, resolveSource args = Returned r →
       r_source r = LocalSource (AtPath p) → readdir p = Returned entries →
       ∃ l, list_tool args = Returned l
            ∧ map name (blocks l)
              = map ent_name (List.filter ent_isDirectory entries)).
Proof.
  unfold da_blocks_list, resolved_source.
  split; [|split; [|split]].
  - destruct (resolveSource args) as [r|e]; [|done]. cbn.
    eexists. split; [reflexivity|]. cbn.
    unfold listBlocks. cbn. rewrite length_map, map_map. cbn.
    split; [done|]. split; [done|]. split; [done|].
    apply Forall_forall. intros e He.
    by apply list_elem_of_In, in_map_iff in He as (d & <- & _).
  - intros g Hg. destruct args as [gh ul lp]. cbn in Hg. subst gh. cbn.
    eexists. split; [reflexivity|]. cbn. split; [done|].
    intros e He. unfold listBlocks. cbn. by rewrite He.
  - intros r p e -> Hr He. cbn. eexists. split; [reflexivity|]. cbn.
    unfold listBlocks. cbn. rewrite Hr. cbn. by rewrite He.
  - intros r p entries -> Hr He. cbn. eexists. split; [reflexivity|]. cbn.
    unfold listBlocks. cbn. rewrite Hr. cbn. rewrite He.
    by rewrite !map_map.
Qed.

Local Abbreviation analyze_tool :=
  (da_blocks_analyze cwd resolve isDirectory git_remote path_join readFile
     readdir ghGetFileContent ghListDirectories).
Local Abbreviation files_tool :=
  (da_blocks_get_files cwd resolve isDirectory git_remote path_join readFile
     readdir ghGetFileContent ghListDirectories).


(** [createBlockSource] never throws: each of its two errors stands behind
    a test of a promise that was not awaited, and a promise is truthy.
    Unless it is given a local path, or a GitHub repository without the
    local flag, the source it returns has that promise for its root, and
    then every one of its methods catches a type error: no file has
    content or exists, and no directory and no file is listed. *)
Theorem createBlockSource_never_throws (config : source_args) :
  ∃ s, createBlockSource cwd resolve isDirectory config = Returned s
       ∧ (s = LocalSource (AtPromise (detectLocalBlocksDir cwd resolve isDirectory))
          ↔ content_truthy (localBlocksPath config) = false
            ∧ (flag_truthy (useLocal config) = true ∨ github config = None))
       ∧ (content_truthy (localBlocksPath config) = false →
          flag_truthy (useLocal config) = true ∨ github config = None →
          (∀ path, content_of s path = None)
          ∧ directories_of s = []
          ∧ (∀ path, exists_in s path = false)
          ∧ (∀ blockName, files_of s blockName = [])).
Proof.
  destruct config as [gh ul lp]. unfold createBlockSource.
  destruct ul as [[|]|], lp as [[|c lp]|], gh as [g|]; cbn;
    eexists; (split; [reflexivity|]);
    (split;
     [split;
      [intros H; try discriminate H;
       (split; [done | first [by left | by right]])
      | intros [H1 [H2|H2]]; done]
     | intros H1 [H2|H2]; done]).
Qed.

(** The files that a source lists for a block: the names, among those of the
    entries of the directory of the block, that end with [.js] or with
    [.css]; for a GitHub source only entries of type [file] count.  A
    directory that cannot be read gives no file. *)
Theorem source_listFiles_names (s : block_source) (blockName : jsstring) :
  (∀ name, name ∈ files_of s blockName → script_or_stylesheet_name name)
  ∧ (∀ p, s = LocalSource (AtPath p) →
       match readdir (path_join p blockName) with
       | Returned entries =>
           ∀ name, name ∈ files_of s blockName
                   ↔ name ∈ map ent_name entries
                     ∧ script_or_stylesheet_name name
       | Thrown _ => files_of s blockName = []
       end)
  ∧ (∀ org repo branch blocksPath,
       s = GitHubSource org repo branch blocksPath →
       match getContent org repo (blocksPath ++ str "/" ++ blockName) branch
       with
       | Returned (GhArray files) =>
           ∀ name, name ∈ files_of s blockName
                   ↔ ∃ f, f ∈ files ∧ gh_name f = name
                          ∧ gh_type f = str "file"
                          ∧ script_or_stylesheet_name name
       | Returned (GhOne f) =>
           files_of s blockName
           = if JsString.eqb (gh_type f) (str "file")
                && script_or_stylesheet (gh_name f)
             then [gh_name f] else []
       | Thrown _ => files_of s blockName = []
       end).
Proof.
  assert (Hlocal : ∀ entries name,
            name ∈ List.filter script_or_stylesheet (map ent_name entries)
            ↔ name ∈ map ent_name entries ∧ script_or_stylesheet_name name).
  { intros entries name.
    by rewrite !list_elem_of_In, filter_In, script_or_stylesheet_spec. }
  assert (Hgh : ∀ files name,
            name ∈ map gh_name
                     (List.filter
                        (λ f, JsString.eqb (gh_type f) (str "file")
                              && script_or_stylesheet (gh_name f)) files)
            ↔ ∃ f, f ∈ files ∧ gh_name f = name ∧ gh_type f = str "file"
                   ∧ script_or_stylesheet_name name).
  { intros files name. rewrite list_elem_of_In, in_map_iff. split.
    - intros (f & <- & Hf). apply filter_In in Hf as [Hf Hk].
      apply andb_true_iff in Hk as [Ht Hn]. exists f.
      rewrite list_elem_of_In, <- script_or_stylesheet_spec.
      by apply eqb_spec in Ht.
    - intros (f & Hf & <- & Ht & Hn). exists f. split; [done|].
      apply filter_In. rewrite <- list_elem_of_In. split; [done|].
      apply andb_true_iff. by rewrite eqb_spec, script_or_stylesheet_spec. }
  split; [|split].
  - intros name. destruct s as [[p|pending]|org repo branch blocksPath]; cbn.
    + destruct (readdir _); [|by intros ?%elem_of_nil].
      by intros [_ ?]%Hlocal.
    + by intros ?%elem_of_nil.
    + destruct (getContent _ _ _ _) as [data|]; [|by intros ?%elem_of_nil].
      by intros (f & _ & _ & _ & ?)%Hgh.
  - intros p ->. cbn. by destruct (readdir _).
  - intros org repo branch blocksPath ->. cbn.
    destruct (getContent _ _ _ _) as [[files|f]|]; [done| |done].
    cbn. by destruct (_ && _).
Qed.

End ToolProperties.

(** ** Writing and checking the documentation of a block *)

Section AuthoringProperties.

Variable validateBlockName : jsstring → validation.
Variable buildLibraryPath : jsstring → jsstring → jsstring → jsstring.
Variable buildContentUrl : jsstring → jsstring → jsstring → jsstring.
Variable formatURL :
  jsstring → jsstring → jsstring → jsstring → jsstring → jsstring.
Variable LIBRARY_TYPES_BLOCKS : jsstring.
Variable daAdminRequest : jsstring → outcome response.
Variable documents : Type.
Variable uploadHTML :
  jsstring → jsstring → documents → outcome unit * documents.

Local Abbreviation create :=
  (createBlockDoc validateBlockName buildLibraryPath buildContentUrl formatURL
     LIBRARY_TYPES_BLOCKS documents uploadHTML).
Local Abbreviation check_doc :=
  (checkBlockDocExists validateBlockName buildLibraryPath buildContentUrl
     formatURL LIBRARY_TYPES_BLOCKS daAdminRequest).

(** Writing the documentation of a block and checking for it agree.  A name
    that does not validate makes both throw the same error, and the write
    leaves the documents as they are.  For a valid name the write uploads
    to the address that the check requests; what the upload throws is
    thrown on, and when it returns, the path and the address reported are
    those that the check reports, whatever the check finds. *)
Theorem createBlockDoc_agrees_with_check
    (org repo blockName htmlContent baseFolder : jsstring) (docs : documents) :
  let docPath := buildLibraryPath LIBRARY_TYPES_BLOCKS baseFolder blockName in
  let address := formatURL (str "source") org repo docPath (str "html") in
  if valid (validateBlockName blockName) then
    fst (create org repo blockName htmlContent baseFolder docs)
    = (_ ← fst (uploadHTML address htmlContent docs);
       mret (CreatedDoc true docPath (buildContentUrl org repo docPath) None))
    ∧ snd (create org repo blockName htmlContent baseFolder docs)
      = snd (uploadHTML address htmlContent docs)
    ∧ (∀ doc found,
         fst (create org repo blockName htmlContent baseFolder docs)
         = Returned doc →
         check_doc org repo blockName baseFolder = Returned found →
         created doc = true ∧ c_error doc = None
         ∧ c_path doc = path found ∧ c_url doc = url found)
    ∧ (∀ e, daAdminRequest address = Thrown e → mentions_404 e = false →
         check_doc org repo blockName baseFolder = Thrown e)
  else
    create org repo blockName htmlContent baseFolder docs
    = (Thrown (new_Error (error (validateBlockName blockName))), docs)
    ∧ check_doc org repo blockName baseFolder
      = Thrown (new_Error (error (validateBlockName blockName))).
Proof.
  unfold createBlockDoc, checkBlockDocExists.
  destruct (valid (validateBlockName blockName)); cbn [negb]; [|done].
  destruct (uploadHTML _ htmlContent docs) as [[[]|e] docs'] eqn:Eu; cbn.
  - split; [done|]. split; [done|]. split.
    + intros doc found [= <-]. cbn.
      destruct (daAdminRequest _) as [?|e]; [by intros [= <-]|].
      destruct (mentions_404 e); [by intros [= <-] | done].
    + intros e -> ->. done.
  - split; [done|]. split; [done|]. split; [done|].
    intros e' -> ->. done.
Qed.

End AuthoringProperties.

(** ** The folder of the placeholders *)

Lemma app_placeholders_inj (a b : jsstring) :
  a ++ str "/placeholders" = b ++ str "/placeholders" → a = b.
Proof. apply app_inv_tail. Qed.

(** The sheet of placeholders of a folder.  Its path starts with a slash
    and ends with [/placeholders].  Two folders have the same sheet exactly
    when both are empty, or neither is and they are the same up to one
    leading slash; so a lone slash is not the root. *)
Theorem getPlaceholdersPath_same_sheet (p q : jsstring) :
  (∃ stem, getPlaceholdersPath p = stem ++ str "/placeholders"
           ∧ head (getPlaceholdersPath p) = Some slash
           ∧ (p ≠ [] → stem = slash :: without_slash p))
  ∧ (getPlaceholdersPath p = getPlaceholdersPath q
     ↔ (p = [] ∧ q = [])
       ∨ (p ≠ [] ∧ q ≠ [] ∧ without_slash p = without_slash q)).
Proof.
  assert (Hshape : ∀ c s,
            getPlaceholdersPath (c :: s)
            = (slash :: without_slash (c :: s)) ++ str "/placeholders").
  { intros c s. unfold getPlaceholdersPath, without_slash, slice.
    cbn [truthy negb orb JsString.eqb startsWith drop].
    unfold slash. destruct (c =? 47)%N; by rewrite ?andb_true_r. }
  split.
  - destruct p as [|c s].
    + exists []. by split.
    + rewrite Hshape. eexists. split; [done|]. by split.
  - destruct p as [|c s], q as [|d t]; rewrite ?Hshape.
    + split; [by left | done].
    + split; [|by intros [[? ?]|(? & ? & ?)]].
      change (getPlaceholdersPath []) with ([] ++ str "/placeholders").
      by intros ?%app_placeholders_inj.
    + split; [|by intros [[? ?]|(? & ? & ?)]].
      change (getPlaceholdersPath []) with ([] ++ str "/placeholders").
      by intros ?%app_placeholders_inj.
    + split.
      * intros [= H]%app_placeholders_inj. right. by split.
      * intros [[? ?]|(_ & _ & ->)]; done.
Qed.

(** ** The sections of a template *)

Section TemplateProperties.

Variable toUpperCase : jsstring → jsstring.
Variable inherited_text : jsstring → jsstring.

Local Abbreviation auto := (generateAutoDescription toUpperCase).
Local Abbreviation sections := (blockSections toUpperCase inherited_text).
Local Abbreviation section := (block_section toUpperCase inherited_text).
Local Abbreviation described_as := (autoDescription toUpperCase).

Lemma generateAutoDescription_not_empty (blockName : jsstring)
    (structure : features) (variants : option (list jsstring)) :
  auto blockName structure variants ≠ [].
Proof.
  unfold generateAutoDescription, capitalize.
  destruct structure as [[|] [|] [|] [|] bem], variants as [[|v vs]|];
    cbn; try discriminate.
  all: by intros [_ ?]%app_eq_nil.
Qed.


End TemplateProperties.

(** ** Patterns up to their groups *)

Lemma same_outcome_sym (o o' : option mstate) :
  same_outcome o o' → same_outcome o' o.
Proof.
  destruct o, o'; simpl; try done. unfold same_place. by intros (-> & -> & ->).
Qed.

Lemma same_outcome_trans (o1 o2 o3 : option mstate) :
  same_outcome o1 o2 → same_outcome o2 o3 → same_outcome o1 o3.
Proof.
  destruct o1, o2, o3; simpl; try done. unfold same_place.
  by intros (-> & -> & ->) (-> & -> & ->).
Qed.

Lemma one_same (k k' : mstate → option mstate) (p : cu → bool)
    (st st' : mstate) :
  (∀ s s', same_place s s' → same_outcome (k s) (k' s')) →
  same_place st st' → same_outcome (one p k st) (one p k' st').
Proof.
  intros Hk (E & P & V). unfold one. rewrite <- E, <- P.
  destruct (rest st) as [|c s]; [done|]. destruct (p c); [|done].
  by apply Hk.
Qed.

Lemma greedy_same (k k' : mstate → option mstate) (p : cu → bool)
    (s : jsstring) (i : nat) (pv : option cu) (cp cp' : option (nat * nat)) :
  (∀ s s', same_place s s' → same_outcome (k s) (k' s')) →
  same_outcome (greedy p k s i pv cp) (greedy p k' s i pv cp').
Proof.
  intros Hk. revert i pv. induction s as [|c s IH]; intros i pv; simpl;
    [by apply Hk|].
  destruct (p c); [|by apply Hk].
  specialize (IH (S i) (Some c)).
  destruct (greedy p k s (S i) (Some c) cp),
    (greedy p k' s (S i) (Some c) cp'); try done.
  by apply Hk.
Qed.

Lemma lazy_same (k k' : mstate → option mstate) (p : cu → bool)
    (s : jsstring) (i : nat) (pv : option cu) (cp cp' : option (nat * nat)) :
  (∀ s s', same_place s s' → same_outcome (k s) (k' s')) →
  same_outcome (lazy p k s i pv cp) (lazy p k' s i pv cp').
Proof.
  intros Hk. revert i pv. induction s as [|c s IH]; intros i pv; simpl.
  - assert (H : same_outcome (k (MState [] i pv cp)) (k' (MState [] i pv cp')))
      by (by apply Hk).
    by destruct (k (MState [] i pv cp)), (k' (MState [] i pv cp')).
  - assert (H : same_outcome (k (MState (c :: s) i pv cp))
                  (k' (MState (c :: s) i pv cp')))
      by (by apply Hk).
    destruct (k (MState (c :: s) i pv cp)), (k' (MState (c :: s) i pv cp'));
      try done.
    destruct (p c); [apply IH | done].
Qed.

(** Marking a part of a pattern as a group does not change what the
    pattern matches: the matcher ends at the same place with and without
    the groups. *)
Lemma run_erase (ic : bool) (r : regex) (k k' : mstate → option mstate)
    (st st' : mstate) :
  (∀ s s', same_place s s' → same_outcome (k s) (k' s')) →
  same_place st st' →
  same_outcome (run ic r k st) (run ic (erase r) k' st').
Proof.
  revert k k' st st'.
  induction r as [|c|p|r1 IH1 r2 IH2|p|p|r IH|r IH|];
    intros k k' st st' Hk Hst; cbn [run erase].
  - by apply Hk.
  - by apply one_same.
  - by apply one_same.
  - apply IH1; [|done]. intros s s' Hs. by apply IH2.
  - destruct Hst as (-> & -> & ->). by apply greedy_same.
  - apply one_same; [|done]. intros s s' (-> & -> & ->).
    by apply lazy_same.
  - specialize (IH k k' st st' Hk Hst).
    destruct (run ic r k st), (run ic (erase r) k' st'); try done.
    by apply Hk.
  - apply IH; [|done]. intros s s' (E & P & V). by apply Hk.
  - destruct Hst as (E & P & V). rewrite E, V.
    destruct (xorb _ _); [|done]. by apply Hk.
Qed.

Lemma run_same_shape (ic : bool) (r r' : regex) (st : mstate) :
  erase r = erase r' →
  same_outcome (run ic r Some st) (run ic r' Some st).
Proof.
  intros E. eapply same_outcome_trans.
  - apply (run_erase ic r Some Some st st); by intros.
  - rewrite E. apply same_outcome_sym.
    apply (run_erase ic r' Some Some st st); by intros.
Qed.

Lemma search_same_shape (ic : bool) (r r' : regex) (s : jsstring) (i : nat)
    (pv : option cu) :
  erase r = erase r' →
  same_span (search ic r s i pv) (search ic r' s i pv).
Proof.
  intros E. revert i pv. induction s as [|c s IH]; intros i pv; cbn [search].
  - pose proof (run_same_shape ic r r' (MState [] i pv None) E) as H.
    destruct (run ic r Some _) as [st|], (run ic r' Some _) as [st'|];
      try done.
    destruct H as (_ & P & _). by split.
  - pose proof (run_same_shape ic r r' (MState (c :: s) i pv None) E) as H.
    destruct (run ic r Some _) as [st|], (run ic r' Some _) as [st'|];
      try done.
    all: first [destruct H as (_ & P & _); by split | apply IH].
Qed.

(** Two patterns that differ by their groups only find the same match. *)
Lemma exec_same_shape (ic : bool) (r r' : regex) (subject : jsstring)
    (lastIndex : nat) :
  erase r = erase r' →
  same_span (exec ic r subject lastIndex) (exec ic r' subject lastIndex).
Proof.
  intros E. unfold exec. destruct (decide _); [|done].
  by apply search_same_shape.
Qed.

(** ** The remote of the local repository *)

Lemma first_occurrence_unique (c : cu) (l1 r1 l2 r2 : jsstring) :
  c ∉ l1 → c ∉ l2 → l1 ++ c :: r1 = l2 ++ c :: r2 → l1 = l2 ∧ r1 = r2.
Proof.
  revert l2. induction l1 as [|a l1 IH]; intros [|b l2] H1 H2; simpl.
  - by intros [= ->].
  - intros [= -> _]. destruct H2. by left.
  - intros [= -> _]. destruct H1. by left.
  - intros [= -> E]. apply IH in E as [-> ->]; [done|..].
    + intros H. apply H1. by right.
    + intros H. apply H2. by right.
Qed.

Lemma sublist_Forall (P : cu → Prop) (l w r : jsstring) :
  Forall P (l ++ w ++ r) → Forall P w.
Proof. by intros [_ [H _]%Forall_app]%Forall_app. Qed.

Lemma endsWith_last (s p : jsstring) (c : cu) :
  endsWith s (c :: p) = true → c ∈ s.
Proof.
  unfold endsWith. intros H. apply startsWith_spec in H as [post H].
  apply (f_equal (@rev cu)) in H. rewrite rev_involutive in H. rewrite H.
  simpl. rewrite !rev_app_distr, rev_involutive. simpl.
  rewrite elem_of_app, elem_of_cons. auto.
Qed.

Lemma without_git_suffix_no_dot (s : jsstring) :
  dot_sign ∉ s → Git.without_git_suffix s = s.
Proof.
  intros H. unfold Git.without_git_suffix.
  destruct (endsWith s (str ".git")) eqn:E; [|done].
  destruct H. by apply (endsWith_last s (str "git")).
Qed.

(** The two ways the pattern of the address is written find the same
    match. *)
Lemma githubRegex_same_match (url : jsstring) :
  same_span (exec false Git.githubRegex_org url 0)
    (exec false Git.githubRegex_repo url 0).
Proof. by apply exec_same_shape. Qed.

(** What [detectGitRemote] reports, whatever the configuration file holds.
    The remote is a piece of one line of the file, without white space at
    its ends, and the file holds the header of the remote named origin.
    The remote holds [github.com], a colon or a slash, the organisation, a
    slash and the repository, in that order; the organisation is not empty
    and has no slash, and the repository is not empty and has neither slash
    nor dot, so no [.git] is ever there to be taken off it, and a name with
    a dot is cut at the dot.  A file that cannot be read gives nothing. *)
Theorem detectGitRemote_parts (gitConfig : jsstring) (found : git_metadata) :
  Git.detectGitRemote (Returned gitConfig) = Some found →
  (∃ sep pre post,
      Git.is_separator sep = true
      ∧ remote found
        = pre ++ str "github.com" ++ sep :: git_org found
              ++ slash :: git_repo found ++ post)
  ∧ git_org found ≠ [] ∧ (slash ∉ git_org found)
  ∧ git_repo found ≠ [] ∧ (slash ∉ git_repo found)
  ∧ (dot_sign ∉ git_repo found)
  ∧ trimmed (remote found)
  ∧ Forall (λ c, is_dot c = true) (remote found)
  ∧ contains gitConfig (strq "[remote 'origin']")
  ∧ contains gitConfig (remote found)
  ∧ ∀ e, Git.detectGitRemote (Thrown e) = None.
Proof.
  unfold Git.detectGitRemote.
  destruct (exec false Git.remoteRegex gitConfig 0) as [m0|] eqn:H0; [|done].
  destruct (trim_spec (captured gitConfig m0)) as (l & r & El & _ & _ & Htrim).
  revert El Htrim. generalize (trim (captured gitConfig m0)).
  intros url El Htrim.
  pose proof (githubRegex_same_match url) as Hsame.
  destruct (exec false Git.githubRegex_org url 0) as [m1|] eqn:H1; [|done].
  destruct (exec false Git.githubRegex_repo url 0) as [m2|] eqn:H2; [|done].
  destruct Hsame as [Hi Hs]. intros [= <-]. cbn [git_org git_repo remote].
  apply (exec_group false
           [Lit (strq "[remote 'origin']"); Star (is_not Git.bracket);
            Lit (str "url"); Star is_space; Char 61%N; Star is_space]
           (Plus is_dot) []) in H0
    as (pv0 & h & line & e0 & Hdrop0 & Hline & D0 & [_ Hdots]%denotes_Plus
        & De0);
    [|done..].
  cbn in De0. subst e0.
  apply (exec_group false [Lit (str "github.com"); Class Git.is_separator]
           (Plus Git.no_slash)
           [Char slash; Plus Git.no_slash_dot]) in H1
    as (pv1 & w1 & org1 & w3 & Hdrop1 & Horg & D1 & [Ho0 Ho]%denotes_Plus & D3);
    [|done..].
  apply (exec_group false
           [Lit (str "github.com"); Class Git.is_separator;
            Plus Git.no_slash; Char slash]
           (Plus Git.no_slash_dot) []) in H2
    as (pv2 & w2 & repo2 & e2 & Hdrop2 & Hrepo & D2 & [Hr0 Hr]%denotes_Plus
        & De);
    [|done..].
  rewrite Horg, Hrepo.
  cbn [Cat denotes] in D1, D2, D3, De, D0. subst e2.
  destruct D1 as (g1 & r1 & -> & Hg1 & D1).
  destruct D1 as (s1 & e1 & -> & (sep & -> & Hsep) & ->).
  destruct D3 as (c3 & r3 & -> & (? & -> & ->%char_eq_exact) & D3).
  destruct D3 as (t3 & e3 & -> & _ & ->).
  destruct D2 as (g2 & r2 & -> & Hg2 & D2).
  destruct D2 as (s2 & r4 & -> & (sep' & -> & Hsep') & D2).
  destruct D2 as (o2 & r5 & -> & [_ Ho2]%denotes_Plus & D2).
  destruct D2 as (c2 & e4 & -> & (? & -> & ->%char_eq_exact) & ->).
  apply denotes_Lit_exact in Hg1 as ->, Hg2 as ->.
  destruct D0 as (hd & r0 & -> & Hhd & _).
  apply denotes_Lit_exact in Hhd as ->.
  assert (Hns : ∀ w, Forall (λ c, Git.no_slash c = true) w → slash ∉ w).
  { intros w Hw Hin. rewrite Forall_forall in Hw. by apply Hw in Hin. }
  assert (Hnsd : ∀ w, Forall (λ c, Git.no_slash_dot c = true) w →
                      (slash ∉ w) ∧ (dot_sign ∉ w)).
  { intros w Hw. rewrite Forall_forall in Hw.
    split; intros Hin; by apply Hw in Hin. }
  rewrite Hi, Hs, Hdrop2 in Hdrop1. revert Hdrop1. right_nest.
  intros Heq. apply app_inv_head in Heq.
  injection Heq as Hseps Heq.
  apply first_occurrence_unique in Heq as [Horgs _]; [|by apply Hns..].
  subst sep' o2.
  destruct (Hnsd _ Hr) as [Hr1 Hr2].
  rewrite without_git_suffix_no_dot by done.
  rewrite Hline in El.
  split.
  { exists sep, (take (index m2) url), (drop (stop m2) url).
    split; [done|]. rewrite <- (take_drop (index m2) url) at 1.
    rewrite Hdrop2. by right_nest. }
  split; [done|]. split; [by apply Hns|]. split; [done|].
  split; [done|]. split; [done|]. split; [done|].
  split; [rewrite El in Hdots; by apply sublist_Forall in Hdots|].
  split; [by eapply contains_drop; rewrite Hdrop0; right_nest|].
  split; [|done].
  exists (take (index m0) gitConfig ++ strq "[remote 'origin']" ++ r0 ++ l),
    (r ++ drop (stop m0) gitConfig).
  rewrite <- (take_drop (index m0) gitConfig) at 1. rewrite Hdrop0.
  rewrite El. by right_nest.
Qed.

Lemma detectGitRemote_parts_witness :
  let gitConfig :=
    lines [ strq "[remote 'origin']";
            str "  url = git@github.com:adobe/my.site.git";
            str "  fetch = +refs/heads/main:refs/remotes/origin/main" ] in
  let found :=
    GitMetadata (str "adobe") (str "my")
      (str "git@github.com:adobe/my.site.git") in
  Git.detectGitRemote (Returned gitConfig) = Some found
  ∧ (dot_sign ∉ git_repo found)
  ∧ trimmed (remote found).
Proof.
  intros gitConfig found.
  assert (H : Git.detectGitRemote (Returned gitConfig) = Some found)
    by (vm_compute; reflexivity).
  split; [exact H|].
  destruct (detectGitRemote_parts gitConfig found H)
    as (_ & _ & _ & _ & _ & Hdot & Htrim & _).
  split; [exact Hdot | exact Htrim].
Defined.

(** ** Completeness of the matcher *)

Lemma greedy_complete (p : cu → bool) (k : mstate → option mstate)
    (w post : jsstring) (i : nat) (pv : option cu) (cp : option (nat * nat)) :
  Forall (λ c, p c = true) w →
  is_Some (k (MState post (i + length w) (prev_after pv w) cp)) →
  is_Some (greedy p k (w ++ post) i pv cp).
Proof.
  intros Hw. revert i pv. induction Hw as [|c w Hc Hw IH]; intros i pv Hk.
  - rewrite Nat.add_0_r, prev_after_nil in Hk. cbn [app].
    destruct post as [|c post]; simpl; [done|].
    destruct (p c); [|done]. by destruct (greedy p k post (S i) (Some c) cp).
  - simpl. rewrite Hc.
    assert (is_Some (greedy p k (w ++ post) (S i) (Some c) cp)) as [out ->];
      [|done].
    apply IH. rewrite prev_after_cons in Hk.
    by replace (S i + length w) with (i + length (c :: w)) by (simpl; lia).
Qed.

Lemma lazy_complete (p : cu → bool) (k : mstate → option mstate)
    (w post : jsstring) (i : nat) (pv : option cu) (cp : option (nat * nat)) :
  Forall (λ c, p c = true) w →
  is_Some (k (MState post (i + length w) (prev_after pv w) cp)) →
  is_Some (lazy p k (w ++ post) i pv cp).
Proof.
  intros Hw. revert i pv. induction Hw as [|c w Hc Hw IH]; intros i pv Hk.
  - rewrite Nat.add_0_r, prev_after_nil in Hk. cbn [app].
    destruct post as [|c post]; simpl; by destruct Hk as [out ->].
  - simpl. destruct (k (MState (c :: w ++ post) i pv cp)); [done|].
    rewrite Hc. apply IH. rewrite prev_after_cons in Hk.
    by replace (S i + length w) with (i + length (c :: w)) by (simpl; lia).
Qed.

(** Completeness of the matcher: when the input starts with a text that the
    pattern denotes, and the rest of the match can be completed after that
    text, the matcher finds a match. *)
Lemma run_complete (ic : bool) (r : regex) (k : mstate → option mstate)
    (st : mstate) (w post : jsstring) :
  rest st = w ++ post →
  denotes ic r (prev st) w post →
  (∀ cp, is_Some (k (MState post (pos st + length w)
                       (prev_after (prev st) w) cp))) →
  is_Some (run ic r k st).
Proof.
  revert k st w post.
  induction r as [|c|p|r1 IH1 r2 IH2|p|p|r IH|r IH|];
    intros k [s i pv cp] w post; cbn [rest pos prev run denotes];
    intros -> Hd Hk.
  - subst w. specialize (Hk cp).
    by rewrite Nat.add_0_r, prev_after_nil in Hk.
  - destruct Hd as (d & -> & Hd). unfold one. cbn. rewrite Hd.
    specialize (Hk cp). by rewrite Nat.add_1_r in Hk.
  - destruct Hd as (d & -> & Hd). unfold one. cbn. rewrite Hd.
    specialize (Hk cp). by rewrite Nat.add_1_r in Hk.
  - destruct Hd as (w1 & w2 & -> & Hd1 & Hd2).
    apply (IH1 _ _ w1 (w2 ++ post)); [by rewrite <- app_assoc | done|].
    intros cp'. apply (IH2 _ _ w2 post); [done..|].
    intros cp''. cbn [pos prev]. rewrite <- prev_after_app.
    specialize (Hk cp''). by rewrite length_app, Nat.add_assoc in Hk.
  - by apply greedy_complete.
  - destruct Hd as [Hne Hall]. destruct w as [|d w]; [done|].
    apply Forall_cons in Hall as [Hd Hall]. unfold one. cbn. rewrite Hd.
    apply lazy_complete; [done|]. specialize (Hk cp).
    rewrite prev_after_cons in Hk.
    by replace (S i + length w) with (i + length (d :: w)) by (simpl; lia).
  - destruct Hd as [->|Hd].
    + destruct (run ic r k _); [done|]. specialize (Hk cp).
      by rewrite Nat.add_0_r, prev_after_nil in Hk.
    + assert (is_Some (run ic r k (MState (w ++ post) i pv cp)))
        as [out ->]; [|done].
      by apply (IH _ _ w post).
  - apply (IH _ _ w post); [done..|]. intros cp'. apply Hk.
  - destruct Hd as [-> Hd]. cbn [app]. rewrite Hd. specialize (Hk cp).
    by rewrite Nat.add_0_r, prev_after_nil in Hk.
Qed.

(** ** Text that holds no instance *)

Lemma canonicalize_eq_plain (c d : cu) :
  in_range 65 90 d = false → in_range 97 122 d = false →
  canonicalize c = canonicalize d → c = d.
Proof.
  intros H1 H2 H. apply (canonicalize_plain d c); [done..|].
  unfold char_eq. by apply N.eqb_eq.
Qed.

Lemma same_ci_cons (c : cu) (w l : jsstring) (d : cu) :
  same_ci (c :: w) (d :: l) ↔ canonicalize c = canonicalize d ∧ same_ci w l.
Proof.
  unfold same_ci. simpl. split; [by intros [= ? ?] | by intros [-> ->]].
Qed.

(** Code units that are not letters are kept by a match up to case. *)
Lemma same_ci_notin (c : cu) (w l : jsstring) :
  in_range 65 90 c = false → in_range 97 122 c = false →
  same_ci w l → c ∉ l → c ∉ w.
Proof.
  intros H1 H2. revert l. induction w as [|d w IH]; intros l H Hl;
    [by intros ?%elem_of_nil|].
  destruct l as [|e l]; [done|].
  apply same_ci_cons in H as [Hc H].
  intros [->|Hin]%elem_of_cons.
  - apply Hl, elem_of_cons. left. symmetry.
    by apply canonicalize_eq_plain.
  - apply (IH l); [done| |done]. intros ?. apply Hl, elem_of_cons. by right.
Qed.

(** A match of the opening-tag pattern, seen from the matcher. *)
Lemma openTagRegex_run_sound (blockName s : jsstring) (i : nat)
    (pv : option cu) (out : mstate) :
  run true (openTagRegex blockName) Some (MState s i pv None) = Some out →
  ∃ div attributes,
    s = div ++ attributes ++ gt_sign :: rest out
    ∧ pos out = i + length div + length attributes + 1
    ∧ cap out = Some (i + length div, i + length div + length attributes)
    ∧ same_ci div (str "<div")
    ∧ names_block blockName attributes.
Proof.
  intros H.
  apply (run_Cat_group true [Lit (str "<div")] (attributesRegex blockName)
           [Char gt_sign]) in H
    as (w1 & w2 & w3 & st' & E & P & C & D1 & D2 & D3 & [= ->]);
    [|done| |done].
  2:{ apply group_free_Cat. cbn [forallb]. by rewrite !group_free_Lit. }
  cbn [rest pos prev] in *. cbn [Cat denotes] in D1, D3.
  destruct D1 as (div & e1 & -> & Hdiv & ->).
  destruct D3 as (g & e3 & -> & (d & -> & Hd) & ->).
  apply canonicalize_plain in Hd as ->; [|done..].
  apply denotes_Lit in Hdiv. apply attributes_names_block in D2.
  exists div, w2. rewrite !app_nil_r in *. cbn [length] in P.
  split; [done|]. split; [lia|]. done.
Qed.

Lemma run_openTag_other (blockName : jsstring)
    (k : mstate → option mstate) (s : jsstring) (i : nat) (pv : option cu)
    (cp : option (nat * nat)) :
  opens_div s = false →
  run true (openTagRegex blockName) k (MState s i pv cp) = None.
Proof.
  intros H. destruct (run true (openTagRegex blockName) k _) as [out|] eqn:E;
    [|done].
  rewrite openTagRegex_parts, run_Seq in E.
  apply run_sound in E as (w & st' & (Er & _) & Hw%denotes_Lit & _).
  cbn [rest] in Er. subst s. unfold opens_div in H.
  rewrite map_app, Hw in H. by rewrite startsWith_app in H.
Qed.

Lemma opens_div_lt (c : cu) (s : jsstring) :
  c ≠ lt_sign → opens_div (c :: s) = false.
Proof.
  intros Hc. unfold opens_div. cbn [map startsWith str list_ascii_of_string].
  apply andb_false_iff. left. apply N.eqb_neq. intros H. apply Hc.
  by apply (canonicalize_eq_plain c lt_sign).
Qed.

Lemma opens_div_tag (b s : jsstring) :
  gt_sign ∉ b →
  opens_div (lt_sign :: b ++ gt_sign :: s) = opens_div (lt_sign :: b ++ [gt_sign]).
Proof.
  intros _. unfold opens_div. destruct b as [|b0 [|b1 [|b2 b]]]; cbn;
    rewrite ?andb_false_r; done.
Qed.

Lemma prefix_before (c : cu) (l1 r1 l2 r2 : jsstring) :
  l1 ++ r1 = l2 ++ c :: r2 → c ∉ l1 → ∃ m, l2 = l1 ++ m.
Proof.
  revert l2. induction l1 as [|x l1 IH]; intros l2 E H1; [by exists l2|].
  destruct l2 as [|y l2]; simpl in E.
  - injection E as -> _. destruct H1. by left.
  - injection E as -> E. apply IH in E as [m ->]; [by exists m|].
    intros ?. apply H1. by right.
Qed.

Lemma class_attr_parts (cls : jsstring) :
  same_ci cls (strq "class='") →
  ∃ cls', cls = cls' ++ [equals_sign; dquote]
          ∧ (gt_sign ∉ cls') ∧ (dquote ∉ cls').
Proof.
  intros H. pose proof (same_ci_length _ _ H) as Hlen.
  destruct cls as [|c0 [|c1 [|c2 [|c3 [|c4 [|c5 [|c6 [|]]]]]]]]; try done.
  exists [c0; c1; c2; c3; c4].
  unfold same_ci in H. cbn in H. injection H as H0 H1 H2 H3 H4 H5 H6.
  apply (canonicalize_eq_plain c5 equals_sign) in H5 as ->; [|done..].
  apply (canonicalize_eq_plain c6 dquote) in H6 as ->; [|done..].
  split; [done|].
  assert (Hci : same_ci [c0; c1; c2; c3; c4] (str "class")).
  { unfold same_ci. cbn. by rewrite H0, H1, H2, H3, H4. }
  split; (eapply same_ci_notin; [| |exact Hci|]; [done..|]);
    vm_compute; intros Hin; repeat (apply elem_of_cons in Hin as [Hin|Hin];
      [discriminate Hin|]); by apply elem_of_nil in Hin.
Qed.

Lemma Forall_notin (c : cu) (w : jsstring) : Forall (λ d, d ≠ c) w → c ∉ w.
Proof. intros H Hin. rewrite Forall_forall in H. by apply H in Hin. Qed.

Lemma notin_app (c : cu) (l1 l2 : jsstring) :
  c ∉ l1 → c ∉ l2 → c ∉ (l1 ++ l2).
Proof. intros H1 H2 [?|?]%elem_of_app; auto. Qed.

Lemma notin_cons (c d : cu) (l : jsstring) : c ≠ d → c ∉ l → c ∉ d :: l.
Proof. intros H1 H2 [?|?]%elem_of_cons; auto. Qed.

(** The attribute text of a match has a double quote before its first
    [>]. *)
Lemma names_block_has_quote (blockName attributes T a s : jsstring) :
  names_block blockName attributes →
  attributes ++ gt_sign :: T = a ++ gt_sign :: s →
  gt_sign ∉ a → dquote ∈ a.
Proof.
  intros (a1 & cls & v1 & name & v2 & a2 & -> & Hcls & _ & Ha1 & _) E Ha.
  apply class_attr_parts in Hcls as (cls' & -> & Hg & _).
  apply Forall_notin in Ha1.
  revert E. right_nest. intros E.
  assert (Hpre : gt_sign ∉ a1 ++ cls' ++ [equals_sign; dquote]).
  { apply notin_app; [done|]. apply notin_app; [done|].
    apply notin_cons; [done|]. apply notin_cons; [done|]. apply not_elem_of_nil. }
  rewrite 2!app_assoc in E.
  change (equals_sign :: dquote :: ?x) with ([equals_sign; dquote] ++ x) in E.
  rewrite app_assoc in E.
  apply prefix_before in E as [m ->]; [|by rewrite <- app_assoc].
  rewrite !elem_of_app, !elem_of_cons. auto.
Qed.

(** The attribute text of a match in a tag whose attributes end with their
    only quoted value is all of the attributes of the tag, and the value
    mentions the block. *)
Lemma names_block_in_tag (blockName attributes T P V s : jsstring) :
  names_block blockName attributes →
  attributes ++ gt_sign :: T = P ++ dquote :: V ++ dquote :: gt_sign :: s →
  gt_sign ∉ P → dquote ∉ P → gt_sign ∉ V → dquote ∉ V → equals_sign ∉ V →
  dquote ∉ blockName →
  attributes = P ++ dquote :: V ++ [dquote] ∧ T = s
  ∧ ∃ v1 name v2, V = v1 ++ name ++ v2 ∧ same_ci name blockName.
Proof.
  intros (a1 & cls & v1 & name & v2 & a2 & -> & Hcls & Hname & Ha1 & Ha2
          & Hv1 & Hv2 & _) E HgP HqP HgV HqV HeV Hqb.
  apply class_attr_parts in Hcls as (cls' & -> & Hgc & Hqc).
  apply Forall_notin in Ha1, Ha2, Hv1, Hv2.
  assert (Hqn : dquote ∉ name) by (by eapply same_ci_notin).
  set (X := a1 ++ cls' ++ [equals_sign]).
  set (W := v1 ++ name ++ v2).
  assert (HqW : dquote ∉ W) by (by repeat apply notin_app).
  assert (HgX : gt_sign ∉ X).
  { apply notin_app; [done|]. apply notin_app; [done|].
    apply notin_cons; [done | apply not_elem_of_nil]. }
  assert (Hlast : last X = Some equals_sign).
  { unfold X. by rewrite !app_assoc, last_snoc. }
  assert (E' : X ++ dquote :: W ++ dquote :: a2 ++ gt_sign :: T
               = P ++ dquote :: V ++ dquote :: gt_sign :: s).
  { rewrite <- E. unfold X, W. by right_nest. }
  assert (Hatt : (a1 ++ (cls' ++ [equals_sign; dquote]) ++ v1 ++ name ++ v2
                    ++ dquote :: a2)
                 = X ++ dquote :: W ++ dquote :: a2).
  { unfold X, W. by right_nest. }
  rewrite Hatt. clear E Hatt.
  destruct (decide (dquote ∈ X)) as [Hin|Hout].
  - exfalso. apply list_elem_of_split_l in Hin as (X1 & X2 & EX & HX1).
    rewrite EX in E', HgX, Hlast. revert E'. right_nest. intros E'.
    apply first_occurrence_unique in E' as [-> E']; [|done..].
    assert (HgX2 : gt_sign ∉ X2).
    { intros ?. apply HgX. rewrite elem_of_app, elem_of_cons. auto. }
    destruct (decide (dquote ∈ X2)) as [Hin2|Hout2].
    + apply list_elem_of_split_l in Hin2 as (X3 & X4 & -> & HX3).
      revert E'. right_nest. intros E'.
      apply first_occurrence_unique in E' as [-> E']; [|done..].
      destruct X4 as [|x X4]; [done|]. injection E' as -> _.
      apply HgX2. rewrite elem_of_app, !elem_of_cons. auto.
    + apply first_occurrence_unique in E' as [-> _]; [|done..].
      rewrite last_app in Hlast. cbn in Hlast.
      destruct V as [|x V] using rev_ind; [done|].
      rewrite app_comm_cons, last_snoc in Hlast. injection Hlast as ->.
      apply HeV. rewrite elem_of_app, elem_of_cons. auto.
  - apply first_occurrence_unique in E' as [-> E']; [|done..].
    apply first_occurrence_unique in E' as [EW E']; [|done..].
    change (gt_sign :: s) with ([] ++ gt_sign :: s) in E'.
    apply first_occurrence_unique in E' as [-> ->];
      [|done | apply not_elem_of_nil].
    rewrite EW. split; [done|]. split; [done|].
    exists v1, name, v2. by rewrite <- EW.
Qed.

Lemma plain_name_chars (blockName : jsstring) (c : cu) :
  Forall (λ d, is_class_char d = true) blockName →
  is_class_char c = false → c ∉ blockName.
Proof.
  intros H Hc Hin. rewrite Forall_forall in H. apply H in Hin. congruence.
Qed.

(** The matcher fails at a div tag whose attributes cannot name the
    block. *)
Lemma run_openTag_calm (blockName d a s : jsstring) (i : nat)
    (pv : option cu) :
  dquote ∉ blockName →
  same_ci d (str "div") → gt_sign ∉ a → calm blockName a →
  run true (openTagRegex blockName) Some
    (MState (lt_sign :: d ++ a ++ gt_sign :: s) i pv None) = None.
Proof.
  intros Hqb Hd Ha Hcalm.
  destruct (run true (openTagRegex blockName) Some _) as [out|] eqn:E;
    [|done].
  exfalso.
  apply openTagRegex_run_sound in E
    as (div & attributes & Et & _ & _ & Hdiv & Hnames).
  pose proof (same_ci_length _ _ Hdiv) as Ldiv.
  pose proof (same_ci_length _ _ Hd) as Ld.
  destruct div as [|x0 [|x1 [|x2 [|x3 [|]]]]]; try done.
  destruct d as [|d1 [|d2 [|d3 [|]]]]; try done.
  cbn in Et. injection Et as _ _ _ _ Et. symmetry in Et.
  destruct Hcalm as [Hq|(P & V & -> & HqP & HqV & HeV & Hno)].
  - by apply (names_block_has_quote _ _ _ _ _ Hnames Et) in Ha.
  - revert Et. right_nest. intros Et.
    apply (names_block_in_tag _ _ _ _ _ _ Hnames) in Et
      as (_ & _ & v1 & name & v2 & -> & Hname); try done.
    + apply Hno. by exists v1, name, v2.
    + intros ?. apply Ha. rewrite elem_of_app. auto.
    + intros ?. apply Ha. rewrite elem_of_app, elem_of_cons, elem_of_app. auto.
Qed.

Lemma search_skip_char (blockName : jsstring) (c : cu) (s : jsstring)
    (i : nat) (pv : option cu) :
  opens_div (c :: s) = false →
  search true (openTagRegex blockName) (c :: s) i pv
  = search true (openTagRegex blockName) s (S i) (Some c).
Proof. intros H. cbn [search]. by rewrite run_openTag_other. Qed.

Lemma search_skip_text (blockName w s : jsstring) (i : nat) (pv : option cu) :
  lt_sign ∉ w →
  search true (openTagRegex blockName) (w ++ s) i pv
  = search true (openTagRegex blockName) s (i + length w) (prev_after pv w).
Proof.
  revert i pv. induction w as [|c w IH]; intros i pv Hw.
  - by rewrite Nat.add_0_r, prev_after_nil.
  - cbn [app]. rewrite search_skip_char.
    + rewrite IH, prev_after_cons.
      * f_equal. simpl. lia.
      * intros ?. apply Hw. by right.
    + apply opens_div_lt. intros ->. apply Hw. by left.
Qed.

(** Text that holds no instance is passed over by the search for the
    opening tag of the block. *)
Lemma search_foreign (blockName pre : jsstring) :
  dquote ∉ blockName →
  foreign blockName pre →
  ∀ s i pv,
    search true (openTagRegex blockName) (pre ++ s) i pv
    = search true (openTagRegex blockName) s (i + length pre)
        (prev_after pv pre).
Proof.
  intros Hqb Hpre.
  induction Hpre as [|c t Hc Ht IH|b t Hg Hl Hdiv Ht IH
                     |d a t Hd Hg Hl Hcalm Ht IH]; intros s i pv.
  - by rewrite Nat.add_0_r, prev_after_nil.
  - cbn [app]. rewrite search_skip_char by (by apply opens_div_lt).
    rewrite IH, prev_after_cons. f_equal. simpl. lia.
  - cbn [app]. rewrite search_skip_char.
    2:{ rewrite <- app_assoc. cbn [app]. by rewrite opens_div_tag. }
    rewrite <- app_assoc. cbn [app].
    change (b ++ gt_sign :: t ++ s) with (b ++ [gt_sign] ++ (t ++ s)).
    rewrite app_assoc, search_skip_text.
    2:{ apply notin_app; [done|]. apply notin_cons; [done|].
        apply not_elem_of_nil. }
    rewrite IH. f_equal.
    + rewrite !length_app. simpl. rewrite !length_app. simpl. lia.
    + rewrite prev_after_cons.
      change (b ++ gt_sign :: t) with (b ++ [gt_sign] ++ t).
      by rewrite app_assoc, (prev_after_app _ (b ++ [gt_sign]) t).
  - cbn [app search]. right_nest. rewrite run_openTag_calm by done.
    pose proof (same_ci_length _ _ Hd) as Ld.
    assert (Hld : lt_sign ∉ d).
    { eapply same_ci_notin; [| |exact Hd|]; [done..|].
      vm_compute. intros Hin.
      repeat (apply elem_of_cons in Hin as [Hin|Hin]; [discriminate Hin|]).
      by apply elem_of_nil in Hin. }
    change (d ++ a ++ gt_sign :: t ++ s)
      with (d ++ a ++ [gt_sign] ++ (t ++ s)).
    rewrite 2!app_assoc, search_skip_text.
    2:{ apply notin_app; [by apply notin_app|]. apply notin_cons; [done|].
        apply not_elem_of_nil. }
    rewrite IH. f_equal.
    + cbn [length]. rewrite !length_app. cbn [length].
      rewrite ?length_app. lia.
    + rewrite prev_after_cons.
      change (d ++ a ++ gt_sign :: t) with (d ++ a ++ [gt_sign] ++ t).
      by rewrite 2!app_assoc, (prev_after_app _ ((d ++ a) ++ [gt_sign]) t).
Qed.

Lemma search_end (blockName : jsstring) (i : nat) (pv : option cu) :
  search true (openTagRegex blockName) [] i pv = None.
Proof. cbn [search]. by rewrite run_openTag_other. Qed.

(** ** The opening tag of an instance *)

Lemma denotes_Lit_intro (l : jsstring) (pv : option cu) (w post : jsstring) :
  same_ci w l → denotes true (Lit l) pv w post.
Proof.
  revert pv w. induction l as [|c l IH]; intros pv w H.
  - apply same_ci_length in H. by destruct w.
  - destruct w as [|d w]; [by apply same_ci_length in H|].
    apply same_ci_cons in H as [Hc H]. cbn [Lit denotes].
    exists [d], w. split; [done|]. split; [|by apply IH].
    exists d. split; [done|]. unfold char_eq. apply N.eqb_eq. done.
Qed.

Lemma denotes_Cat_cons (ic : bool) (r : regex) (rs : list regex)
    (pv : option cu) (w1 w2 post : jsstring) :
  denotes ic r pv w1 (w2 ++ post) →
  denotes ic (Cat rs) (prev_after pv w1) w2 post →
  denotes ic (Cat (r :: rs)) pv (w1 ++ w2) post.
Proof. intros H1 H2. cbn [Cat denotes]. by exists w1, w2. Qed.

Lemma instance_tag_parts (blockName v : jsstring) :
  instance_tag blockName v
  = str "<div"
      ++ (str " class=" ++ dquote :: class_value blockName v ++ [dquote])
      ++ [gt_sign].
Proof.
  unfold instance_tag, class_value.
  change (strq "<div class='") with (str "<div" ++ str " class=" ++ [dquote]).
  change (strq "'>") with ([dquote] ++ [gt_sign]).
  by right_nest.
Qed.

Lemma class_value_chars (blockName v : jsstring) (c : cu) :
  Forall (λ d, is_class_char d = true) blockName →
  Forall (λ d, is_class_char d = true) v →
  is_class_char c = false → c ≠ 32%N → c ∉ class_value blockName v.
Proof.
  intros Hb Hv Hc Hs. unfold class_value. apply notin_app.
  - by apply plain_name_chars.
  - destruct (truthy v); [|apply not_elem_of_nil].
    apply notin_cons; [done|]. by apply plain_name_chars.
Qed.

(** The pattern matches the opening tag of an instance. *)
Lemma openTagRegex_denotes_tag (blockName v post : jsstring) (pv : option cu) :
  plain_name blockName →
  Forall (λ d, is_class_char d = true) v →
  denotes true (openTagRegex blockName) pv (instance_tag blockName v) post.
Proof.
  intros (Hb & Hhead & Hlast) Hv.
  rewrite instance_tag_parts. unfold openTagRegex.
  apply denotes_Cat_cons; [by apply denotes_Lit_intro|].
  apply denotes_Cat_cons.
  2:{ change [gt_sign] with ([gt_sign] ++ []).
      apply denotes_Cat_cons; [|done]. exists gt_sign. by split. }
  cbn [denotes]. unfold attributesRegex, class_value.
  destruct blockName as [|b0 bn]; [done|].
  set (sp := if truthy v then str " " ++ v else []).
  assert (Hsp : Forall (λ c, is_not dquote c = true) sp).
  { unfold sp. destruct (truthy v); [|constructor].
    constructor; [done|]. eapply Forall_impl; [exact Hv|].
    intros c Hc. unfold is_not. apply negb_true_iff, N.eqb_neq. by intros ->. }
  assert (Hnext : word_opt (head (sp ++ [dquote] ++ [] ++ [] ++ [gt_sign] ++ post))
                  = false).
  { unfold sp. by destruct (truthy v). }
  replace (str " class=" ++ dquote :: ((b0 :: bn) ++ sp) ++ [dquote])
    with (str " " ++ strq "class='" ++ [] ++ [] ++ (b0 :: bn) ++ [] ++ sp
            ++ [dquote] ++ [] ++ [])
    by (cbn; by right_nest).
  apply denotes_Cat_cons; [by repeat constructor|].
  apply denotes_Cat_cons; [by apply denotes_Lit_intro|].
  apply denotes_Cat_cons; [by constructor|].
  apply denotes_Cat_cons.
  { split; [done|]. cbn [head word_opt] in Hhead.
    change (prev_after _ (strq "class='")) with (Some dquote).
    cbn [prev_after last app head word_opt]. by rewrite Hhead. }
  apply denotes_Cat_cons; [by apply denotes_Lit_intro|].
  apply denotes_Cat_cons.
  { split; [done|]. rewrite (prev_after_last _ (b0 :: bn)) by done.
    rewrite Hlast. rewrite <- !app_assoc. cbn [app] in Hnext |- *.
    by rewrite Hnext. }
  apply denotes_Cat_cons; [done|].
  apply denotes_Cat_cons; [exists dquote; by split|].
  apply denotes_Cat_cons; [by constructor | done].
Qed.

Lemma search_here (ic : bool) (r : regex) (s : jsstring) (i : nat)
    (pv : option cu) (st : mstate) :
  run ic r Some (MState s i pv None) = Some st →
  search ic r s i pv = Some (RMatch i (pos st) (cap st)).
Proof. intros H. destruct s; cbn [search]; by rewrite H. Qed.

(** The search finds the opening tag of an instance where it stands, and
    group 1 is all the attribute text of the tag. *)
Lemma search_instance_tag (blockName v post : jsstring) (i : nat)
    (pv : option cu) :
  plain_name blockName →
  Forall (λ d, is_class_char d = true) v →
  search true (openTagRegex blockName) (instance_tag blockName v ++ post) i pv
  = Some (RMatch i (i + length (instance_tag blockName v))
            (Some (i + 4, i + length (instance_tag blockName v) - 1))).
Proof.
  intros Hb Hv.
  assert (is_Some (run true (openTagRegex blockName) Some
                     (MState (instance_tag blockName v ++ post) i pv None)))
    as [out Hrun].
  { apply (run_complete _ _ _ _ (instance_tag blockName v) post);
      [done | by apply openTagRegex_denotes_tag | done]. }
  rewrite (search_here _ _ _ _ _ _ Hrun).
  apply openTagRegex_run_sound in Hrun
    as (div & attributes & Et & P & C & Hdiv & Hnames).
  pose proof (same_ci_length _ _ Hdiv) as Ldiv.
  rewrite instance_tag_parts in Et |- *.
  rewrite <- !app_assoc in Et.
  apply app_inj_1 in Et as [<- Et]; [|by rewrite Ldiv].
  symmetry in Et. destruct Hb as (Hb & _ & _).
  change ((dquote :: class_value blockName v ++ [dquote]) ++ [gt_sign] ++ post)
    with (dquote :: (class_value blockName v ++ [dquote]) ++ [gt_sign] ++ post)
    in Et.
  rewrite <- app_assoc in Et.
  change ([dquote] ++ [gt_sign] ++ post) with (dquote :: gt_sign :: post) in Et.
  apply (names_block_in_tag _ _ _ _ _ _ Hnames) in Et as (-> & _ & _).
  - rewrite P, C. rewrite !length_app. cbn [length].
    rewrite ?length_app. cbn [length].
    change (length (str "<div")) with 4.
    f_equal. f_equal; [lia|]. f_equal. f_equal; lia.
  - vm_compute. intros Hin.
    repeat (apply elem_of_cons in Hin as [Hin|Hin]; [discriminate Hin|]).
    by apply elem_of_nil in Hin.
  - vm_compute. intros Hin.
    repeat (apply elem_of_cons in Hin as [Hin|Hin]; [discriminate Hin|]).
    by apply elem_of_nil in Hin.
  - by apply class_value_chars.
  - by apply class_value_chars.
  - by apply class_value_chars.
  - by apply plain_name_chars.
Qed.

(** ** The classes of an instance tag *)

Lemma class_char_not_space (c : cu) :
  is_class_char c = true → is_space c = false.
Proof.
  intros H. destruct (is_space c) eqn:E; [|done]. exfalso.
  unfold is_class_char, is_word, is_space, in_range in *.
  rewrite !orb_true_iff, !andb_true_iff, !N.leb_le, !N.eqb_eq in *. lia.
Qed.

Lemma class_chars_no_space (w : jsstring) :
  Forall (λ c, is_class_char c = true) w → no_space w.
Proof.
  intros H. eapply Forall_impl; [exact H|]. apply class_char_not_space.
Qed.

Lemma split_go_word (acc : jsstring) (skipping : bool) (w s : jsstring) :
  no_space w → w ≠ [] →
  split_go acc skipping (w ++ s) = split_go (rev w ++ acc) false s.
Proof.
  intros Hw. revert acc skipping.
  induction Hw as [|c w Hc Hw IH]; intros acc skipping Hne; [done|].
  cbn [app split_go]. rewrite Hc. destruct w as [|d w].
  - done.
  - rewrite IH by done. simpl. by rewrite <- !app_assoc.
Qed.

Lemma split_go_one (skipping : bool) (w : jsstring) :
  no_space w → w ≠ [] → split_go [] skipping w = [w].
Proof.
  intros Hw Hne. rewrite <- (app_nil_r w) at 1.
  rewrite split_go_word by done. simpl.
  by rewrite app_nil_r, rev_involutive.
Qed.

Lemma split_ws_class_value (blockName v : jsstring) :
  no_space blockName → blockName ≠ [] → no_space v →
  split_ws (class_value blockName v)
  = if truthy v then [blockName; v] else [blockName].
Proof.
  intros Hb Hne Hv. unfold split_ws, class_value.
  rewrite split_go_word by done. rewrite app_nil_r.
  destruct v as [|c v]; cbn [truthy].
  - simpl. by rewrite rev_involutive.
  - change (str " " ++ c :: v) with (32%N :: (c :: v)).
    change (split_go (rev blockName) false (32%N :: (c :: v)))
      with (rev (rev blockName) :: split_go [] true (c :: v)).
    by rewrite rev_involutive, split_go_one.
Qed.

Lemma variant_of_class_value (blockName v : jsstring) :
  ¬ block_class blockName v →
  variant_of (if truthy v then [blockName; v] else [blockName]) blockName = v.
Proof.
  intros Hv. unfold variant_of.
  assert (Hself : negb (JsString.eqb blockName blockName)
                  && negb (startsWith blockName (blockName ++ [hyphen]))
                  = false) by (by rewrite eqb_refl).
  destruct v as [|c v]; cbn [truthy List.find]; rewrite Hself; [done|].
  destruct (negb (JsString.eqb (c :: v) blockName)
            && negb (startsWith (c :: v) (blockName ++ [hyphen]))) eqn:E;
    [done|].
  by apply block_class_spec in E.
Qed.

(** The class tokens of the attribute text of an instance tag. *)
Lemma class_tokens_instance (blockName v : jsstring) :
  dquote ∉ class_value blockName v →
  class_tokens (str " class=" ++ dquote :: class_value blockName v ++ [dquote])
  = split_ws (class_value blockName v).
Proof.
  intros Hq. set (cv := class_value blockName v) in *.
  assert (Hall : Forall (λ c, is_not dquote c = true) cv).
  { apply Forall_forall. intros c Hc. unfold is_not.
    apply negb_true_iff, N.eqb_neq. by intros ->. }
  unfold class_tokens, exec.
  destruct (decide _) as [_|Hn]; [|simpl in Hn; lia].
  rewrite drop_0.
  change (str " class=" ++ dquote :: cv ++ [dquote])
    with (32%N :: strq "class='" ++ cv ++ [dquote]).
  cbn [search]. unfold classAttrRegex at 1. cbn [Cat]. rewrite run_Seq, run_Lit.
  cbn [rest]. change (startsWith _ _) with false. cbn iota.
  assert (Hrun : run false classAttrRegex Some
                   (MState (strq "class='" ++ cv ++ [dquote]) 1 (Some 32%N)
                      None)
                 = Some (MState [] (8 + length cv + 1) (Some dquote)
                           (Some (8, 8 + length cv)))).
  { unfold classAttrRegex. cbn [Cat]. rewrite run_Seq, run_Lit.
    cbn [rest pos prev cap]. rewrite startsWith_app, drop_app_length.
    cbn [run]. apply greedy_app; [done|].
    rewrite greedy_stop by reflexivity.
    cbn. unfold one. cbn. do 2 f_equal; lia. }
  rewrite (search_here _ _ _ _ _ _ Hrun). unfold captured, substring.
  cbn [group1 pos cap].
  replace (8 + length cv - 8) with (length cv) by lia.
  change (32%N :: strq "class='" ++ cv ++ [dquote])
    with (str " class=" ++ [dquote] ++ cv ++ [dquote]).
  rewrite app_assoc.
  rewrite (drop_app_length' _ _ 8) by done.
  by rewrite take_app_length.
Qed.

(** ** Balanced text *)

Lemma index_of_app (c : cu) (a x : jsstring) :
  c ∉ a → index_of c (a ++ c :: x) = Some (length a).
Proof.
  induction a as [|d a IH]; intros Ha; simpl.
  - by rewrite N.eqb_refl.
  - destruct (d =? c)%N eqn:E.
    + apply N.eqb_eq in E as ->. destruct Ha. by left.
    + rewrite IH; [done|]. intros ?. apply Ha. by right.
Qed.

Lemma balanced_close_char (c : cu) (s : jsstring) (i depth : nat) :
  c ≠ lt_sign →
  balanced_close (c :: s) i 0 depth = balanced_close s (S i) 0 depth.
Proof.
  intros Hc. cbn [balanced_close].
  assert (Hne : (c =? 60)%N = false) by (by apply N.eqb_neq).
  unfold close_tag, open_tag. cbn [startsWith str list_ascii_of_string map].
  change (chr "<") with 60%N. by rewrite Hne.
Qed.

Lemma balanced_close_text (w s : jsstring) (i depth : nat) :
  lt_sign ∉ w →
  balanced_close (w ++ s) i 0 depth = balanced_close s (i + length w) 0 depth.
Proof.
  revert i. induction w as [|c w IH]; intros i Hw.
  - by rewrite Nat.add_0_r.
  - cbn [app]. rewrite balanced_close_char.
    + rewrite IH; [f_equal; simpl; lia|]. intros ?. apply Hw. by right.
    + intros ->. apply Hw. by left.
Qed.

(** The depth counter passes over balanced text without change. *)
Lemma balanced_close_balanced (b : jsstring) :
  balanced b →
  ∀ s i depth, 1 ≤ depth →
    balanced_close (b ++ s) i 0 depth
    = balanced_close s (i + length b) 0 depth.
Proof.
  induction 1 as [|c t Hc Ht IH|b t Hg Hl Hdiv Hclose Ht IH
                  |a inner t Hg Hl Hinner IHinner Ht IHt];
    intros s i depth Hd.
  - by rewrite Nat.add_0_r.
  - cbn [app]. rewrite balanced_close_char by done. rewrite IH by done.
    f_equal. simpl. lia.
  - cbn [app balanced_close].
    assert (Hc : close_tag (lt_sign :: (b ++ gt_sign :: t) ++ s) = false).
    { destruct (close_tag _) eqn:E; [|done]. exfalso.
      apply startsWith_spec in E as [post E].
      change (str "</div>" ++ post)
        with (lt_sign :: str "/div" ++ gt_sign :: post) in E.
      assert (E' : (b ++ gt_sign :: t) ++ s = str "/div" ++ gt_sign :: post)
        by congruence.
      clear E. rewrite <- app_assoc in E'.
      change ((gt_sign :: t) ++ s) with (gt_sign :: t ++ s) in E'.
      apply first_occurrence_unique in E' as [-> _]; [done..|].
      vm_compute. intros Hin.
      repeat (apply elem_of_cons in Hin as [Hin|Hin]; [discriminate Hin|]).
      by apply elem_of_nil in Hin. }
    assert (Ho : open_tag (lt_sign :: (b ++ gt_sign :: t) ++ s) = None).
    { unfold open_tag.
      assert (startsWith (lt_sign :: (b ++ gt_sign :: t) ++ s) (str "<div")
              = false) as ->; [|done].
      revert Hdiv. destruct b as [|b0 [|b1 [|b2 b]]]; cbn;
        rewrite ?andb_false_r; try done. }
    rewrite Hc, Ho. rewrite <- app_assoc. cbn [app].
    change (b ++ gt_sign :: t ++ s) with (b ++ [gt_sign] ++ (t ++ s)).
    rewrite app_assoc, balanced_close_text.
    2:{ apply notin_app; [done|]. apply notin_cons; [done|].
        apply not_elem_of_nil. }
    rewrite IH by done. f_equal. cbn [length]. rewrite !length_app.
    cbn [length]. lia.
  - change (str "<div" ++ a ++ gt_sign :: inner ++ str "</div>" ++ t)
      with (lt_sign :: str "div" ++ a ++ gt_sign :: inner ++ str "</div>" ++ t).
    cbn [app balanced_close].
    change (close_tag _) with false. cbn iota.
    set (text := (str "div" ++ a ++ gt_sign :: inner ++ str "</div>" ++ t) ++ s).
    assert (Ho : open_tag (lt_sign :: text) = Some (5 + length a)).
    { unfold open_tag. change (startsWith _ (str "<div")) with true.
      cbn iota. change (drop 4 (lt_sign :: text))
        with ((a ++ gt_sign :: inner ++ str "</div>" ++ t) ++ s).
      rewrite <- app_assoc. cbn [app]. by rewrite index_of_app. }
    rewrite Ho. rewrite balanced_close_skip.
    replace (drop (5 + length a - 1) text)
      with (inner ++ str "</div>" ++ t ++ s).
    2:{ assert (text = (str "div" ++ a ++ [gt_sign])
                         ++ inner ++ str "</div>" ++ t ++ s) as ->
          by (unfold text; by right_nest).
        rewrite drop_app_length'; [done|].
        rewrite !length_app. cbn [length]. change (length (str "div")) with 3.
        lia. }
    rewrite IHinner by lia.
    change (str "</div>" ++ t ++ s)
      with (lt_sign :: str "/div>" ++ t ++ s).
    cbn [balanced_close]. change (close_tag _) with true. cbn iota.
    assert ((S depth =? 1) = false) as -> by (apply Nat.eqb_neq; lia).
    rewrite balanced_close_skip.
    change (drop 5 (str "/div>" ++ t ++ s)) with (t ++ s).
    replace (S depth - 1) with depth by lia.
    rewrite IHt by lia. f_equal.
    cbn [length]. rewrite !length_app. cbn [length]. rewrite !length_app.
    change (length (str "</div>")) with 6. change (length (str "div")) with 3.
    lia.
Qed.

(** ** The first instance of a document *)

Lemma plain_name_facts (blockName : jsstring) :
  plain_name blockName →
  blockName ≠ [] ∧ no_space blockName ∧ dquote ∉ blockName.
Proof.
  intros (Hb & Hhead & _). split; [by destruct blockName|].
  split; [by apply class_chars_no_space | by apply plain_name_chars].
Qed.

Lemma plain_variant_base (blockName : jsstring) :
  plain_name blockName → plain_variant blockName [].
Proof.
  intros (Hne & _)%plain_name_facts. split; [constructor|]. split; [|done].
  intros [?|[more H]]; [done|]. by destruct blockName.
Qed.

Lemma instance_tag_length (blockName v : jsstring) :
  length (instance_tag blockName v)
  = 4 + length (str " class=" ++ dquote :: class_value blockName v ++ [dquote])
    + 1.
Proof.
  rewrite instance_tag_parts, !length_app.
  change (length (str "<div")) with 4. simpl. lia.
Qed.

(** One turn of the outer loop at a place from which the next opening tag
    of the block comes after text that holds no instance.  The turn finds
    that tag and reads its variant off it; unless the variant is already
    there with content, it records the trimmed text up to the closing tag
    that balances the opening tag.  The loop goes on after the tag. *)
Lemma instances_loop_at_instance (fuel : nat)
    (blockName v before pre post : jsstring)
    (blockInstances : gmap jsstring jsstring) :
  let html := before ++ pre ++ instance_tag blockName v ++ post in
  let start :=
    length before + length pre + length (instance_tag blockName v) in
  plain_name blockName → plain_variant blockName v →
  foreign blockName pre →
  instances_loop (S fuel) html blockName (length before) blockInstances
  = instances_loop fuel html blockName start
      (if truthy (default [] (blockInstances !! v)) then blockInstances
       else
         match balanced_close post start 0 1 with
         | Some k => <[ v := trim (substring html start k) ]> blockInstances
         | None => blockInstances
         end).
Proof.
  intros html start Hb (Hv & Hnb & Hinh) Hpre.
  pose proof (plain_name_facts _ Hb) as (Hne & Hsb & Hqb).
  cbn [instances_loop].
  rewrite exec_search by (unfold html; rewrite length_app; lia).
  unfold html at 1 2. rewrite drop_app_length.
  rewrite search_foreign by done.
  rewrite search_instance_tag by done. cbn [stop].
  fold html start. f_equal.
  set (m := RMatch _ _ _).
  pose proof (instance_tag_length blockName v) as Ltag.
  set (A := str " class=" ++ dquote :: class_value blockName v ++ [dquote])
    in *.
  assert (Hhtml : html = (before ++ pre) ++ instance_tag blockName v ++ post)
    by (unfold html; by rewrite <- app_assoc).
  assert (Hmatched : matched html m = instance_tag blockName v).
  { unfold matched, m, start. cbn [index stop].
    rewrite Hhtml, <- length_app. apply substring_app. }
  assert (Hcaptured : captured html m = A).
  { unfold captured, m, substring, start. cbn [group1]. rewrite Hhtml.
    replace (length before + length pre + length (instance_tag blockName v)
             - 1 - (length before + length pre + 4))
      with (length A) by lia.
    rewrite instance_tag_parts. fold A.
    rewrite (app_assoc (before ++ pre)), <- !app_assoc.
    rewrite (app_assoc pre (str "<div")), (app_assoc before).
    rewrite drop_app_length' by (rewrite !length_app; simpl; lia).
    by rewrite take_app_length. }
  assert (Hq : dquote ∉ class_value blockName v).
  { destruct Hb as (Hbc & _). by apply class_value_chars. }
  unfold record_instance. rewrite Hmatched, Hcaptured.
  cbn [index m]. fold start. unfold A.
  rewrite class_tokens_instance by done.
  rewrite split_ws_class_value by (done || by apply class_chars_no_space).
  rewrite variant_of_class_value by done.
  assert (value_truthy (get blockInstances v)
          = truthy (default [] (blockInstances !! v))) as ->.
  { unfold get. rewrite Hinh. by destruct (blockInstances !! v). }
  destruct (truthy _); [done|].
  assert (Hlen : length html = start + length post).
  { unfold html, start. rewrite !length_app. lia. }
  unfold scan_content. rewrite scan_balanced by lia.
  replace (drop start html) with post.
  2:{ unfold html, start. rewrite !app_assoc.
      by rewrite drop_app_length' by (rewrite !length_app; lia). }
  by destruct (balanced_close post start 0 1).
Qed.

(** The outer loop on a document whose first opening tag of the block
    comes after text that holds no instance. *)
Lemma parseBlockInstances_at_instance (blockName v pre post : jsstring) :
  let html := pre ++ instance_tag blockName v ++ post in
  let start := length pre + length (instance_tag blockName v) in
  plain_name blockName → plain_variant blockName v →
  foreign blockName pre →
  parseBlockInstances html blockName
  = instances_loop (length html) html blockName start
      match balanced_close post start 0 1 with
      | Some k => {[ v := trim (substring html start k) ]}
      | None => ∅
      end.
Proof.
  intros html start Hb Hv Hpre. unfold parseBlockInstances.
  pose proof (instances_loop_at_instance (length html) blockName v [] pre
                post ∅ Hb Hv Hpre) as H.
  cbn [app length Nat.add] in H. fold html start in H. rewrite H.
  rewrite lookup_empty. cbn [default truthy].
  destruct (balanced_close post start 0 1); [|done].
  by rewrite insert_empty.
Qed.

(** The first instance of a block in a document is always recorded.  When
    the document is text that holds no instance, then the opening tag of an
    instance, and the scan finds the closing tag that balances it, the
    mapping holds, under the variant of the tag, the trimmed text between
    the two, unless that text is empty. *)
Theorem parseBlockInstances_first_instance
    (blockName v pre post : jsstring) (k : nat) :
  let html := pre ++ instance_tag blockName v ++ post in
  let start := length pre + length (instance_tag blockName v) in
  plain_name blockName → plain_variant blockName v →
  foreign blockName pre →
  balanced_close post start 0 1 = Some k →
  trim (substring html start k) ≠ [] →
  parseBlockInstances html blockName !! v
  = Some (trim (substring html start k)).
Proof.
  intros html start Hb Hv Hpre Hk Hne.
  unfold html, start. rewrite parseBlockInstances_at_instance by done.
  fold html. fold start. rewrite Hk.
  apply instances_loop_keeps; [|done]. apply lookup_singleton_eq.
Qed.

Ltac not_in_literal :=
  let H := fresh in
  vm_compute; intros H;
  repeat (apply elem_of_cons in H as [H|H]; [discriminate H|]);
  by apply elem_of_nil in H.

Lemma parseBlockInstances_first_instance_witness :
  parseBlockInstances
    (str "<main><div>" ++ instance_tag (str "hero") (str "dark")
       ++ str "<p>A</p></div></div>")
    (str "hero") !! str "dark"
  = Some (str "<p>A</p>").
Proof.
  pose proof (parseBlockInstances_first_instance (str "hero") (str "dark")
                (str "<main><div>") (str "<p>A</p></div></div>") 42) as H.
  cbv zeta in H. rewrite H; [vm_compute; reflexivity|..].
  - split; [|by split]. by repeat constructor.
  - split; [by repeat constructor|]. split; [|done].
    intros [H1|[more H1]]; discriminate H1.
  - apply (foreign_tag _ (str "main") (str "<div>"));
      [not_in_literal | not_in_literal | done|].
    apply (foreign_div _ (str "div") [] []);
      [done | apply not_elem_of_nil | apply not_elem_of_nil
      | left; apply not_elem_of_nil | constructor].
  - vm_compute. reflexivity.
  - vm_compute. discriminate.
Defined.

(** ** Templates *)

Lemma foreign_app (blockName a b : jsstring) :
  foreign blockName a → foreign blockName b → foreign blockName (a ++ b).
Proof.
  intros Ha Hb. induction Ha as [|c t Hc Ht IH|x t Hg Hl Hdiv Ht IH
                                 |d x t Hd Hg Hl Hcalm Ht IH].
  - done.
  - cbn [app]. by constructor.
  - cbn [app]. rewrite <- app_assoc. cbn [app]. by apply foreign_tag.
  - cbn [app]. rewrite <- !app_assoc. cbn [app]. by apply foreign_div.
Qed.

Lemma foreign_text (blockName w : jsstring) :
  lt_sign ∉ w → foreign blockName w.
Proof.
  induction w as [|c w IH]; intros Hw; [constructor|].
  constructor.
  - intros ->. apply Hw. by left.
  - apply IH. intros ?. apply Hw. by right.
Qed.

Lemma index_of_split (c : cu) (t : jsstring) (n : nat) :
  index_of c t = Some n →
  t = take n t ++ c :: drop (S n) t ∧ c ∉ take n t.
Proof.
  revert n. induction t as [|d t IH]; intros n; [done|]. simpl.
  destruct (d =? c)%N eqn:E.
  - intros [= <-]. apply N.eqb_eq in E as ->. simpl. rewrite drop_0.
    split; [done | apply not_elem_of_nil].
  - destruct (index_of c t) as [m|]; [|done]. intros [= <-].
    destruct (IH m eq_refl) as [E1 E2]. simpl. split; [by rewrite <- E1|].
    apply notin_cons; [|done]. intros ->. by rewrite N.eqb_refl in E.
Qed.

(** A tag of a literal text, found by the index of its [>]. *)
Lemma foreign_tag_at (blockName t : jsstring) (n : nat) :
  index_of gt_sign t = Some n →
  lt_sign ∉ take n t →
  opens_div (lt_sign :: take n t ++ [gt_sign]) = false →
  foreign blockName (drop (S n) t) →
  foreign blockName (lt_sign :: t).
Proof.
  intros [E Hg]%index_of_split Hl Hdiv Ht. rewrite E.
  by apply foreign_tag.
Qed.

Lemma foreign_div_at (blockName t : jsstring) (n : nat) :
  index_of gt_sign t = Some n →
  same_ci (take 3 t) (str "div") →
  lt_sign ∉ take n t →
  calm blockName (drop 3 (take n t)) →
  foreign blockName (drop (S n) t) →
  foreign blockName (lt_sign :: t).
Proof.
  intros [E Hg]%index_of_split Hd Hl Hcalm Ht.
  assert (Hg3 : gt_sign ∉ take 3 t).
  { eapply same_ci_notin; [| |exact Hd|]; [done..|]. not_in_literal. }
  assert (Hn : 3 ≤ n).
  { destruct (decide (3 ≤ n)) as [|Hlt]; [done|]. exfalso. apply Hg3.
    rewrite E. rewrite take_app_ge by (rewrite length_take; lia).
    rewrite elem_of_app. right.
    replace (3 - length (take n t)) with (S (3 - length (take n t) - 1)).
    - left.
    - pose proof (same_ci_length _ _ Hd) as L3.
      rewrite length_take in L3 |- *. simpl in L3. lia. }
  assert (Hsplit : take n t = take 3 t ++ drop 3 (take n t)).
  { rewrite <- (take_drop 3 (take n t)) at 1. f_equal.
    rewrite take_take. f_equal. lia. }
  rewrite E, Hsplit, <- app_assoc.
  apply foreign_div; try done.
  - intros ?. apply Hg. rewrite Hsplit, elem_of_app. auto.
  - intros ?. apply Hl. rewrite Hsplit, elem_of_app. auto.
Qed.

Lemma trimStart_all_spaces (w : jsstring) : spaces w → trimStart w = [].
Proof. induction 1 as [|c w Hc Hw IH]; simpl; [done|]. by rewrite Hc. Qed.

Lemma trimStart_app_spaces (ws s : jsstring) :
  spaces ws → trimStart (ws ++ s) = trimStart s.
Proof. induction 1 as [|c w Hc Hw IH]; simpl; [done|]. by rewrite Hc. Qed.

Lemma trimStart_app (a b : jsstring) :
  trimStart a ≠ [] → trimStart (a ++ b) = trimStart a ++ b.
Proof.
  induction a as [|c a IH]; simpl; [done|].
  destruct (is_space c); [apply IH | done].
Qed.

Lemma trimEnd_app_spaces (s ws : jsstring) :
  spaces ws → trimEnd (s ++ ws) = trimEnd s.
Proof.
  intros H. unfold trimEnd. rewrite rev_app_distr, trimStart_app_spaces; [done|].
  by apply Forall_rev.
Qed.

(** White space around a text does not change what [trim] gives. *)
Lemma trim_padded (ws1 c ws2 : jsstring) :
  spaces ws1 → spaces ws2 → trim (ws1 ++ c ++ ws2) = trim c.
Proof.
  intros H1 H2. unfold trim. rewrite trimStart_app_spaces by done.
  destruct (trimStart c) as [|d t] eqn:E.
  - destruct (trimStart_spaces c) as (ws & Ec & Hws).
    rewrite E, app_nil_r in Ec. subst ws.
    rewrite trimStart_all_spaces; [done|]. by apply Forall_app.
  - rewrite trimStart_app by (by rewrite E). rewrite E.
    by apply trimEnd_app_spaces.
Qed.

Ltac foreign_literal Hlm :=
  vm_compute;
  repeat first
    [ apply foreign_nil
    | apply foreign_char; [discriminate|]
    | eapply foreign_tag_at;
      [vm_compute; reflexivity | not_in_literal | vm_compute; reflexivity
      | cbn [drop]]
    | eapply foreign_div_at;
      [ vm_compute; reflexivity | vm_compute; reflexivity | not_in_literal
      | first
          [ left; not_in_literal
          | right; exists (str " class="), (str "library-metadata");
            split; [vm_compute; reflexivity|];
            split; [not_in_literal|];
            split; [not_in_literal|];
            split; [not_in_literal | exact Hlm] ]
      | cbn [drop] ] ].

Section RoundTrip.

Variable toUpperCase : jsstring → jsstring.
Variable inherited_text : jsstring → jsstring.

Local Abbreviation template_of :=
  (generateBlockTemplate toUpperCase inherited_text).

(** A template with one section, cut at the opening tag of the block. *)
Lemma generateBlockTemplate_parts (blockName : jsstring)
    (description : option jsstring) (structure : features)
    (blockContent : option (gmap jsstring jsstring)) :
  template_of blockName description None structure blockContent
  = template_head (capitalize toUpperCase blockName)
      (autoDescription toUpperCase blockName description None structure)
    ++ instance_tag blockName []
    ++ nl ++ spliced inherited_text (section_content blockContent [])
    ++ template_tail.
Proof.
  unfold generateBlockTemplate, blockSections, variantsToGenerate,
    block_section, template_head, template_tail, instance_tag, lines.
  cbn [has_variants map truthy join].
  change (strq "      <div class='")
    with (str "      " ++ strq "<div class='").
  rewrite <- !app_assoc. reflexivity.
Qed.

Lemma section_content_base (blockContent : option (gmap jsstring jsstring)) :
  spliced inherited_text (section_content blockContent [])
  = base_content blockContent.
Proof.
  unfold section_content, or_else, get_opt, get, base_content.
  destruct blockContent as [own|]; [|done].
  rewrite inherited_empty. by destruct (own !! []) as [[|c s]|].
Qed.

Lemma generateAutoDescription_no_tag (blockName : jsstring)
    (structure : features) :
  lt_sign ∉ capitalize toUpperCase blockName →
  lt_sign ∉ generateAutoDescription toUpperCase blockName structure None.
Proof.
  intros Hname. unfold generateAutoDescription.
  destruct structure as [[|] [|] [|] [|] bem]; cbn [hasMultipleItems hasImage
    hasHeading hasButton has_variants push app length Nat.ltb Nat.leb join];
    try not_in_literal.
  apply notin_app; [done | not_in_literal].
Qed.

Lemma template_head_foreign (blockName name description : jsstring) :
  ¬ mentions (str "library-metadata") blockName →
  lt_sign ∉ name → lt_sign ∉ description →
  foreign blockName (template_head name description).
Proof.
  intros Hlm Hname Hdesc.
  assert (template_head name description
          = lines [ str "<body>"; str "  <header></header>"; str "  <main>";
                    str "    <div>";
                    strq "      <div class='library-metadata'>";
                    str "        <div>"; str "          <div>name</div>";
                    str "          <div>" ]
            ++ name
            ++ lines [ str "</div>"; str "        </div>"; str "        <div>";
                       str "          <div>description</div>";
                       str "          <div>" ]
            ++ description
            ++ lines [ str "</div>"; str "        </div>"; str "      </div>";
                       str "      " ]) as ->.
  { unfold template_head, lines. cbn [join]. rewrite <- !app_assoc.
    reflexivity. }
  apply foreign_app; [foreign_literal Hlm|].
  apply foreign_app; [by apply foreign_text|].
  apply foreign_app; [foreign_literal Hlm|].
  apply foreign_app; [by apply foreign_text|].
  foreign_literal Hlm.
Qed.

Lemma template_tail_foreign (blockName : jsstring) :
  foreign blockName template_tail.
Proof. assert (Hlm : True) by done. foreign_literal Hlm. Qed.

Lemma generateBlockTemplate_no_variants (blockName : jsstring)
    (description : option jsstring) (variants : option (list jsstring))
    (structure : features) (blockContent : option (gmap jsstring jsstring)) :
  default [] variants = [] →
  template_of blockName description variants structure blockContent
  = template_of blockName description None structure blockContent.
Proof. by destruct variants as [[|v vs]|]. Qed.

(** The extractor on a template with one section. *)
Lemma parseBlockInstances_of_template (blockName : jsstring)
    (description : option jsstring) (structure : features)
    (blockContent : option (gmap jsstring jsstring)) :
  plain_name blockName →
  ¬ mentions (str "library-metadata") blockName →
  lt_sign ∉ toUpperCase (charAt blockName 0) →
  (∀ d, description = Some d → lt_sign ∉ d) →
  foreign blockName (base_content blockContent) →
  balanced (base_content blockContent) →
  parseBlockInstances
    (template_of blockName description None structure blockContent)
    blockName
  = {[ [] := trim (base_content blockContent) ]}.
Proof.
  intros Hb Hlm Hup Hdesc Hforeign Hbalanced.
  set (c := base_content blockContent) in *.
  rewrite generateBlockTemplate_parts, section_content_base. fold c.
  set (name := capitalize toUpperCase blockName).
  set (text := autoDescription toUpperCase blockName description None
                 structure).
  assert (Hname : lt_sign ∉ name).
  { unfold name, capitalize, slice. apply notin_app; [done|].
    destruct Hb as (Hbc & _). apply plain_name_chars; [|done].
    by apply Forall_drop. }
  assert (Htext : lt_sign ∉ text).
  { unfold text, autoDescription. destruct description as [[|d0 d]|].
    - by apply generateAutoDescription_no_tag.
    - by apply Hdesc.
    - by apply generateAutoDescription_no_tag. }
  assert (Hhead : foreign blockName (template_head name text))
    by (by apply template_head_foreign).
  pose proof (template_tail_foreign blockName) as Htail.
  rewrite parseBlockInstances_at_instance;
    [|done | by apply plain_variant_base | done].
  set (start := length (template_head name text)
                + length (instance_tag blockName [])).
  set (html := template_head name text ++ instance_tag blockName []
                 ++ nl ++ c ++ template_tail).
  assert (Htl : template_tail
                = str "      " ++ str "</div>"
                  ++ lines [ []; str "    </div>"; str "  </main>";
                             str "  <footer></footer>"; str "</body>" ])
    by reflexivity.
  set (rest' := lines [ []; str "    </div>"; str "  </main>";
                        str "  <footer></footer>"; str "</body>" ]) in Htl.
  assert (Hclose : balanced_close (nl ++ c ++ template_tail) start 0 1
                   = Some (start + (1 + length c + 6))).
  { change (nl ++ c ++ template_tail) with (10%N :: (c ++ template_tail)).
    rewrite balanced_close_char by done.
    rewrite balanced_close_balanced by done.
    rewrite Htl, balanced_close_text by not_in_literal.
    change (str "</div>" ++ rest') with (lt_sign :: str "/div>" ++ rest').
    cbn [balanced_close]. change (close_tag _) with true. cbn.
    f_equal. lia. }
  rewrite Hclose.
  assert (Hsub : substring html start (start + (1 + length c + 6))
                 = nl ++ c ++ str "      ").
  { unfold html, start. rewrite Htl.
    rewrite (app_assoc (template_head name text)).
    rewrite <- length_app.
    replace (nl ++ c ++ str "      " ++ str "</div>" ++ rest')
      with ((nl ++ c ++ str "      ") ++ str "</div>" ++ rest')
      by (by rewrite <- !app_assoc).
    replace (1 + length c + 6) with (length (nl ++ c ++ str "      "))
      by (rewrite !length_app; simpl; lia).
    apply substring_app. }
  rewrite Hsub, trim_padded by (by repeat constructor).
  assert (Hlen : start ≤ length html).
  { unfold html, start. rewrite !length_app. lia. }
  generalize (length html) at 1. intros [|fuel]; [reflexivity|].
  cbn [instances_loop]. rewrite exec_search by done.
  replace (drop start html) with ((nl ++ c ++ template_tail) ++ []).
  2:{ rewrite app_nil_r. unfold html, start.
      rewrite (app_assoc (template_head name text)).
      by rewrite drop_app_length' by (by rewrite length_app). }
  rewrite search_foreign.
  - by rewrite search_end.
  - by apply plain_name_facts.
  - apply (foreign_char _ 10%N); [done|]. by apply foreign_app.
Qed.

(** A template made for the base variant of a block gives back, to the
    extractor, the content it was made from.  The template, made without
    variants, has one section; the extractor run on it for the same block
    finds one instance, under the base variant, and its content is the
    content the generator was given for that variant, trimmed: so content
    that came from the extractor comes back unchanged.  This holds for a
    plain block name that no part of the class name of the metadata table
    spells, a name and a description without any tag, and a content that
    holds no instance of the block and has its div tags balanced. *)
Theorem template_round_trip (blockName : jsstring)
    (description : option jsstring) (variants : option (list jsstring))
    (structure : features)
    (blockContent : option (gmap jsstring jsstring)) :
  default [] variants = [] →
  plain_name blockName →
  ¬ mentions (str "library-metadata") blockName →
  lt_sign ∉ toUpperCase (charAt blockName 0) →
  (∀ d, description = Some d → lt_sign ∉ d) →
  foreign blockName (base_content blockContent) →
  balanced (base_content blockContent) →
  parseBlockInstances
    (template_of blockName description variants structure blockContent)
    blockName
  = {[ [] := trim (base_content blockContent) ]}
  ∧ (trimmed (base_content blockContent) →
     parseBlockInstances
       (template_of blockName description variants structure blockContent)
       blockName !! []
     = Some (base_content blockContent)).
Proof.
  intros Hvs Hb Hlm Hup Hdesc Hforeign Hbalanced.
  rewrite generateBlockTemplate_no_variants by done.
  rewrite parseBlockInstances_of_template by done.
  split; [done|]. intros Htrim. rewrite lookup_singleton_eq.
  by rewrite trim_fixed.
Qed.

(** The template tool makes its template without any content.  So the
    template it gives for a block without variants holds one instance of
    the block for the extractor, the base variant, and that instance is
    empty; the tool says that it used a structure exactly when it was given
    one. *)
Theorem da_blocks_generate_template_instance (args : template_args) :
  default [] (t_variants args) = [] →
  plain_name (t_blockName args) →
  ¬ mentions (str "library-metadata") (t_blockName args) →
  lt_sign ∉ toUpperCase (charAt (t_blockName args) 0) →
  (∀ d, t_description args = Some d → lt_sign ∉ d) →
  let result :=
    da_blocks_generate_template toUpperCase inherited_text args in
  parseBlockInstances (template result) (t_blockName args) = {[ [] := [] ]}
  ∧ tr_blockName result = t_blockName args
  ∧ (usedStructure result = true ↔ is_Some (t_structure args))
  ∧ template result
    = template_of (t_blockName args) (t_description args) None
        (default no_features (t_structure args)) None.
Proof.
  intros Hvs Hb Hlm Hup Hdesc result. subst result.
  unfold da_blocks_generate_template.
  cbn [template tr_blockName usedStructure].
  rewrite generateBlockTemplate_no_variants by done.
  rewrite parseBlockInstances_of_template; try done; [|constructor..].
  split; [done|]. split; [done|]. split; [|done].
  apply bool_decide_eq_true.
Qed.

End RoundTrip.

Lemma template_round_trip_witness :
  let content := str "<div><div>Hello</div></div>" in
  parseBlockInstances
    (generateBlockTemplate ascii_toUpperCase (λ _, []) (str "hero") None None
       no_features (Some {[ [] := content ]}))
    (str "hero")
  = {[ [] := content ]}.
Proof.
  intros content.
  destruct (template_round_trip ascii_toUpperCase (λ _, []) (str "hero") None
              None no_features (Some {[ [] := content ]})) as [H _].
  - done.
  - split; [|by split]. by repeat constructor.
  - rewrite mentions_spec. vm_compute. discriminate.
  - not_in_literal.
  - intros d Hd. discriminate Hd.
  - assert (Hlm : True) by done. foreign_literal Hlm.
  - change (base_content (Some {[ [] := content ]})) with content.
    apply (balanced_div [] (str "<div>Hello</div>") []);
      [apply not_elem_of_nil | apply not_elem_of_nil | | constructor].
    apply (balanced_div [] (str "Hello") []);
      [apply not_elem_of_nil | apply not_elem_of_nil | | constructor].
    repeat (apply balanced_char; [discriminate|]). constructor.
  - rewrite H. vm_compute. reflexivity.
Defined.

Lemma da_blocks_generate_template_instance_witness :
  parseBlockInstances
    (template
       (da_blocks_generate_template ascii_toUpperCase (λ _, [])
          (TemplateArgs (str "hero") None None None)))
    (str "hero")
  = {[ [] := [] ]}.
Proof.
  destruct (da_blocks_generate_template_instance ascii_toUpperCase (λ _, [])
              (TemplateArgs (str "hero") None None None)) as [H _].
  - done.
  - split; [|by split]. by repeat constructor.
  - rewrite mentions_spec. vm_compute. discriminate.
  - not_in_literal.
  - intros d Hd. discriminate Hd.
  - exact H.
Defined.

(** ** Templates with several sections *)

Lemma join_cons (sep p : jsstring) (rest : list jsstring) :
  join sep (p :: rest)
  = p ++ match rest with [] => [] | _ => sep end ++ join sep rest.
Proof. destruct rest; cbn [join]; [by rewrite app_nil_r | done]. Qed.

Lemma join_notin (c : cu) (sep : jsstring) (parts : list jsstring) :
  c ∉ sep → Forall (λ p, c ∉ p) parts → c ∉ join sep parts.
Proof.
  intros Hsep. induction 1 as [|p parts Hp Hparts IH];
    [apply not_elem_of_nil|].
  rewrite join_cons. apply notin_app; [done|].
  apply notin_app; [|done]. destruct parts; [apply not_elem_of_nil | done].
Qed.

(** What the loop of the extractor records on the sections of a template,
    from a place from which they come after text that holds no instance:
    one instance for every section, in their order. *)
Lemma instances_loop_sections (blockName : jsstring)
    (head content section : jsstring → jsstring) (vs : list jsstring) :
  plain_name blockName →
  Forall (λ v, plain_variant blockName v
               ∧ foreign blockName (head v)
               ∧ foreign blockName (content v)
               ∧ balanced (content v)
               ∧ section v
                 = head v ++ instance_tag blockName v ++ nl ++ content v
                     ++ section_tail) vs →
  ∀ before gap after fuel blockInstances,
    foreign blockName gap → foreign blockName after →
    let html := before ++ gap ++ join nl (map section vs) ++ after in
    length html - length before < fuel →
    instances_loop fuel html blockName (length before) blockInstances
    = fold_left (recorded content) vs blockInstances.
Proof.
  intros Hb Hvs.
  induction Hvs as [|v vs (Hv & Hh & Hc & Hbal & Es) Hvs IH];
    intros before gap after fuel bi Hgap Hafter html Hfuel.
  - cbn [map join fold_left]. destruct fuel as [|fuel]; [lia|].
    cbn [instances_loop].
    rewrite exec_search by (unfold html; rewrite length_app; lia).
    unfold html. rewrite drop_app_length. cbn [map join app].
    rewrite <- (app_nil_r (gap ++ after)).
    rewrite search_foreign;
      [by rewrite search_end | by apply plain_name_facts
      | by apply foreign_app].
  - cbn [map fold_left]. destruct fuel as [|fuel]; [lia|].
    set (gap' := match map section vs with [] => [] | _ => nl end).
    set (rest := join nl (map section vs)).
    set (post := nl ++ content v ++ section_tail ++ gap' ++ rest ++ after).
    assert (Hhtml : html
                    = before ++ (gap ++ head v) ++ instance_tag blockName v
                        ++ post).
    { unfold html, post. cbn [map]. rewrite join_cons, Es.
      fold gap' rest. by rewrite <- !app_assoc. }
    set (start := length before + length (gap ++ head v)
                  + length (instance_tag blockName v)).
    assert (Hgap' : foreign blockName gap').
    { unfold gap'. destruct (map section vs); [constructor|].
      apply foreign_char; [done | constructor]. }
    assert (Htl : section_tail
                  = str "      " ++ str "</div>" ++ lines [ []; str "    </div>" ])
      by reflexivity.
    set (end' := lines [ []; str "    </div>" ]) in Htl.
    assert (Hclose : balanced_close post start 0 1
                     = Some (start + (1 + length (content v) + 6))).
    { unfold post.
      change (nl ++ content v ++ section_tail ++ gap' ++ rest ++ after)
        with (10%N :: (content v ++ section_tail ++ gap' ++ rest ++ after)).
      rewrite balanced_close_char by done.
      rewrite balanced_close_balanced by done.
      rewrite Htl, <- !app_assoc, balanced_close_text by not_in_literal.
      change (str "</div>" ++ end' ++ gap' ++ rest ++ after)
        with (lt_sign :: str "/div>" ++ end' ++ gap' ++ rest ++ after).
      cbn [balanced_close]. change (close_tag _) with true. cbn.
      f_equal. lia. }
    assert (Hsub : substring html start (start + (1 + length (content v) + 6))
                   = nl ++ content v ++ str "      ").
    { rewrite Hhtml. unfold start, post. rewrite Htl.
      rewrite (app_assoc before), (app_assoc (before ++ _)).
      rewrite <- !length_app.
      replace (nl ++ content v
               ++ (str "      " ++ str "</div>" ++ end')
               ++ gap' ++ rest ++ after)
        with ((nl ++ content v ++ str "      ")
              ++ str "</div>" ++ end' ++ gap' ++ rest ++ after)
        by (by rewrite <- !app_assoc).
      replace (1 + length (content v) + 6)
        with (length (nl ++ content v ++ str "      "))
        by (rewrite !length_app; simpl; lia).
      apply substring_app. }
    pose proof (instances_loop_at_instance fuel blockName v before
                  (gap ++ head v) post bi Hb Hv (foreign_app _ _ _ Hgap Hh))
      as Hturn.
    cbn zeta in Hturn. fold start in Hturn. rewrite <- Hhtml in Hturn.
    rewrite Hturn, Hclose, Hsub, trim_padded by (by repeat constructor).
    fold (recorded content bi v).
    set (before' := (before ++ (gap ++ head v)) ++ instance_tag blockName v).
    assert (Hstart : start = length before')
      by (unfold start, before'; by rewrite !length_app).
    assert (Hhtml' : html
                     = before' ++ (nl ++ content v ++ section_tail ++ gap')
                         ++ join nl (map section vs) ++ after).
    { rewrite Hhtml. unfold before', post, rest. by rewrite <- !app_assoc. }
    rewrite Hstart, Hhtml'. apply IH.
    + apply (foreign_char _ 10%N); [done|]. apply foreign_app; [done|].
      apply foreign_app; [|done]. assert (Hlm : True) by done.
      foreign_literal Hlm.
    + done.
    + rewrite <- Hhtml'.
      assert (length before' ≤ length html)
        by (rewrite Hhtml', length_app; lia).
      assert (length before < length before').
      { unfold before'. rewrite !length_app.
        pose proof (instance_tag_length blockName v). lia. }
      lia.
Qed.

(** The mapping made of the instances of a list of sections. *)
Lemma fold_recorded (content : jsstring → jsstring) (vs : list jsstring) :
  ∀ blockInstances,
    (∀ u x, blockInstances !! u = Some x → x = trim (content u)) →
    ∀ u, fold_left (recorded content) vs blockInstances !! u
         = if decide (u ∈ vs) then Some (trim (content u))
           else blockInstances !! u.
Proof.
  induction vs as [|v vs IH]; intros bi Hbi u; cbn [fold_left].
  - by rewrite decide_False by apply not_elem_of_nil.
  - assert (Hv : recorded content bi v !! v = Some (trim (content v))).
    { unfold recorded. destruct (bi !! v) as [x|] eqn:E; simpl.
      - destruct (truthy x); [|by rewrite lookup_insert_eq].
        rewrite E. f_equal. by apply Hbi.
      - by rewrite lookup_insert_eq. }
    assert (Hu : ∀ w, w ≠ v → recorded content bi v !! w = bi !! w).
    { intros w Hw. unfold recorded. destruct (truthy _); [done|].
      by rewrite lookup_insert_ne. }
    rewrite IH.
    2:{ intros w x. destruct (decide (w = v)) as [->|Hw].
        - rewrite Hv. by intros [= <-].
        - rewrite Hu by done. apply Hbi. }
    destruct (decide (u ∈ vs)) as [Hin|Hout].
    + rewrite decide_True; [done|]. by right.
    + destruct (decide (u = v)) as [->|Hne].
      * rewrite decide_True by left. done.
      * rewrite Hu by done. rewrite decide_False; [done|].
        by intros [?|?]%elem_of_cons.
Qed.

Section Variants.

Variable toUpperCase : jsstring → jsstring.
Variable inherited_text : jsstring → jsstring.

Local Abbreviation template_of :=
  (generateBlockTemplate toUpperCase inherited_text).

(** A section, cut at the opening tag of the block. *)
Lemma block_section_parts (blockName text : jsstring)
    (blockContent : option (gmap jsstring jsstring)) (v : jsstring) :
  inherited v = false →
  block_section toUpperCase inherited_text blockName text blockContent v
  = section_head (section_name (capitalize toUpperCase blockName) v) text
    ++ instance_tag blockName v ++ nl ++ variant_content blockContent v
    ++ section_tail.
Proof.
  intros Hinh.
  assert (spliced inherited_text (section_content blockContent v)
          = variant_content blockContent v) as Hcontent.
  { unfold section_content, or_else, get_opt, get, variant_content.
    destruct blockContent as [own|]; [|done].
    rewrite Hinh, inherited_empty.
    by destruct (own !! v) as [[|c s]|], (own !! []) as [[|c' s']|]. }
  unfold block_section, section_head, section_tail, section_name,
    instance_tag, lines.
  rewrite Hcontent. cbn [join].
  change (strq "      <div class='")
    with (str "      " ++ strq "<div class='").
  rewrite <- !app_assoc. reflexivity.
Qed.

(** A template, cut around its sections. *)
Lemma generateBlockTemplate_sections (blockName : jsstring)
    (description : option jsstring) (variants : option (list jsstring))
    (structure : features)
    (blockContent : option (gmap jsstring jsstring)) :
  template_of blockName description variants structure blockContent
  = [] ++ lines [ str "<body>"; str "  <header></header>"; str "  <main>"; [] ]
    ++ join nl (blockSections toUpperCase inherited_text blockName
                  description variants structure blockContent)
    ++ lines [ []; str "  </main>"; str "  <footer></footer>"; str "</body>" ].
Proof.
  unfold generateBlockTemplate, lines. cbn [join].
  rewrite <- !app_assoc. reflexivity.
Qed.

Lemma generateAutoDescription_no_tag_variants (blockName : jsstring)
    (structure : features) (variants : option (list jsstring)) :
  lt_sign ∉ capitalize toUpperCase blockName →
  Forall (λ v, lt_sign ∉ v) (default [] variants) →
  lt_sign ∉ generateAutoDescription toUpperCase blockName structure variants.
Proof.
  intros Hname Hvs. unfold generateAutoDescription.
  assert (Hjoin : lt_sign ∉ str "Variants: "
                             ++ join (str ", ") (default [] variants)).
  { apply notin_app; [not_in_literal|].
    apply join_notin; [not_in_literal | done]. }
  revert Hjoin. generalize (str "Variants: "
                            ++ join (str ", ") (default [] variants)).
  intros listed Hlisted.
  destruct structure as [[|] [|] [|] [|] bem], (has_variants variants);
    cbn [hasMultipleItems hasImage hasHeading hasButton push app length
         Nat.ltb Nat.leb join];
    first
      [ not_in_literal
      | repeat (apply notin_app; [first [not_in_literal | done]|]);
        first [done | not_in_literal] ].
Qed.

Lemma section_head_foreign (blockName name description : jsstring) :
  ¬ mentions (str "library-metadata") blockName →
  lt_sign ∉ name → lt_sign ∉ description →
  foreign blockName (section_head name description).
Proof.
  intros Hlm Hname Hdesc.
  assert (section_head name description
          = lines [ str "    <div>";
                    strq "      <div class='library-metadata'>";
                    str "        <div>"; str "          <div>name</div>";
                    str "          <div>" ]
            ++ name
            ++ lines [ str "</div>"; str "        </div>"; str "        <div>";
                       str "          <div>description</div>";
                       str "          <div>" ]
            ++ description
            ++ lines [ str "</div>"; str "        </div>"; str "      </div>";
                       str "      " ]) as ->.
  { unfold section_head, lines. cbn [join]. rewrite <- !app_assoc.
    reflexivity. }
  apply foreign_app; [foreign_literal Hlm|].
  apply foreign_app; [by apply foreign_text|].
  apply foreign_app; [foreign_literal Hlm|].
  apply foreign_app; [by apply foreign_text|].
  foreign_literal Hlm.
Qed.

(** A template gives back, to the extractor, the content it was made from,
    variant by variant.  The extractor run on a template for the same block
    finds the variants the template has a section for, and no other; the
    content of each is the content the generator used for that variant,
    trimmed: the entry of the variant in the mapping the generator was
    given, when it has one that is not empty, and the entry of the base
    variant otherwise.  A variant asked for twice is there once.  This holds
    for a plain block name that no part of the class name of the metadata
    table spells, plain variants, a name and a description without any tag,
    and contents that hold no instance of the block and have their div tags
    balanced. *)
Theorem template_round_trip_variants (blockName : jsstring)
    (description : option jsstring) (variants : option (list jsstring))
    (structure : features)
    (blockContent : option (gmap jsstring jsstring)) :
  let vs := variantsToGenerate variants in
  plain_name blockName →
  Forall (plain_variant blockName) vs →
  ¬ mentions (str "library-metadata") blockName →
  lt_sign ∉ toUpperCase (charAt blockName 0) →
  (∀ d, description = Some d → lt_sign ∉ d) →
  (∀ v, v ∈ vs → foreign blockName (variant_content blockContent v)
                 ∧ balanced (variant_content blockContent v)) →
  ∀ v,
    parseBlockInstances
      (template_of blockName description variants structure blockContent)
      blockName !! v
    = if decide (v ∈ vs) then Some (trim (variant_content blockContent v))
      else None.
Proof.
  intros vs Hb Hvs Hlm Hup Hdesc Hcontent v.
  set (name := capitalize toUpperCase blockName).
  set (text := autoDescription toUpperCase blockName description variants
                 structure).
  assert (Hname : lt_sign ∉ name).
  { unfold name, capitalize, slice. apply notin_app; [done|].
    destruct Hb as (Hbc & _). apply plain_name_chars; [|done].
    by apply Forall_drop. }
  assert (Hlisted : Forall (λ v, lt_sign ∉ v) (default [] variants)).
  { unfold vs, variantsToGenerate in Hvs.
    destruct (has_variants variants) eqn:E.
    - eapply Forall_impl; [exact Hvs|]. intros u (Hu & _).
      by apply plain_name_chars.
    - destruct variants as [[|u us]|]; [constructor | done | constructor]. }
  assert (Htext : lt_sign ∉ text).
  { unfold text, autoDescription. destruct description as [[|d0 d]|].
    - by apply generateAutoDescription_no_tag_variants.
    - by apply Hdesc.
    - by apply generateAutoDescription_no_tag_variants. }
  rewrite generateBlockTemplate_sections. unfold parseBlockInstances.
  unfold blockSections. fold text vs.
  rewrite (instances_loop_sections blockName
             (λ u, section_head (section_name name u) text)
             (variant_content blockContent)
             (block_section toUpperCase inherited_text blockName text
                blockContent) vs Hb).
  - rewrite fold_recorded by (intros u x; by rewrite lookup_empty).
    by rewrite lookup_empty.
  - rewrite Forall_forall in Hvs. apply Forall_forall. intros u Hu.
    pose proof (Hvs u Hu) as Hpv. destruct (Hcontent u Hu) as [Hf Hbal].
    split; [done|]. split; [|split; [done|split; [done|]]].
    + apply section_head_foreign; [done | | done].
      unfold section_name. destruct (truthy u); [|done].
      apply notin_app; [done|]. apply notin_app; [not_in_literal|].
      apply notin_app; [|not_in_literal].
      destruct Hpv as (Hchars & _). by apply plain_name_chars.
    + apply block_section_parts. by destruct Hpv as (_ & _ & ?).
  - assert (Hlm' : True) by done. foreign_literal Hlm'.
  - assert (Hlm' : True) by done. foreign_literal Hlm'.
  - cbn [app length]. lia.
Qed.

End Variants.

Lemma template_round_trip_variants_witness :
  let own : gmap jsstring jsstring :=
    <[ str "dark" := str "<p>Night</p>" ]>
      {[ [] := str "<div><p>Day</p></div>" ]} in
  let html :=
    generateBlockTemplate ascii_toUpperCase (λ _, []) (str "hero") None
      (Some [str "dark"; str "wide"]) no_features (Some own) in
  parseBlockInstances html (str "hero") !! str "dark"
  = Some (str "<p>Night</p>")
  ∧ parseBlockInstances html (str "hero") !! str "wide"
    = Some (str "<div><p>Day</p></div>")
  ∧ parseBlockInstances html (str "hero") !! [] = None.
Proof.
  intros own html.
  pose proof (template_round_trip_variants ascii_toUpperCase (λ _, [])
                (str "hero") None (Some [str "dark"; str "wide"]) no_features
                (Some own)) as H.
  cbn zeta in H.
  assert (Hplain : Forall (λ c, is_class_char c = true) (str "hero"))
    by (by repeat constructor).
  specialize (H ltac:(split; [exact Hplain | by split])).
  assert (Hvs : Forall (plain_variant (str "hero"))
                  (variantsToGenerate (Some [str "dark"; str "wide"]))).
  { change (variantsToGenerate (Some [str "dark"; str "wide"]))
      with [str "dark"; str "wide"].
    apply Forall_cons; split; [|apply Forall_cons; split; [|constructor]].
    all: split; [by repeat constructor|].
    all: split; [intros [E|[more E]]; discriminate E | done]. }
  specialize (H Hvs).
  specialize (H ltac:(rewrite mentions_spec; vm_compute; discriminate)).
  specialize (H ltac:(not_in_literal)).
  specialize (H ltac:(intros d Hd; discriminate Hd)).
  assert (Hcontent : ∀ v, v ∈ variantsToGenerate
                                (Some [str "dark"; str "wide"]) →
                     foreign (str "hero") (variant_content (Some own) v)
                     ∧ balanced (variant_content (Some own) v)).
  { intros v Hv. assert (Hlm : True) by done.
    apply elem_of_cons in Hv as [->|Hv];
      [|apply elem_of_cons in Hv as [->|Hv]; [|by apply elem_of_nil in Hv]].
    - split; [foreign_literal Hlm|]. vm_compute.
      apply (balanced_tag (str "p") _); [not_in_literal.. | done | done |].
      repeat (apply balanced_char; [discriminate|]).
      apply (balanced_tag (str "/p") _); [not_in_literal.. | done | done |].
      constructor.
    - split; [foreign_literal Hlm|]. vm_compute.
      apply (balanced_div [] (str "<p>Day</p>") []);
        [apply not_elem_of_nil | apply not_elem_of_nil | | constructor].
      apply (balanced_tag (str "p") _); [not_in_literal.. | done | done |].
      repeat (apply balanced_char; [discriminate|]).
      apply (balanced_tag (str "/p") _); [not_in_literal.. | done | done |].
      constructor. }
  specialize (H Hcontent).
  unfold html. split; [|split].
  - rewrite (H (str "dark")). vm_compute. reflexivity.
  - rewrite (H (str "wide")). vm_compute. reflexivity.
  - rewrite (H []). vm_compute. reflexivity.
Defined.
